(** * STUMPY: the anytime SCRIMP engine and the MPdist selection

    A shallow embedding of [stumpy/scrimp.py] and [stumpy/mpdist.py].

    - NumPy [float64] values are [spec_float]s at the binary64 format, with
      the IEEE comparisons ([<] is false as soon as one side is NaN).
    - Python and NumPy integers are [Z]; arrays are lists read through
      checked lookups ([None] stands for the exception the access raises,
      or for an access outside the array in JIT-compiled code).
    - [percentage] is a Python float: its clamp, its product with an
      integer, the quotient of two counts and the comparisons with it are
      those of binary64; integers are converted to binary64 by rounding to
      nearest. The flag [fastmath] of the JIT compiler is taken not to
      change the value of a single division.
    - The array [out] that the generator [scrimp] yields lives in a store
      of objects, so that a yielded reference can be read again later. *)

From Stdlib Require Import ZArith QArith Qround Lia Bool.
From Stdlib Require Import Floats.SpecFloat.
From stdpp Require Import base option list gmap.

Open Scope Z_scope.

(** ** binary64 *)

Module F64.

Definition prec : Z := 53.
Definition emax : Z := 1024.

Definition float := spec_float.

Definition inf : float := S754_infinity false.
Definition nan : float := S754_nan.
Definition zero : float := S754_zero false.

Definition of_Z (z : Z) : float := binary_normalize prec emax z 0 false.

Definition add (x y : float) : float := SFadd prec emax x y.
Definition sub (x y : float) : float := SFsub prec emax x y.
Definition mul (x y : float) : float := SFmul prec emax x y.
Definition div (x y : float) : float := SFdiv prec emax x y.
Definition sqrt (x : float) : float := SFsqrt prec emax x.
Definition abs (x : float) : float := SFabs x.

(** [x < y], [x <= y], [x == y], and [x > y] as the same test mirrored. *)
Definition ltb (x y : float) : bool := SFltb x y.
Definition leb (x y : float) : bool := SFleb x y.
Definition eqb (x y : float) : bool := SFeqb x y.
Definition gtb (x y : float) : bool := SFltb y x.

Definition isnan (x : float) : bool :=
  match x with S754_nan => true | _ => false end.

Definition isinf (x : float) : bool :=
  match x with S754_infinity _ => true | _ => false end.

(** [np.isfinite]. *)
Definition isfinite (x : float) : bool :=
  match x with S754_zero _ | S754_finite _ _ _ => true | _ => false end.

(** Decimal literals used in the examples, rounded to nearest. *)
Definition d0_05 : float := S754_finite false 7205759403792794 (-57).
Definition d0_1 : float := S754_finite false 7205759403792794 (-56).
Definition d0_2 : float := S754_finite false 7205759403792794 (-55).
Definition d0_3 : float := S754_finite false 5404319552844595 (-54).
Definition d0_4 : float := S754_finite false 7205759403792794 (-54).
Definition d0_5 : float := S754_finite false 4503599627370496 (-53).
Definition one : float := S754_finite false 4503599627370496 (-52).

(** [math.ceil(x)], [int(np.ceil(x))]: the least integer not below [x];
    an infinite value raises [OverflowError], NaN raises [ValueError]. *)
Definition ceil (x : float) : option Z :=
  match x with
  | S754_zero _ => Some 0
  | S754_finite s m e =>
      let z := if s then Z.neg m else Z.pos m in
      Some (if 0 <=? e then z * 2 ^ e else - ((- z) / 2 ^ (- e)))
  | S754_infinity _ | S754_nan => None
  end.

End F64.

Abbreviation float := F64.float.

(** ** Arrays *)

Section Arrays.
Context {A : Type}.

(** [a[i]] in Python and NumPy: a negative index counts from the end, an
    index outside [-len, len) raises [IndexError]. *)
Definition py_index (a : list A) (i : Z) : option A :=
  let len := Z.of_nat (length a) in
  if (0 <=? i) && (i <? len) then a !! Z.to_nat i
  else if (- len <=? i) && (i <? 0) then a !! Z.to_nat (len + i)
  else None.

(** [a[i]] in JIT-compiled code, which is not bounds checked: an index
    outside [0, len) is an access outside the array. *)
Definition jit_index (a : list A) (i : Z) : option A :=
  if (0 <=? i) && (i <? Z.of_nat (length a)) then a !! Z.to_nat i else None.

(** [a[:k]]: slices never raise. *)
Definition py_slice_to (a : list A) (k : Z) : list A :=
  if 0 <=? k then take (Z.to_nat k) a
  else take (Z.to_nat (Z.of_nat (length a) + k)) a.

(** [a[i : j]] for [0 <= i]. *)
Definition py_slice (a : list A) (i j : Z) : list A :=
  drop (Z.to_nat i) (take (Z.to_nat j) a).

End Arrays.

(** [range(a, b)] *)
Definition py_range (a b : Z) : list Z := seqZ a (b - a).

(** [range(0, b, s)] for [0 <= b]: empty for a negative step (a zero step
    raises, which the caller models). *)
Definition py_range_step (b s : Z) : list Z :=
  if 0 <? s then (λ q, q * s) <$> py_range 0 ((b + s - 1) / s) else [].


(** Python's [min(a, b)] and [max(a, b)] on floats: [b] if [b < a]
    (if [b > a]), else [a]; the first argument wins ties, and stays when
    it is NaN. *)
Definition py_min (a b : float) : float := if F64.ltb b a then b else a.
Definition py_max (a b : float) : float := if F64.gtb b a then b else a.

(** ** mpdist.py *)

Module MPdist.

(** [np.count_nonzero(np.isfinite(v))] *)
Definition count_finite (v : list float) : Z :=
  Z.of_nat (length (filter (λ x, F64.isfinite x = true) v)).

Definition _select_P_ABBA_value (P_ABBA : list float) (k : Z)
    (custom_func : option (list float → float)) : option float :=
  match custom_func with
  | Some f => Some (f P_ABBA)
  | None =>
      MPdist ← py_index P_ABBA k;
      if negb (F64.isfinite MPdist) then
        let k := Z.max 0 (count_finite (py_slice_to P_ABBA k) - 1) in
        py_index P_ABBA k
      else Some MPdist
  end.

(** The index [k] that [_mpdist] hands to the selection; [math.ceil]
    raises when the product is not finite. *)
Definition _mpdist_k (n_A n_B m : Z) (percentage : float) (k : option Z)
    : option Z :=
  match k with
  | Some k => Some k
  | None =>
      let percentage := py_min percentage F64.one in
      let percentage := py_max percentage F64.zero in
      c ← F64.ceil (F64.mul percentage (F64.of_Z (n_A + n_B)));
      Some (Z.min c (n_A - m + 1 + n_B - m + 1 - 1))
  end.

(** [_mpdist], from the point where [P_ABBA] has been filled by the join
    engine and sorted in place; [n_A] and [n_B] are the lengths of the two
    series and [P_ABBA] has [n_A - m + 1 + n_B - m + 1] entries. *)
Definition _mpdist (P_ABBA : list float) (n_A n_B m : Z) (percentage : float)
    (k : option Z) (custom_func : option (list float → float)) : option float :=
  k ← _mpdist_k n_A n_B m percentage k;
  _select_P_ABBA_value P_ABBA k custom_func.

(** The clamp of [_mpdist]: [max(min(p, 1.0), 0.0)]. *)
Definition clamp01 (p : float) : float :=
  py_max (py_min p F64.one) F64.zero.

(** Sorted vectors for the examples. *)
Definition P_ABBA_example : list float :=
  [F64.d0_1; F64.d0_2; F64.inf; F64.d0_4; F64.inf].

Definition P_ABBA_six : list float :=
  [F64.d0_1; F64.d0_1; F64.d0_2; F64.d0_2; F64.d0_4; F64.d0_4].

End MPdist.

(** ** scrimp.py: the order partitioner *)

Definition sumZ (l : list Z) : Z := foldr Z.add 0 l.

(** [a / b > p] for integers [a], [b] and a percentage [p]: the quotient
    of the two integers as binary64 values, compared in binary64; a zero
    divisor raises [ZeroDivisionError]. *)
Definition ratio_gt (a b : Z) (p : float) : option bool :=
  if b =? 0 then None
  else Some (F64.gtb (F64.div (F64.of_Z a) (F64.of_Z b)) p).

(** The second loop of [_get_max_order_idx] over the indices [idxs] still
    to visit: the loop variable [order_idx] (unbound when [None]) and the
    running count, with the [break]. *)
Fixpoint max_order_loop (m n : Z) (orders : list Z) (max_n_dist : Z)
    (percentage : float) (idxs : list Z) (order_idx : option Z)
    (n_dist_computed : Z) : option (option Z * Z) :=
  match idxs with
  | [] => Some (order_idx, n_dist_computed)
  | idx :: idxs =>
      k ← jit_index orders idx;
      let n_dist_computed := n_dist_computed + (n - m + 2 - k) in
      b ← ratio_gt n_dist_computed max_n_dist percentage;
      if b : bool then Some (Some idx, n_dist_computed)
      else max_order_loop m n orders max_n_dist percentage idxs (Some idx)
             n_dist_computed
  end.

Definition _get_max_order_idx (m n : Z) (orders : list Z) (start : Z)
    (percentage : float) : option (Z * Z) :=
  let len := Z.of_nat (length orders) in
  (* first loop, over range(orders.shape[0]) *)
  let max_n_dist := foldl (λ acc k, acc + (n - m + 2 - k)) 0 orders in
  let order_idx := if 0 <? len then Some (len - 1) else None in
  (* second loop, over range(start, orders.shape[0]) *)
  '(order_idx, n_dist_computed) ←
      max_order_loop m n orders max_n_dist percentage (py_range start len)
        order_idx 0;
  order_idx ← order_idx;
  Some (order_idx + 1, n_dist_computed).

(** [orders_ranges[ranges_idx, 0] = a; orders_ranges[ranges_idx, 1] = b] *)
Definition set_range (orders_ranges : list (Z * Z)) (ranges_idx : Z)
    (a b : Z) : option (list (Z * Z)) :=
  if (0 <=? ranges_idx) && (ranges_idx <? Z.of_nat (length orders_ranges))
  then Some (<[Z.to_nat ranges_idx := (a, b)]> orders_ranges)
  else None.

(** The state of the loop of [_get_orders_ranges]. *)
Record split_state := SplitState {
  orders_ranges : list (Z * Z);
  ranges_idx : Z;
  range_start_idx : Z;
  split_n_dist : Z
}.

(** [n_dist_computed > max_n_dist_per_range], the latter being the quotient
    [total / n_split]. *)
Definition over_share (n_dist_computed total n_split : Z) : bool :=
  if Qlt_le_dec (inject_Z total / inject_Z n_split) (inject_Z n_dist_computed)
  then true else false.

Fixpoint split_loop (m n : Z) (orders : list Z) (max_order_idx total n_split : Z)
    (idxs : list Z) (st : split_state) : option split_state :=
  match idxs with
  | [] => Some st
  | order_idx :: idxs =>
      k ← jit_index orders order_idx;
      let n_dist_computed := split_n_dist st + (n - m + 2 - k) in
      if over_share n_dist_computed total n_split then
        r ← set_range (orders_ranges st) (ranges_idx st) (range_start_idx st)
              (Z.min (order_idx + 1) max_order_idx);
        split_loop m n orders max_order_idx total n_split idxs
          (SplitState r (ranges_idx st + 1) (order_idx + 1) 0)
      else
        split_loop m n orders max_order_idx total n_split idxs
          (SplitState (orders_ranges st) (ranges_idx st) (range_start_idx st)
             n_dist_computed)
  end.

Definition _get_orders_ranges (n_split m n : Z) (orders : list Z) (start : Z)
    (percentage : float) : option (list (Z * Z)) :=
  '(max_order_idx, n_dist_computed) ←
      _get_max_order_idx m n orders start percentage;
  if n_split <=? 0 then None else
  let zeros := replicate (Z.to_nat n_split) (0, 0) in
  st ← split_loop m n orders max_order_idx n_dist_computed n_split
         (py_range start max_order_idx) (SplitState zeros 0 start 0);
  set_range (orders_ranges st) (ranges_idx st) (range_start_idx st) max_order_idx.

(** The number of distances on the diagonals at order indices [lo .. hi-1]. *)
Definition dist_count (m n : Z) (orders : list Z) (lo hi : Z) : Z :=
  sumZ ((λ idx, n - m + 2 - default 0 (jit_index orders idx)) <$> py_range lo hi).

(** [_get_max_order_idx] as the specification words it: the total is taken
    over [orders[start:]] only. *)
Definition max_order_idx_remaining (m n : Z) (orders : list Z) (start : Z)
    (percentage : float) : option (Z * Z) :=
  let len := Z.of_nat (length orders) in
  let max_n_dist := dist_count m n orders start len in
  '(order_idx, n_dist_computed) ←
      max_order_loop m n orders max_n_dist percentage (py_range start len)
        (if 0 <? len then Some (len - 1) else None) 0;
  order_idx ← order_idx;
  Some (order_idx + 1, n_dist_computed).

(** [n_dist / max_n_dist > percentage] once the divisor is known not to be
    zero. *)
Definition exceeds (max_n_dist : Z) (percentage : float) (n_dist : Z) : bool :=
  F64.gtb (F64.div (F64.of_Z n_dist) (F64.of_Z max_n_dist)) percentage.

(** Ranges that follow one another from [a] to [b]: each begins where the
    previous one ends. *)
Fixpoint chained (a b : Z) (ranges : list (Z * Z)) : bool :=
  match ranges with
  | [] => a =? b
  | (x, y) :: ranges => (x =? a) && (x <=? y) && chained y b ranges
  end.

(** What the loop of [_get_orders_ranges] keeps true when it is about to
    visit [idx]: [rows] are the ranges cut so far, the current range starts
    at [range_start_idx] and has not yet passed its share. *)
Record split_inv (m n : Z) (orders : list Z)
    (start stop total n_split idx : Z) (st : split_state)
    (rows : list (Z * Z)) : Prop := {
  inv_ranges : orders_ranges st
               = rows ++ replicate (Z.to_nat n_split - length rows) (0, 0);
  inv_idx : ranges_idx st = Z.of_nat (length rows);
  inv_free : Z.of_nat (length rows) < n_split;
  inv_bounds : start ≤ range_start_idx st ≤ idx;
  inv_chain : chained start (range_start_idx st) rows = true;
  inv_rows : Forall (λ r, total < dist_count m n orders r.1 r.2 * n_split ∧
                          dist_count m n orders r.1 (r.2 - 1) * n_split ≤ total)
               rows;
  inv_n_dist : split_n_dist st = dist_count m n orders (range_start_idx st) idx;
  inv_share : dist_count m n orders (range_start_idx st) idx * n_split ≤ total;
  inv_budget : Z.of_nat (length rows) * total
               ≤ dist_count m n orders start (range_start_idx st) * n_split
}.

(** ** scrimp.py: the diagonal walker and the parallel round *)

(** A loop whose body can raise. *)
Fixpoint for_each {A S : Type} (body : A → S → option S) (l : list A) (s : S)
    : option S :=
  match l with
  | [] => Some s
  | x :: l => s ← body x s; for_each body l s
  end.

(** [np.dot] of two vectors, summed from left to right; operands of
    different lengths raise. *)
Definition np_dot (a b : list float) : option float :=
  if decide (length a = length b)
  then Some (foldl (λ acc xy, F64.add acc (F64.mul xy.1 xy.2)) F64.zero (zip a b))
  else None.

(** [a[r, i]] and [a[r, i] = x] on a two-dimensional array in JIT-compiled
    code. *)
Definition get2 {A} (a : list (list A)) (r i : Z) : option A :=
  row ← jit_index a r; jit_index row i.

Definition set2 {A} (a : list (list A)) (r i : Z) (x : A) : option (list (list A)) :=
  row ← jit_index a r;
  _ ← jit_index row i;
  Some (<[Z.to_nat r := <[Z.to_nat i := x]> row]> a).

Section Walker.

(** [core._calculate_squared_distance(m, QT, μ_Q, σ_Q, M_T, Σ_T)], defined
    outside these files. *)
Variable _calculate_squared_distance :
  Z → float → float → float → float → float → float.

(** [if guard and D_squared < P[thread_idx, x]: P[thread_idx, x] = D_squared;
    I[thread_idx, x] = j]; the table is read only when [guard] holds. *)
Definition update_best (guard : bool) (thread_idx x : Z) (D_squared : float)
    (j : Z) (PI : list (list float) * list (list Z))
    : option (list (list float) * list (list Z)) :=
  let P := PI.1 in
  let I := PI.2 in
  if guard then
    p ← get2 P thread_idx x;
    if F64.ltb D_squared p then
      P ← set2 P thread_idx x D_squared;
      I ← set2 I thread_idx x j;
      Some (P, I)
    else Some (P, I)
  else Some (P, I).

(** The dot product and the squared distance at row [i] of the diagonal
    [k]: seeded at [i = 0], updated from the previous [QT] afterwards. *)
Definition diagonal_distance (T : list float) (m : Z) (μ σ : list float)
    (k i : Z) (QT : float) : option (float * float) :=
  QT ← (if i =? 0 then
          np_dot (py_slice T i (i + m)) (py_slice T (i + k - 1) (i + k - 1 + m))
        else
          a ← jit_index T (i - 1);
          b ← jit_index T (i + k - 2);
          c ← jit_index T (i + m - 1);
          d ← jit_index T (i + k + m - 2);
          Some (F64.add (F64.sub QT (F64.mul a b)) (F64.mul c d)));
  μ_i ← jit_index μ i;
  σ_i ← jit_index σ i;
  μ_j ← jit_index μ (i + k - 1);
  σ_j ← jit_index σ (i + k - 1);
  Some (QT, _calculate_squared_distance m QT μ_i σ_i μ_j σ_j).

(** One turn of the inner loop of [_compute_diagonal], at row [i] of the
    diagonal [k]; the state is [QT] and the two tables. *)
Definition diagonal_step (T : list float) (m : Z) (μ σ : list float)
    (excl_zone thread_idx k i : Z)
    (st : float * (list (list float) * list (list Z)))
    : option (float * (list (list float) * list (list Z))) :=
  QD ← diagonal_distance T m μ σ k i st.1;
  let D_squared := QD.2 in
  PI ← update_best (i <? i + k - 1 - excl_zone) thread_idx i D_squared
         (i + k - 1) st.2;
  PI ← update_best (i <? i + k - 1 - excl_zone) thread_idx (i + k - 1)
         D_squared i PI;
  Some (QD.1, PI).

(** The body of the outer loop: the diagonal at [orders[order_idx]]. *)
Definition diagonal_walk (T : list float) (m : Z) (μ σ : list float)
    (orders : list Z) (excl_zone thread_idx order_idx : Z)
    (st : float * (list (list float) * list (list Z)))
    : option (float * (list (list float) * list (list Z))) :=
  let n := Z.of_nat (length T) in
  k ← jit_index orders order_idx;
  for_each (diagonal_step T m μ σ excl_zone thread_idx k)
    (py_range 0 (n - m + 2 - k)) st.

(** [QT] is assigned at the first row of every diagonal before it is read;
    its value on entry is of no consequence. *)
Definition _compute_diagonal (T : list float) (m : Z) (μ σ : list float)
    (orders : list Z) (orders_start_idx orders_stop_idx excl_zone thread_idx : Z)
    (P : list (list float)) (I : list (list Z))
    : option (list (list float) * list (list Z)) :=
  st ← for_each (diagonal_walk T m μ σ orders excl_zone thread_idx)
         (py_range orders_start_idx orders_stop_idx) (F64.nan, (P, I));
  Some st.2.

(** The reduction of [_scrimp]: row [thread_idx] into row 0, at column [i]. *)
Definition reduce_step (thread_idx i : Z)
    (PI : list (list float) * list (list Z))
    : option (list (list float) * list (list Z)) :=
  let P := PI.1 in
  let I := PI.2 in
  p0 ← get2 P 0 i;
  pt ← get2 P thread_idx i;
  if F64.gtb p0 pt then
    P ← set2 P 0 i pt;
    it ← get2 I thread_idx i;
    I ← set2 I 0 i it;
    Some (P, I)
  else Some (P, I).

(** [_scrimp]; [n_threads] is [config.NUMBA_NUM_THREADS], and the parallel
    loops are run in index order (each worker writes its own row). *)
Definition _scrimp (n_threads : Z) (T : list float) (m : Z) (μ σ : list float)
    (orders : list Z) (orders_ranges : list (Z * Z)) (excl_zone : Z)
    : option (list float * list Z) :=
  let n := Z.of_nat (length T) in
  let l := n - m + 1 in
  if (l <? 0) || (n_threads <? 0) then None else
  let P := replicate (Z.to_nat n_threads) (replicate (Z.to_nat l) F64.inf) in
  let I := replicate (Z.to_nat n_threads) (replicate (Z.to_nat l) (-1)) in
  PI ← for_each (λ thread_idx PI,
          r ← jit_index orders_ranges thread_idx;
          _compute_diagonal T m μ σ orders r.1 r.2 excl_zone thread_idx PI.1 PI.2)
        (py_range 0 n_threads) (P, I);
  PI ← for_each (λ thread_idx (PI : list (list float) * list (list Z)),
          for_each (reduce_step thread_idx) (py_range 0 l) PI)
        (py_range 1 n_threads) PI;
  P0 ← jit_index (PI.1 : list (list float)) 0;
  I0 ← jit_index (PI.2 : list (list Z)) 0;
  Some (F64.sqrt <$> (P0 : list float), I0).

End Walker.

(** *** The tables seen one row at a time *)

(** Both tables have [nt] rows of [l] columns. *)
Definition shape (nt l : nat) (PI : list (list float) * list (list Z)) : Prop :=
  length PI.1 = nt ∧ length PI.2 = nt ∧
  Forall (λ r, length r = l) PI.1 ∧ Forall (λ r, length r = l) PI.2.

Definition get_row (t : nat) (PI : list (list float) * list (list Z))
    : list float * list Z :=
  (default [] (PI.1 !! t), default [] (PI.2 !! t)).

Definition set_row (t : nat) (r : list float * list Z)
    (PI : list (list float) * list (list Z))
    : list (list float) * list (list Z) :=
  (<[t := r.1]> PI.1, <[t := r.2]> PI.2).

(** A candidate match [j] at distance [D_squared] offered to position [x]
    of a row: taken on strict improvement. *)
Definition best_row (x : Z) (D_squared : float) (j : Z)
    (r : list float * list Z) : list float * list Z :=
  if (0 <=? x) && F64.ltb D_squared (default F64.nan (r.1 !! Z.to_nat x))
  then (<[Z.to_nat x := D_squared]> r.1, <[Z.to_nat x := j]> r.2)
  else r.

Definition in_row (l : nat) (x : Z) : bool := (0 <=? x) && (x <? Z.of_nat l).

(** A candidate write [(x, D_squared, j)]: match [j] at squared distance
    [D_squared] offered to position [x]. *)
Definition cand : Type := Z * float * Z.

Definition apply_cands (cs : list cand) (r : list float * list Z)
    : list float * list Z :=
  foldl (λ r c, best_row c.1.1 c.1.2 c.2 r) r cs.

(** An entry [(distance, index)] offered to another: it replaces it on
    strict improvement. *)
Definition offer (c e : float * Z) : float * Z :=
  if F64.ltb c.1 e.1 then c else e.

(** The entry of a row at column [x]. *)
Definition entry_at (r : list float * list Z) (x : nat) : option (float * Z) :=
  p ← r.1 !! x; j ← r.2 !! x; Some (p, j).

(** What the candidates [cs] make of the entry [e] at column [y]. *)
Definition offer_all (cs : list cand) (y : Z) (e : float * Z) : float * Z :=
  foldl (λ e c, if decide (c.1.1 = y) then offer (c.1.2, c.2) e else e) e cs.

Section Candidates.
Variable _calculate_squared_distance :
  Z → float → float → float → float → float → float.

(** The candidates offered along rows [rows] of the diagonal [k], in the
    order of the walk, for tables of [l] columns; [None] when the walk
    would leave an array. *)
Fixpoint diagonal_cands (T : list float) (m : Z) (μ σ : list float)
    (excl_zone k : Z) (l : nat) (rows : list Z) (QT : float)
    : option (float * list cand) :=
  match rows with
  | [] => Some (QT, [])
  | i :: rows =>
      QD ← diagonal_distance _calculate_squared_distance T m μ σ k i QT;
      cs ← (if i <? i + k - 1 - excl_zone then
              if in_row l i && in_row l (i + k - 1)
              then Some [(i, QD.2, i + k - 1); (i + k - 1, QD.2, i)]
              else None
            else Some []);
      rest ← diagonal_cands T m μ σ excl_zone k l rows QD.1;
      Some (rest.1, cs ++ rest.2)
  end.

Fixpoint range_cands (T : list float) (m : Z) (μ σ : list float)
    (orders : list Z) (excl_zone : Z) (l : nat) (idxs : list Z) (QT : float)
    : option (float * list cand) :=
  match idxs with
  | [] => Some (QT, [])
  | order_idx :: idxs =>
      k ← jit_index orders order_idx;
      r1 ← diagonal_cands T m μ σ excl_zone k l
              (py_range 0 (Z.of_nat (length T) - m + 2 - k)) QT;
      r2 ← range_cands T m μ σ orders excl_zone l idxs r1.1;
      Some (r2.1, r1.2 ++ r2.2)
  end.

Definition cands_of (T : list float) (m : Z) (μ σ : list float)
    (orders : list Z) (excl_zone : Z) (l : nat) (idxs : list Z)
    : option (list cand) :=
  snd <$> range_cands T m μ σ orders excl_zone l idxs F64.nan.

End Candidates.

(** Row [S] offered column by column, as the reduction of [_scrimp] does. *)
Definition row_cands (S : list float * list Z) (l : Z) : list cand :=
  (λ i, (i, default F64.nan (S.1 !! Z.to_nat i), default 0 (S.2 !! Z.to_nat i)))
    <$> py_range 0 l.

Definition init_row (l : nat) : list float * list Z :=
  (replicate l F64.inf, replicate l (-1)).

Section Threads.
Variable _calculate_squared_distance :
  Z → float → float → float → float → float → float.

(** The candidates of worker [t], walking its range of [orders_ranges]. *)
Definition thread_cands (T : list float) (m : Z) (μ σ : list float)
    (orders : list Z) (orders_ranges : list (Z * Z)) (excl_zone : Z) (l : nat)
    (t : nat) : option (list cand) :=
  r ← orders_ranges !! t;
  cands_of _calculate_squared_distance T m μ σ orders excl_zone l
    (py_range r.1 r.2).

(** The candidates of workers [0 .. j-1], in worker order. *)
Fixpoint all_cands (T : list float) (m : Z) (μ σ : list float)
    (orders : list Z) (orders_ranges : list (Z * Z)) (excl_zone : Z) (l : nat)
    (j : nat) : option (list (list cand)) :=
  match j with
  | O => Some []
  | S j =>
      csl ← all_cands T m μ σ orders orders_ranges excl_zone l j;
      cs ← thread_cands T m μ σ orders orders_ranges excl_zone l j;
      Some (csl ++ [cs])
  end.

End Threads.

(** The order indices visited by the workers, in worker order. *)
Definition visited (orders_ranges : list (Z * Z)) : list Z :=
  concat ((λ r, py_range r.1 r.2) <$> orders_ranges).

(** ** scrimp.py: PreSCRIMP *)

(** [a[i] = x] in Python and NumPy. *)
Definition py_set {A} (a : list A) (i : Z) (x : A) : option (list A) :=
  let len := Z.of_nat (length a) in
  if (0 <=? i) && (i <? len) then Some (<[Z.to_nat i := x]> a)
  else if (- len <=? i) && (i <? 0) then Some (<[Z.to_nat (len + i) := x]> a)
  else None.

(** [int(np.ceil(m / 4))] *)
Definition excl_zone_of (m : Z) : Z := (m + 3) / 4.

(** [np.argmin]: the first index of the least value, or of the first NaN;
    an empty array raises. *)
Fixpoint argmin_from (best_idx : Z) (best : float) (i : Z) (v : list float) : Z :=
  match v with
  | [] => best_idx
  | x :: v =>
      if F64.isnan best then best_idx
      else if F64.isnan x || F64.ltb x best then argmin_from i x (i + 1) v
      else argmin_from best_idx best (i + 1) v
  end.

Definition np_argmin (v : list float) : option Z :=
  match v with
  | [] => None
  | x :: v => Some (argmin_from 0 x 1 v)
  end.

(** [D[zone_start : zone_stop1] = np.inf], for bounds that are not
    negative. *)
Definition mask_zone (D : list float) (zone_start zone_stop1 : Z) : list float :=
  imap (λ j x, if (zone_start <=? Z.of_nat j) && (Z.of_nat j <? zone_stop1)
               then F64.inf else x) D.

Definition two : float := F64.of_Z 2.

Section PreScrimp.

Variable _calculate_squared_distance :
  Z → float → float → float → float → float → float.

(** [core.mass(Q, T, μ, σ)], defined outside these files: the distances
    from [Q] to every window of [T]. *)
Variable mass : list float → list float → list float → list float → list float.

(** [if D_squared < P[x]: P[x] = D_squared; I[x] = j] *)
Definition improve (x : Z) (D_squared : float) (j : Z)
    (PI : list float * list Z) : option (list float * list Z) :=
  p ← py_index PI.1 x;
  if F64.ltb D_squared p then
    P ← py_set PI.1 x D_squared;
    I ← py_set PI.2 x j;
    Some (P, I)
  else Some PI.

(** The seed of the extension, rebuilt from the squared distance:
    [(m - P[i] / 2.0) * (σ[i] * σ[j]) + (m * μ[i] * μ[j])]. *)
Definition seed_QT (m : Z) (P_i σ_i σ_j μ_i μ_j : float) : float :=
  F64.add
    (F64.mul (F64.sub (F64.of_Z m) (F64.div P_i two)) (F64.mul σ_i σ_j))
    (F64.mul (F64.mul (F64.of_Z m) μ_i) μ_j).

(** One step [k] of the forward extension from the pair [(i, j)]. *)
Definition forward_step (T : list float) (m : Z) (μ σ : list float) (i j k : Z)
    (st : float * (list float * list Z)) : option (float * (list float * list Z)) :=
  a ← py_index T (i + k - 1);
  b ← py_index T (j + k - 1);
  c ← py_index T (i + k + m - 1);
  d ← py_index T (j + k + m - 1);
  let QT := F64.add (F64.sub st.1 (F64.mul a b)) (F64.mul c d) in
  μ_i ← py_index μ (i + k);
  σ_i ← py_index σ (i + k);
  μ_j ← py_index μ (j + k);
  σ_j ← py_index σ (j + k);
  let D_squared := _calculate_squared_distance m QT μ_i σ_i μ_j σ_j in
  PI ← improve (i + k) D_squared (j + k) st.2;
  PI ← improve (j + k) D_squared (i + k) PI;
  Some (QT, PI).

(** One step [k] of the backward extension. *)
Definition backward_step (T : list float) (m : Z) (μ σ : list float) (i j k : Z)
    (st : float * (list float * list Z)) : option (float * (list float * list Z)) :=
  a ← py_index T (i - k + m);
  b ← py_index T (j - k + m);
  c ← py_index T (i - k);
  d ← py_index T (j - k);
  let QT := F64.add (F64.sub st.1 (F64.mul a b)) (F64.mul c d) in
  μ_i ← py_index μ (i - k);
  σ_i ← py_index σ (i - k);
  μ_j ← py_index μ (j - k);
  σ_j ← py_index σ (j - k);
  let D_squared := _calculate_squared_distance m QT μ_i σ_i μ_j σ_j in
  PI ← improve (i - k) D_squared (j - k) st.2;
  PI ← improve (j - k) D_squared (i - k) PI;
  Some (QT, PI).

(** The two extension loops from the pair [(i, j)], [j = I[i]]. *)
Definition extend (T : list float) (m : Z) (μ σ : list float) (s l i j : Z)
    (PI : list float * list Z) : option (list float * list Z) :=
  P_i ← py_index PI.1 i;
  σ_i ← py_index σ i;
  σ_j ← py_index σ j;
  μ_i ← py_index μ i;
  μ_j ← py_index μ j;
  let QT := seed_QT m P_i σ_i σ_j μ_i μ_j in
  let QT_prime := QT in
  st ← for_each (forward_step T m μ σ i j)
         (py_range 1 (Z.min s (l - Z.max i j))) (QT, PI);
  let QT := QT_prime in
  st ← for_each (backward_step T m μ σ i j)
         (py_range 1 (Z.min (Z.min s (i + 1)) (j + 1))) (QT, st.2);
  Some st.2.

(** The full-series scan of the sampled row [i]: its own best match, then
    every column improved from the same distances. *)
Definition scan (T : list float) (m : Z) (μ σ : list float) (excl_zone l i : Z)
    (PI : list float * list Z) : option (list float * list Z) :=
  let Q := py_slice T i (i + m) in
  let D_squared := (λ d, F64.mul d d) <$> mass Q T μ σ in
  let zone_start := Z.max 0 (i - excl_zone) in
  let zone_stop := Z.min l (i + excl_zone) in
  let D_squared := mask_zone D_squared zone_start (zone_stop + 1) in
  a ← np_argmin D_squared;
  I ← py_set PI.2 i a;
  I_i ← py_index I i;
  d ← py_index D_squared I_i;
  P ← py_set PI.1 i d;
  P_i ← py_index P i;
  I ← (if F64.eqb P_i F64.inf then py_set I i (-1) else Some I);
  for_each (λ j PI, d ← py_index D_squared j; improve j d i PI)
    (py_range 0 l) (P, I).

(** The body of the loop of [_prescrimp] for the sampled row [i]. *)
Definition prescrimp_sample (T : list float) (m : Z) (μ σ : list float)
    (s excl_zone l i : Z) (PI : list float * list Z)
    : option (list float * list Z) :=
  PI ← scan T m μ σ excl_zone l i PI;
  j ← py_index PI.2 i;
  extend T m μ σ s l i j PI.

(** [_prescrimp]; [samples] is the permutation of [range(0, l, s)] drawn by
    [np.random.permutation]. *)
Definition _prescrimp (samples : list Z) (T : list float) (m : Z)
    (μ σ : list float) (s : option Z) : option (list float * list Z) :=
  let n := Z.of_nat (length T) in
  let l := n - m + 1 in
  if l <? 0 then None else
  let excl_zone := excl_zone_of m in
  let s := default excl_zone s in
  if s =? 0 then None else
  PI ← for_each (prescrimp_sample T m μ σ s excl_zone l) samples
         (replicate (Z.to_nat l) F64.inf, replicate (Z.to_nat l) (-1));
  Some (F64.sqrt <$> (PI.1 : list float), PI.2).

End PreScrimp.

(** ** scrimp.py: the generator *)

(** References to array objects, and the store that holds their contents;
    [out] is an array of [(distance, index)] rows. *)
Abbreviation loc := positive.
Abbreviation store := (gmap loc (list (float * Z))).

(** [for i in range(P.shape[0]): if out[i, 0] > P[i]: out[i, 0] = P[i];
    out[i, 1] = I[i]] *)
Definition merge_step (P : list float) (I : list Z) (i : Z)
    (out : list (float * Z)) : option (list (float * Z)) :=
  o ← py_index out i;
  p ← py_index P i;
  if F64.gtb o.1 p then
    out ← py_set out i (p, o.2);
    x ← py_index I i;
    py_set out i (p, x)
  else Some out.

Definition merge_out (count : Z) (P : list float) (I : list Z)
    (out : list (float * Z)) : option (list (float * Z)) :=
  for_each (merge_step P I) (py_range 0 count) out.

(** The state of a generator made by [scrimp]: its local variables; [gen_out]
    is the reference held in [out], [gen_round] the next value of [round]. *)
Record scrimp_gen := ScrimpGen {
  gen_T : list float;
  gen_m : Z;
  gen_μ : list float;
  gen_σ : list float;
  gen_excl_zone : Z;
  gen_orders : list Z;
  gen_n_threads : Z;
  gen_percentage : float;
  gen_rounds : Z;
  gen_round : Z;
  gen_start : Z;
  gen_out : loc
}.

Inductive next_result :=
  | Yield (ref : loc) (g : scrimp_gen) (h : store)
  | StopIteration
  | Raise.

Section Scrimp.

Variable _calculate_squared_distance :
  Z → float → float → float → float → float → float.
Variable mass : list float → list float → list float → list float → list float.

(** [core.compute_mean_std(T, m)], defined outside these files. *)
Variable compute_mean_std : list float → Z → list float * list float.

(** The body of [scrimp] up to its loop. The random draws are given:
    [orders] is the permutation of [range(excl_zone + 1, n - m + 2)],
    [samples] the one of PreSCRIMP; [n_threads] is
    [config.NUMBA_NUM_THREADS]. The array [out] is allocated in the store. *)
Definition scrimp (n_threads : Z) (orders samples : list Z)
    (T : list float) (m : Z) (percentage : float) (prescrimp : bool)
    (s : option Z) (h : store) : option (scrimp_gen * store) :=
  let T := (λ x, if F64.isinf x then F64.nan else x) <$> T in
  if m <=? 2 then None else
  let n := Z.of_nat (length T) in
  let l := n - m + 1 in
  if l <? 0 then None else
  let out := replicate (Z.to_nat l) (F64.inf, -1) in
  let μσ := compute_mean_std T m in
  let T := (λ x, if F64.isnan x then F64.zero else x) <$> T in
  let excl_zone := excl_zone_of m in
  let s := default excl_zone s in
  out ← (if prescrimp then
           PI ← _prescrimp _calculate_squared_distance mass samples T m
                  μσ.1 μσ.2 (Some s);
           merge_out (Z.of_nat (length PI.1)) PI.1 PI.2 out
         else Some out);
  let percentage := py_min percentage F64.one in
  let percentage := py_max percentage F64.zero in
  if F64.eqb percentage F64.zero then None else
  generator_rounds ← F64.ceil (F64.div F64.one percentage);
  let ref := fresh (dom h) in
  Some (ScrimpGen T m μσ.1 μσ.2 excl_zone orders n_threads percentage
          generator_rounds 0 0 ref,
        <[ref := out]> h).

(** One turn of the loop of [scrimp], up to its [yield]: the array behind
    [out] is updated in place. *)
Definition scrimp_round (g : scrimp_gen) (h : store) : option (scrimp_gen * store) :=
  let n := Z.of_nat (length (gen_T g)) in
  orders_ranges ← _get_orders_ranges (gen_n_threads g) (gen_m g) n (gen_orders g)
                    (gen_start g) (gen_percentage g);
  PI ← _scrimp _calculate_squared_distance (gen_n_threads g) (gen_T g) (gen_m g)
         (gen_μ g) (gen_σ g) (gen_orders g) orders_ranges (gen_excl_zone g);
  start ← (match orders_ranges with
           | [] => None
           | r :: rs => Some (foldl Z.max r.2 (snd <$> rs))
           end);
  out ← h !! gen_out g;
  out ← merge_out (Z.of_nat (length out)) PI.1 PI.2 out;
  Some (ScrimpGen (gen_T g) (gen_m g) (gen_μ g) (gen_σ g) (gen_excl_zone g)
          (gen_orders g) (gen_n_threads g) (gen_percentage g) (gen_rounds g)
          (gen_round g + 1) start (gen_out g),
        <[gen_out g := out]> h).

(** [next(generator)] *)
Definition scrimp_next (g : scrimp_gen) (h : store) : next_result :=
  if gen_rounds g <=? gen_round g then StopIteration
  else match scrimp_round g h with
       | Some (g, h) => Yield (gen_out g) g h
       | None => Raise
       end.

(** The items obtained by at most [fuel] calls of [next], each with the
    store as it is when the item is yielded. *)
Fixpoint yields (fuel : nat) (g : scrimp_gen) (h : store) : list (loc * store) :=
  match fuel with
  | O => []
  | S fuel =>
      match scrimp_next g h with
      | Yield ref g h => (ref, h) :: yields fuel g h
      | StopIteration | Raise => []
      end
  end.

End Scrimp.

(** The distance column of the array behind [ref]. *)
Definition profile (h : store) (ref : loc) : list float :=
  fst <$> default [] (h !! ref).

Definition indices (h : store) (ref : loc) : list Z :=
  snd <$> default [] (h !! ref).

(** ** Collaborators for the examples *)

Module Ref.

Definition one : float := F64.of_Z 1.

(** Modelled from the spec: [core._calculate_squared_distance] is not in
    these files. The normalized squared distance from a dot product,
    [2m (1 - (QT - m μ_Q M_T) / (m σ_Q Σ_T))] in absolute value; [+inf]
    when a mean is infinite (a window with a missing value) and when the
    denominator is degenerate (a constant window, [σ = 0]). *)
Definition _calculate_squared_distance (m : Z) (QT μ_Q σ_Q M_T Σ_T : float)
    : float :=
  if F64.isinf M_T || F64.isinf μ_Q then F64.inf
  else if F64.eqb σ_Q F64.zero || F64.eqb Σ_T F64.zero then F64.inf
  else
    let fm := F64.of_Z m in
    F64.abs
      (F64.mul (F64.mul two fm)
         (F64.sub one
            (F64.div (F64.sub QT (F64.mul (F64.mul fm μ_Q) M_T))
               (F64.mul (F64.mul fm σ_Q) Σ_T)))).

Definition fsum (v : list float) : float := foldl F64.add F64.zero v.

Definition mean (v : list float) : float :=
  F64.div (fsum v) (F64.of_Z (Z.of_nat (length v))).

Definition std (v : list float) : float :=
  let μ := mean v in
  F64.sqrt (F64.div (fsum ((λ x, F64.mul (F64.sub x μ) (F64.sub x μ)) <$> v))
              (F64.of_Z (Z.of_nat (length v)))).

(** Modelled from the spec: [core.compute_mean_std] is not in these files.
    The mean and the standard deviation of every window of length [m]; a
    window with a missing value has an infinite mean. *)
Definition compute_mean_std (T : list float) (m : Z) : list float * list float :=
  let windows := (λ i, py_slice T i (i + m))
                   <$> py_range 0 (Z.of_nat (length T) - m + 1) in
  ((λ w, if forallb F64.isfinite w then mean w else F64.inf) <$> windows,
   (λ w, if forallb F64.isfinite w then std w else F64.zero) <$> windows).

(** Modelled from the spec: [core.mass] is not in these files. The
    distance from [Q] to every window of [T]. *)
Definition mass (Q T μ σ : list float) : list float :=
  let m := Z.of_nat (length Q) in
  (λ j, F64.sqrt
          (_calculate_squared_distance m
             (default F64.nan (np_dot Q (py_slice T j (j + m))))
             (mean Q) (std Q)
             (default F64.nan (μ !! Z.to_nat j))
             (default F64.nan (σ !! Z.to_nat j))))
    <$> py_range 0 (Z.of_nat (length T) - m + 1).

End Ref.

(** [out'] holds, position by position, the entry of [out] or a strictly
    smaller distance. *)
Definition improves (out out' : list (float * Z)) : Prop :=
  length out' = length out ∧
  ∀ y a, out !! y = Some a →
         ∃ b, out' !! y = Some b ∧ (b = a ∨ F64.ltb b.1 a.1 = true).

(** No distance of [out] is NaN. *)
Definition clean (out : list (float * Z)) : Prop :=
  Forall (λ e, F64.isnan e.1 = false) out.

(** The exclusion test of the diagonal walker, [row < column - excl_zone],
    for a pair taken on either side of the main diagonal. *)
Definition outside_zone (excl_zone x j : Z) : bool :=
  (x <? j - excl_zone) || (j <? x - excl_zone).


(** ** Inputs for the examples *)

Module Examples.

Definition series (v : list Z) : list float := F64.of_Z <$> v.

(** A series with an exact repetition: windows 0, 3 and 6 are equal. *)
Definition T_repeat : list float := series [1; 2; 3; 1; 2; 3; 1; 2; 3].
Definition μ_repeat : list float := (Ref.compute_mean_std T_repeat 3).1.
Definition σ_repeat : list float := (Ref.compute_mean_std T_repeat 3).2.

Definition T_mixed : list float :=
  series [0; 1; 3; 2; 9; 1; 14; 15; 1; 2; 2; 10; 7].

(** [scrimp(T_mixed, 3, percentage=0.5)] with two workers. *)
Definition run_mixed : option (scrimp_gen * store) :=
  scrimp Ref._calculate_squared_distance Ref.mass Ref.compute_mean_std 2
    [4; 3; 10; 6; 2; 9; 5; 8; 7; 11] [] T_mixed 3 F64.d0_5 false None ∅.

Definition no_gen : scrimp_gen :=
  ScrimpGen [] 0 [] [] 0 [] 0 F64.zero 0 0 0 1%positive.

Definition g_mixed : scrimp_gen := (default (no_gen, ∅) run_mixed).1.
Definition h_mixed : store := (default (no_gen, ∅) run_mixed).2.

(** Its first two items. *)
Definition items_mixed : list (loc * store) :=
  yields Ref._calculate_squared_distance 2 g_mixed h_mixed.
Definition item0 : loc * store := default (1%positive, ∅) (items_mixed !! 0%nat).
Definition item1 : loc * store := default (1%positive, ∅) (items_mixed !! 1%nat).



(** A series whose last two windows of length 3 are constant: their rows
    have no match. *)
Definition T_plateau : list float :=
  series [0; 1; 3; 2; 9; 1; 14; 15; 1; 2; 2; 2; 2].

(** [scrimp(T_plateau, 3, percentage=0.5, prescrimp=True, s=3)] with two
    workers; the sampled rows are 6, 0, 9, 3. *)
Definition run_plateau : option (scrimp_gen * store) :=
  scrimp Ref._calculate_squared_distance Ref.mass Ref.compute_mean_std 2
    [4; 3; 10; 6; 2; 9; 5; 8; 7; 11] [6; 0; 9; 3] T_plateau 3 F64.d0_5 true
    (Some 3) ∅.
Definition items_plateau : list (loc * store) :=
  yields Ref._calculate_squared_distance 2
    (default (no_gen, ∅) run_plateau).1 (default (no_gen, ∅) run_plateau).2.

End Examples.

(** The self-match exclusion: every index other than [-1] lies outside the
    exclusion zone of its position. *)
Definition excl_ok (excl_zone : Z) (I : list Z) : Prop :=
  ∀ x j, I !! x = Some j → j ≠ -1 →
         outside_zone excl_zone (Z.of_nat x) j = true.
(** * Properties *)

(** *** The order of [<] on values that are not NaN *)

Section FloatOrder.

Ltac float_cases :=
  repeat match goal with
         | x : float |- _ => destruct x as [[]|[]| |[] ? ?]
         end.

Ltac cmp_cases :=
  repeat match goal with
         | |- context [Z.compare ?a ?b] => destruct (Z.compare_spec a b)
         | H : context [Z.compare ?a ?b] |- _ => destruct (Z.compare_spec a b)
         | |- context [Pos.compare_cont Eq ?a ?b] =>
             change (Pos.compare_cont Eq a b) with (Pos.compare a b);
             destruct (Pos.compare_spec a b)
         | H : context [Pos.compare_cont Eq ?a ?b] |- _ =>
             change (Pos.compare_cont Eq a b) with (Pos.compare a b) in H;
             destruct (Pos.compare_spec a b)
         end.

Ltac order_solve :=
  unfold F64.ltb, F64.leb, F64.gtb, F64.isnan, SFltb, SFleb, SFcompare in *;
  float_cases; simpl in *; try done; try (left; done); try (right; done);
  cmp_cases; simpl in *; try done; try lia;
  try (left; done); try (right; done).

Lemma ltb_leb (a b : float) : F64.ltb a b = true → F64.leb a b = true.
Proof.
  unfold F64.ltb, F64.leb, SFltb, SFleb.
  destruct (SFcompare a b) as [[]|]; done.
Qed.

Lemma ltb_notnan_l (a b : float) : F64.ltb a b = true → F64.isnan a = false.
Proof. unfold F64.ltb, SFltb, SFcompare. destruct a, b; done. Qed.

Lemma ltb_notnan_r (a b : float) : F64.ltb a b = true → F64.isnan b = false.
Proof. unfold F64.ltb, SFltb, SFcompare. destruct a, b; done. Qed.

Lemma leb_refl (a : float) : F64.isnan a = false → F64.leb a a = true.
Proof.
  unfold F64.leb, SFleb, SFcompare. destruct a as [[]|[]| |[] m e]; try done;
    intros _; rewrite Z.compare_refl;
    change (Pos.compare_cont Eq m m) with (Pos.compare m m);
    rewrite Pos.compare_refl; done.
Qed.

Lemma ltb_irrefl (a : float) : F64.ltb a a = false.
Proof.
  unfold F64.ltb, SFltb, SFcompare. destruct a as [[]|[]| |[] m e]; try done;
    rewrite Z.compare_refl;
    change (Pos.compare_cont Eq m m) with (Pos.compare m m);
    rewrite Pos.compare_refl; done.
Qed.

Lemma ltb_trans (a b c : float) :
  F64.ltb a b = true → F64.ltb b c = true → F64.ltb a c = true.
Proof. intros Hab Hbc. order_solve. Qed.

Lemma leb_trans (a b c : float) :
  F64.leb a b = true → F64.leb b c = true → F64.leb a c = true.
Proof. intros Hab Hbc. order_solve. Qed.

(** With [b] not NaN, [a < c] passes on one side of [b]. *)
Lemma ltb_cotrans (a b c : float) :
  F64.isnan b = false → F64.ltb a c = true →
  F64.ltb a b = true ∨ F64.ltb b c = true.
Proof. intros Hb Hac. order_solve. Qed.

Lemma inf_notnan : F64.isnan F64.inf = false.
Proof. done. Qed.

Lemma ltb_inf_r (a : float) : F64.ltb F64.inf a = false.
Proof. unfold F64.ltb, SFltb, SFcompare. destruct a as [[]|[]| |[] m e]; done. Qed.

Lemma ltb_nan_l (a : float) : F64.ltb F64.nan a = false.
Proof. done. Qed.

Lemma leb_ltb_false (a b c : float) :
  F64.leb a b = true → F64.leb b c = true → F64.ltb c a = false.
Proof. intros Hab Hbc. order_solve. Qed.

Lemma eqb_inf (a : float) : F64.eqb a F64.inf = true → a = F64.inf.
Proof.
  unfold F64.eqb, SFeqb, SFcompare, F64.inf. destruct a as [[]|[]| |[] m e]; done.
Qed.

Lemma ltb_false_leb (a b : float) :
  F64.isnan a = false → F64.isnan b = false → F64.ltb a b = false →
  F64.leb b a = true.
Proof. intros Ha Hb Hab. order_solve. Qed.

Lemma leb_notnan_l (a b : float) : F64.leb a b = true → F64.isnan a = false.
Proof. unfold F64.leb, SFleb, SFcompare. destruct a, b; done. Qed.

Lemma clamp01_range (p : float) :
  F64.isnan p = false →
  F64.leb F64.zero (MPdist.clamp01 p) = true ∧
  F64.leb (MPdist.clamp01 p) F64.one = true.
Proof.
  intros Hp. unfold MPdist.clamp01, py_min.
  destruct (F64.ltb F64.one p) eqn:H1; [done|].
  apply ltb_false_leb in H1; [|done|done].
  unfold py_max. destruct (F64.gtb F64.zero p) eqn:H0; [done|].
  split; [|done]. by apply ltb_false_leb.
Qed.

Lemma clamp01_id (p : float) :
  F64.leb F64.zero p = true → F64.leb p F64.one = true → MPdist.clamp01 p = p.
Proof.
  intros H0 H1. unfold MPdist.clamp01, py_min, py_max.
  rewrite (leb_ltb_false p F64.one F64.one) by done.
  change (F64.gtb F64.zero p) with (F64.ltb p F64.zero).
  rewrite (leb_ltb_false F64.zero p p); [done|done|].
  apply leb_refl. by eapply leb_notnan_l.
Qed.

End FloatOrder.

(** *** Rounding of binary64 quotients of integers *)

Section Binary64.

Lemma digits2_pos_bounds (p : positive) :
  2 ^ (Z.pos (digits2_pos p) - 1) ≤ Z.pos p < 2 ^ Z.pos (digits2_pos p).
Proof.
  induction p as [p IH|p IH|]; cbn [digits2_pos];
    [| |change (1 ≤ 1 < 2); lia].
  - rewrite Pos2Z.inj_succ, (Pos2Z.inj_xI p).
    replace (Z.succ (Z.pos (digits2_pos p)) - 1)
      with (Z.succ (Z.pos (digits2_pos p) - 1)) by lia.
    rewrite !Z.pow_succ_r by lia. lia.
  - rewrite Pos2Z.inj_succ, (Pos2Z.inj_xO p).
    replace (Z.succ (Z.pos (digits2_pos p)) - 1)
      with (Z.succ (Z.pos (digits2_pos p) - 1)) by lia.
    rewrite !Z.pow_succ_r by lia. lia.
Qed.

Lemma digits2_pos_unique (p : positive) (d : Z) :
  2 ^ (d - 1) ≤ Z.pos p < 2 ^ d → Z.pos (digits2_pos p) = d.
Proof.
  intros [Hlo Hhi]. pose proof (digits2_pos_bounds p) as [Blo Bhi].
  assert (0 < d).
  { destruct (Z.lt_ge_cases 0 d); [done|].
    assert (2 ^ d ≤ 2 ^ 0) by (apply Z.pow_le_mono_r; lia). simpl in *. lia. }
  assert (d - 1 < Z.pos (digits2_pos p))
    by (apply (Z.pow_lt_mono_r_iff 2); lia).
  assert (Z.pos (digits2_pos p) - 1 < d)
    by (apply (Z.pow_lt_mono_r_iff 2); lia).
  lia.
Qed.

Lemma shr_1_m (mrs : shr_record) :
  0 ≤ shr_m mrs → shr_m (shr_1 mrs) = shr_m mrs / 2.
Proof.
  destruct mrs as [m r s]. cbn [shr_m shr_1]. intros Hm.
  destruct m as [|[p|p|]|p]; cbn [shr_m]; [done| | |done|lia].
  - rewrite (Pos2Z.inj_xI p). apply (Z.div_unique _ _ _ 1); lia.
  - rewrite (Pos2Z.inj_xO p). apply (Z.div_unique _ _ _ 0); lia.
Qed.

Lemma iter_shr_1_m (p : positive) :
  ∀ mrs, 0 ≤ shr_m mrs →
    shr_m (SpecFloat.iter_pos shr_1 p mrs) = shr_m mrs / 2 ^ Z.pos p.
Proof.
  induction p as [p IH|p IH|]; intros mrs Hm; cbn [SpecFloat.iter_pos].
  - assert (H1 : 0 ≤ shr_m (shr_1 mrs))
      by (rewrite shr_1_m by done; apply Z.div_pos; lia).
    assert (H2 : 0 ≤ shr_m (SpecFloat.iter_pos shr_1 p (shr_1 mrs)))
      by (rewrite IH by done; apply Z.div_pos; lia).
    rewrite IH, IH, shr_1_m by done.
    rewrite !Z.div_div by lia. f_equal.
    rewrite (Pos2Z.inj_xI p).
    replace (2 * Z.pos p + 1) with (1 + Z.pos p + Z.pos p) by lia.
    rewrite !Z.pow_add_r by lia. simpl (2 ^ 1). lia.
  - assert (H2 : 0 ≤ shr_m (SpecFloat.iter_pos shr_1 p mrs))
      by (rewrite IH by done; apply Z.div_pos; lia).
    rewrite IH, IH by done.
    rewrite !Z.div_div by lia. f_equal.
    rewrite (Pos2Z.inj_xO p).
    replace (2 * Z.pos p) with (Z.pos p + Z.pos p) by lia.
    rewrite !Z.pow_add_r by lia. lia.
  - by rewrite shr_1_m.
Qed.

Lemma shr_record_of_loc_m (m : Z) (l : location) :
  shr_m (shr_record_of_loc m l) = m.
Proof. by destruct l as [|[]]. Qed.

(** Shifting right by [n >= 0] divides the mantissa by [2^n]. *)
Lemma shr_m_e (mrs : shr_record) (e n : Z) :
  0 ≤ shr_m mrs → 0 ≤ n →
  shr_m (shr mrs e n).1 = shr_m mrs / 2 ^ n ∧ (shr mrs e n).2 = e + n.
Proof.
  intros Hm Hn. unfold shr. destruct n as [|p|p]; simpl; try lia.
  - rewrite Z.div_1_r. lia.
  - split; [|done]. by apply iter_shr_1_m.
Qed.

Lemma round_nearest_even_bounds (m : Z) (l : location) :
  round_nearest_even m l = m ∨ round_nearest_even m l = m + 1.
Proof.
  destruct l as [|[]]; simpl; auto. destruct (Z.even m); auto.
Qed.

(** A mantissa of 53 digits at an exponent in range is kept as it is. *)
Lemma binary_round_aux_exact (m : positive) (e : Z) :
  digits2_pos m = 53%positive → -1074 ≤ e ≤ 971 →
  binary_round_aux F64.prec F64.emax false (Z.pos m) e loc_Exact
  = S754_finite false m e.
Proof.
  intros Hd He. unfold binary_round_aux, shr_fexp, fexp, emin.
  cbn [Zdigits2 shr_record_of_loc]. rewrite Hd.
  change (3 - F64.emax - F64.prec) with (-1074).
  change (F64.emax - F64.prec) with 971.
  replace (Z.max (53 + e - F64.prec) (-1074) - e) with 0
    by (unfold F64.prec; lia).
  cbn [shr shr_m loc_of_shr_record round_nearest_even shr_record_of_loc Zdigits2].
  rewrite Hd.
  replace (Z.max (53 + e - F64.prec) (-1074) - e) with 0
    by (unfold F64.prec; lia).
  cbn [shr shr_m]. destruct (Z.leb_spec e 971); [done|lia].
Qed.

Lemma iter_xO (p : positive) (k : positive) :
  Z.pos (Pos.iter xO p k) = Z.pos p * 2 ^ Z.pos k ∧
  Z.pos (digits2_pos (Pos.iter xO p k)) = Z.pos (digits2_pos p) + Z.pos k.
Proof.
  induction k as [|k IH] using Pos.peano_ind.
  - simpl. rewrite Pos2Z.inj_succ. lia.
  - rewrite Pos.iter_succ. cbn [digits2_pos].
    rewrite (Pos2Z.inj_xO (Pos.iter xO p k)), !Pos2Z.inj_succ.
    destruct IH as [-> ->].
    rewrite Z.pow_succ_r by lia. lia.
Qed.

(** An integer below [2^53] is converted exactly, to a mantissa of 53
    digits. *)
Lemma of_Z_exact (x : Z) :
  0 < x < 2 ^ 53 →
  ∃ (m : positive) (d : Z),
    1 ≤ d ≤ 53 ∧ 2 ^ (d - 1) ≤ x < 2 ^ d ∧
    Z.pos m = x * 2 ^ (53 - d) ∧ digits2_pos m = 53%positive ∧
    F64.of_Z x = S754_finite false m (d - 53).
Proof.
  intros Hx. destruct x as [|p|p]; try lia.
  pose proof (digits2_pos_bounds p) as Hb.
  set (d := Z.pos (digits2_pos p)) in *.
  assert (Hd : 1 ≤ d ≤ 53).
  { split; [unfold d; lia|].
    assert (d - 1 < 53) by (apply (Z.pow_lt_mono_r_iff 2); lia). lia. }
  unfold F64.of_Z, binary_normalize, binary_round, shl_align, fexp, emin.
  change (3 - F64.emax - F64.prec) with (-1074). fold d.
  replace (Z.max (d + 0 - F64.prec) (-1074) - 0) with (d - 53)
    by (unfold F64.prec; lia).
  replace (Z.max (d + 0 - F64.prec) (-1074)) with (d - 53)
    by (unfold F64.prec; lia).
  destruct (d - 53) as [|k|k] eqn:Hk; try lia.
  - assert (Hd53 : d = 53) by lia.
    assert (Hdp : digits2_pos p = 53%positive) by (apply Pos2Z.inj; exact Hd53).
    exists p, d. split; [done|]. split; [done|].
    split; [rewrite Hd53; change (2 ^ (53 - 53)) with 1; lia|].
    split; [done|].
    rewrite binary_round_aux_exact by (done || lia). by rewrite Hk.
  - destruct (iter_xO p k) as [Hv Hdig].
    assert (Hkd : Z.pos k = 53 - d) by lia.
    assert (Hdp : digits2_pos (Pos.iter xO p k) = 53%positive).
    { apply Pos2Z.inj. rewrite Hdig. fold d. lia. }
    exists (Pos.iter xO p k), d. split; [done|]. split; [done|].
    split; [by rewrite Hv, Hkd|]. split; [done|].
    rewrite binary_round_aux_exact by (done || lia). by rewrite Hk.
Qed.


Lemma div_eucl_div_mod (a b : Z) : Z.div_eucl a b = (a / b, a mod b).
Proof. unfold Z.div, Z.modulo. by destruct (Z.div_eucl a b). Qed.

(** A mantissa of at least 53 digits whose value lies below 1 is rounded
    to a value that is not above 1. *)
Lemma binary_round_aux_le_one (q e : Z) (loc : location) :
  2 ^ 52 ≤ q → -1074 ≤ e → q < 2 ^ (- e) →
  F64.leb (binary_round_aux F64.prec F64.emax false q e loc) F64.one = true.
Proof.
  intros Hq He Hlt.
  assert (H52 : 0 < 2 ^ 52) by (apply Z.pow_pos_nonneg; lia).
  destruct q as [|p|p]; try lia.
  assert (Hne : 0 ≤ - e).
  { destruct (Z.lt_ge_cases (- e) 0) as [Hneg|]; [|done].
    rewrite Z.pow_neg_r in Hlt by done. lia. }
  pose proof (digits2_pos_bounds p) as [Blo Bhi].
  set (d := Z.pos (digits2_pos p)) in *.
  assert (Hd : 53 ≤ d).
  { assert (52 < d) by (apply (Z.pow_lt_mono_r_iff 2); lia). lia. }
  assert (Hde : d ≤ - e).
  { assert (d - 1 < - e) by (apply (Z.pow_lt_mono_r_iff 2); lia). lia. }
  unfold binary_round_aux, shr_fexp.
  assert (Hn : fexp F64.prec F64.emax (Zdigits2 (Z.pos p) + e) - e = d - 53).
  { unfold fexp, emin, Zdigits2, F64.prec, F64.emax. fold d. lia. }
  rewrite Hn.
  destruct (shr_m_e (shr_record_of_loc (Z.pos p) loc) e (d - 53)) as [Hm1 He1];
    [rewrite shr_record_of_loc_m; lia|lia|].
  rewrite shr_record_of_loc_m in Hm1.
  destruct (shr (shr_record_of_loc (Z.pos p) loc) e (d - 53)) as [mrs1 e1].
  cbn [fst snd] in Hm1, He1.
  set (m1 := shr_m mrs1) in *.
  assert (Hpow : 2 ^ d = 2 ^ (d - 53) * 2 ^ 53 ∧
                 2 ^ (d - 1) = 2 ^ (d - 53) * 2 ^ 52).
  { rewrite <- !Z.pow_add_r by lia. split; f_equal; lia. }
  destruct Hpow as [Hp1 Hp2].
  assert (Hpos : 0 < 2 ^ (d - 53)) by (apply Z.pow_pos_nonneg; lia).
  assert (Hm1b : 2 ^ 52 ≤ m1 < 2 ^ 53).
  { rewrite Hm1. split.
    - apply Z.div_le_lower_bound; lia.
    - apply Z.div_lt_upper_bound; lia. }
  set (m2 := round_nearest_even m1 (loc_of_shr_record mrs1)).
  assert (Hm2 : 2 ^ 52 ≤ m2 ≤ 2 ^ 53).
  { unfold m2.
    destruct (round_nearest_even_bounds m1 (loc_of_shr_record mrs1)) as [-> | ->];
      lia. }
  clearbody m2. destruct m2 as [|p2|p2]; try lia.
  destruct (decide (Z.pos p2 = 2 ^ 53)) as [Htop|Hlow].
  - change (2 ^ 53) with 9007199254740992 in Htop.
    inversion Htop; subst p2.
    change (Zdigits2 9007199254740992) with 54.
    unfold fexp, emin, F64.prec, F64.emax.
    replace (Z.max (54 + e1 - 53) (3 - 1024 - 53) - e1) with 1 by lia.
    cbn [shr shr_record_of_loc SpecFloat.iter_pos shr_1 shr_m].
    destruct (Z.leb_spec (e1 + 1) (1024 - 53)); [|lia].
    unfold F64.leb, SFleb, SFcompare, F64.one.
    destruct (Z.compare_spec (e1 + 1) (-52)); [reflexivity|reflexivity|lia].
  - assert (Hd2 : Z.pos (digits2_pos p2) = 53)
      by (apply digits2_pos_unique; change (53 - 1) with 52; lia).
    cbn [Zdigits2]. rewrite Hd2. unfold fexp, emin, F64.prec, F64.emax.
    replace (Z.max (53 + e1 - 53) (3 - 1024 - 53) - e1) with 0 by lia.
    cbn [shr shr_record_of_loc shr_m].
    destruct (Z.leb_spec e1 (1024 - 53)); [|lia].
    unfold F64.leb, SFleb, SFcompare, F64.one.
    destruct (Z.compare_spec e1 (-52)); [lia|reflexivity|lia].
Qed.

Lemma mantissa_bounds (m : positive) :
  digits2_pos m = 53%positive → 2 ^ 52 ≤ Z.pos m < 2 ^ 53.
Proof.
  intros Hd. pose proof (digits2_pos_bounds m) as H. rewrite Hd in H. exact H.
Qed.

(** The quotient of a float by a greater one is not above 1. *)
Lemma div_le_one (m1 m2 : positive) (e1 e2 : Z) :
  digits2_pos m1 = 53%positive → digits2_pos m2 = 53%positive →
  -1021 ≤ e1 - e2 →
  e1 < e2 ∨ (e1 = e2 ∧ Z.pos m1 < Z.pos m2) →
  F64.leb (F64.div (S754_finite false m1 e1) (S754_finite false m2 e2)) F64.one
  = true.
Proof.
  intros H1 H2 He Hlt.
  pose proof (mantissa_bounds m1 H1) as B1.
  pose proof (mantissa_bounds m2 H2) as B2.
  change (2 ^ 52) with 4503599627370496 in *.
  change (2 ^ 53) with 9007199254740992 in *.
  unfold F64.div, SFdiv, SFdiv_core_binary. cbn [Zdigits2 xorb]. rewrite H1, H2.
  assert (He' : Z.min (fexp F64.prec F64.emax (53 + e1 - (53 + e2))) (e1 - e2)
                = e1 - e2 - 53).
  { unfold fexp, emin, F64.prec, F64.emax. lia. }
  rewrite He'. replace (e1 - e2 - (e1 - e2 - 53)) with 53 by lia.
  rewrite Z.shiftl_mul_pow2 by lia. rewrite div_eucl_div_mod.
  change (2 ^ 53) with 9007199254740992.
  apply binary_round_aux_le_one.
  - change (2 ^ 52) with 4503599627370496.
    apply Z.div_le_lower_bound; lia.
  - lia.
  - replace (- (e1 - e2 - 53)) with (53 + (e2 - e1)) by lia.
    rewrite Z.pow_add_r by lia. change (2 ^ 53) with 9007199254740992.
    apply Z.div_lt_upper_bound; [lia|].
    destruct Hlt as [Hlt|[-> Hlt]].
    + assert (2 ^ 1 ≤ 2 ^ (e2 - e1)) by (apply Z.pow_le_mono_r; lia).
      change (2 ^ 1) with 2 in *. nia.
    + rewrite Z.sub_diag. change (2 ^ 0) with 1. lia.
Qed.

(** The quotient of a float by itself is 1. *)
Lemma div_self (m : positive) (e : Z) :
  digits2_pos m = 53%positive →
  F64.div (S754_finite false m e) (S754_finite false m e) = F64.one.
Proof.
  intros H1. unfold F64.div, SFdiv, SFdiv_core_binary. cbn [Zdigits2 xorb].
  rewrite H1, Z.sub_diag.
  replace (53 + e - (53 + e)) with 0 by lia.
  change (Z.min (fexp F64.prec F64.emax 0) 0) with (-53).
  change (0 - -53) with 53. rewrite Z.shiftl_mul_pow2 by lia.
  rewrite div_eucl_div_mod, (Z.mul_comm (Z.pos m)), Z.div_mul, Z.mod_mul by lia.
  replace (new_location (Z.pos m) 0) with loc_Exact
    by (unfold new_location; by destruct (Z.even (Z.pos m))).
  reflexivity.
Qed.

Lemma of_Z_0 : F64.of_Z 0 = S754_zero false.
Proof. done. Qed.

(** Counts below [2^53]: the binary64 quotient of a part by the whole is
    not above 1. *)
Lemma count_ratio_le_one (x total : Z) :
  0 < total < 2 ^ 53 → 0 ≤ x ≤ total →
  F64.leb (F64.div (F64.of_Z x) (F64.of_Z total)) F64.one = true.
Proof.
  intros Ht Hx.
  destruct (of_Z_exact total Ht) as (m2 & d2 & Hd2 & Hb2 & Hm2 & Hdig2 & ->).
  destruct (decide (x = 0)) as [->|Hx0]; [done|].
  destruct (of_Z_exact x ltac:(lia)) as (m1 & d1 & Hd1 & Hb1 & Hm1 & Hdig1 & ->).
  destruct (decide (x = total)) as [->|Hne].
  - assert (d1 = d2) as ->.
    { assert (d1 - 1 < d2) by (apply (Z.pow_lt_mono_r_iff 2); lia).
      assert (d2 - 1 < d1) by (apply (Z.pow_lt_mono_r_iff 2); lia). lia. }
    assert (m1 = m2) as -> by (apply Pos2Z.inj; lia).
    by rewrite div_self.
  - assert (d1 ≤ d2).
    { assert (d1 - 1 < d2) by (apply (Z.pow_lt_mono_r_iff 2); lia). lia. }
    apply div_le_one; [done|done|lia|].
    destruct (decide (d1 = d2)) as [->|]; [right|left; lia].
    split; [done|]. rewrite Hm1, Hm2.
    assert (0 < 2 ^ (53 - d2)) by (apply Z.pow_pos_nonneg; lia). nia.
Qed.

End Binary64.


(** ** MPdist *)

Section MPdistProps.
Import MPdist.

Lemma py_index_in_range {A} (a : list A) (i : Z) :
  0 ≤ i < Z.of_nat (length a) → py_index a i = a !! Z.to_nat i.
Proof.
  intros Hi. unfold py_index.
  destruct (Z.leb_spec 0 i), (Z.ltb_spec i (Z.of_nat (length a))); simpl; try lia; done.
Qed.

Lemma count_finite_bounds (v : list float) :
  0 ≤ count_finite v ≤ Z.of_nat (length v).
Proof.
  unfold count_finite. pose proof (length_filter (λ x, F64.isfinite x = true) v). lia.
Qed.

(** C6. Without a custom selector and with [0 <= k < len(P_ABBA)], the
    selection returns [P_ABBA[k]] when that value is finite and otherwise
    [P_ABBA[k']] with [k' = max(0, count of finite values in P_ABBA[0:k] - 1)],
    an index that is in range; on [0.1, 0.2, inf, 0.4, inf] with [k = 2] it
    returns [0.2]. *)
Theorem select_P_ABBA_value_rule :
  (∀ (P_ABBA : list float) (k : Z),
      0 ≤ k < Z.of_nat (length P_ABBA) →
      ∃ v v', let k' := Z.max 0 (count_finite (take (Z.to_nat k) P_ABBA) - 1) in
        P_ABBA !! Z.to_nat k = Some v ∧
        0 ≤ k' ≤ k ∧ P_ABBA !! Z.to_nat k' = Some v' ∧
        _select_P_ABBA_value P_ABBA k None =
          Some (if F64.isfinite v then v else v'))
  ∧ _select_P_ABBA_value P_ABBA_example 2 None = Some F64.d0_2.
Proof.
  split; [|done].
  intros P k Hk.
  destruct (lookup_lt_is_Some_2 P (Z.to_nat k)) as [v Hv]; [lia|].
  pose proof (count_finite_bounds (take (Z.to_nat k) P)) as Hc.
  rewrite length_take in Hc.
  set (k' := Z.max 0 (count_finite (take (Z.to_nat k) P) - 1)) in *.
  assert (Hk' : 0 ≤ k' ≤ k) by lia.
  destruct (lookup_lt_is_Some_2 P (Z.to_nat k')) as [v' Hv']; [lia|].
  exists v, v'. simpl. repeat split; try done; try lia.
  unfold _select_P_ABBA_value. rewrite (py_index_in_range P k) by lia.
  rewrite Hv. simpl. destruct (F64.isfinite v); simpl; [done|].
  unfold py_slice_to. destruct (Z.leb_spec 0 k); [|lia].
  fold k'. rewrite (py_index_in_range P k') by lia. done.
Qed.

Lemma select_P_ABBA_value_rule_witness :
  0 ≤ 4 < Z.of_nat (length P_ABBA_example) ∧
  ∃ v v', P_ABBA_example !! Z.to_nat 4 = Some v ∧
          P_ABBA_example !! 2%nat = Some v' ∧
          _select_P_ABBA_value P_ABBA_example 4 None =
            Some (if F64.isfinite v then v else v').
Proof.
  split; [simpl; lia|].
  destruct (proj1 select_P_ABBA_value_rule P_ABBA_example 4) as (v & v' & H);
    [simpl; lia|].
  exists v, v'. simpl in H. destruct H as (H1 & _ & H3 & H4). done.
Defined.

(** [F64.ceil] of a finite value: the value itself at a non-negative
    exponent, else the least integer not below it. *)
Lemma ceil_spec (s : bool) (m : positive) (e : Z) :
  let z := if s then Z.neg m else Z.pos m in
  ∃ c, F64.ceil (S754_finite s m e) = Some c ∧
       if 0 <=? e then c = z * 2 ^ e
       else (c - 1) * 2 ^ (- e) < z ≤ c * 2 ^ (- e).
Proof.
  intros z. unfold F64.ceil. fold z. eexists. split; [done|].
  destruct (Z.leb_spec 0 e) as [|He]; [done|].
  assert (Hb : 0 < 2 ^ (- e)) by (apply Z.pow_pos_nonneg; lia).
  pose proof (Z.mul_div_le (- z) _ Hb).
  pose proof (Z.mul_succ_div_gt (- z) _ Hb). lia.
Qed.

(** C7. With no [k] supplied the index is
    [min(ceil(p' * (n_A + n_B)), length - 1)]: [p'] is the percentage clamped
    to [0, 1] (a percentage already there is kept), the product and its
    ceiling are those of binary64, and a product that is not finite (a NaN
    percentage) raises. A supplied [k] is used as it is: it is not
    clamped, and one at or beyond the length of [P_ABBA] makes the
    selection index out of bounds. *)
Theorem mpdist_k_rule (P_ABBA : list float) (n_A n_B m : Z) (percentage : float) :
  let length := n_A - m + 1 + (n_B - m + 1) in
  (F64.isnan percentage = false →
   F64.leb F64.zero (clamp01 percentage) = true ∧
   F64.leb (clamp01 percentage) F64.one = true) ∧
  _mpdist_k n_A n_B m percentage None =
    (c ← F64.ceil (F64.mul (clamp01 percentage) (F64.of_Z (n_A + n_B)));
     Some (Z.min c (length - 1))) ∧
  (∀ k, _mpdist_k n_A n_B m percentage (Some k) = Some k) ∧
  (∀ k, Z.of_nat (List.length P_ABBA) ≤ k →
        _mpdist P_ABBA n_A n_B m percentage (Some k) None = None) ∧
  (F64.leb F64.zero percentage = true → F64.leb percentage F64.one = true →
   clamp01 percentage = percentage) ∧
  (F64.isnan percentage = true →
   _mpdist_k n_A n_B m percentage None = None).
Proof.
  intros len.
  split; [apply clamp01_range|]. split; [|split; [done|split; [|split]]].
  - unfold _mpdist_k, clamp01, len.
    destruct (F64.ceil _); [|done]. simpl. do 2 f_equal. lia.
  - intros k Hk. unfold _mpdist, _mpdist_k, _select_P_ABBA_value, py_index.
    simpl. destruct (Z.ltb_spec k (Z.of_nat (length P_ABBA))); [lia|].
    destruct (Z.ltb_spec k 0); [lia|].
    rewrite !andb_false_r. done.
  - apply clamp01_id.
  - intros Hnan. destruct percentage; done.
Qed.

(** C7 as stated fails: with [n_A = n_B = 5] and [m = 3] the vector has 6
    entries; the supplied [k = n_A + n_B = 10] is not clamped to 5, the
    selection indexes out of bounds, whereas index 5 holds a value. *)
Lemma mpdist_k_not_clamped :
  _mpdist_k 5 5 3 F64.d0_05 (Some 10) = Some 10 ∧
  _mpdist P_ABBA_six 5 5 3 F64.d0_05 (Some 10) None = None ∧
  _select_P_ABBA_value P_ABBA_six (5 - 3 + 1 + (5 - 3 + 1) - 1) None = Some F64.d0_4.
Proof. done. Qed.

(** With the percentage 0.05: over 20 points the binary64 product is 1.0
    and the index is 1; over 10 points it is 0.5 and the index is 1. A
    supplied [k = 6] on a vector of 6 entries raises. *)
Lemma mpdist_k_rule_witness :
  F64.leb F64.zero (clamp01 F64.d0_05) = true ∧
  _mpdist_k 10 10 3 F64.d0_05 None = Some 1 ∧
  _mpdist_k 5 5 3 F64.d0_05 None = Some 1 ∧
  _mpdist P_ABBA_six 5 5 3 F64.d0_05 (Some 6) None = None.
Proof.
  destruct (mpdist_k_rule P_ABBA_six 10 10 3 F64.d0_05)
    as (H0 & H1 & _ & _ & H3 & _).
  destruct (mpdist_k_rule P_ABBA_six 5 5 3 F64.d0_05)
    as (_ & H1' & _ & H2 & _ & _).
  split; [apply H0; reflexivity|].
  split; [rewrite H1, H3 by reflexivity; reflexivity|].
  split; [rewrite H1', H3 by reflexivity; reflexivity|].
  apply H2. simpl. lia.
Defined.

End MPdistProps.

(** ** The order partitioner *)

Section PartitionerProps.
Variables (m n : Z) (orders : list Z).

#[local] Abbreviation len := (Z.of_nat (length orders)).
#[local] Abbreviation diag_at idx := (n - m + 2 - default 0 (jit_index orders idx)).
#[local] Abbreviation count := (dist_count m n orders).

Lemma jit_index_in_range {A} (a : list A) (i : Z) :
  0 ≤ i < Z.of_nat (length a) → jit_index a i = a !! Z.to_nat i.
Proof.
  intros Hi. unfold jit_index.
  destruct (Z.leb_spec 0 i), (Z.ltb_spec i (Z.of_nat (length a))); simpl; try lia; done.
Qed.

Lemma jit_index_is_Some {A} (a : list A) (i : Z) :
  0 ≤ i < Z.of_nat (length a) → ∃ x, jit_index a i = Some x.
Proof.
  intros Hi. rewrite jit_index_in_range by done.
  apply lookup_lt_is_Some_2. lia.
Qed.

Lemma py_range_nil (a b : Z) : b ≤ a → py_range a b = [].
Proof. intros H. unfold py_range. apply seqZ_nil. lia. Qed.

Lemma py_range_cons (a b : Z) : a < b → py_range a b = a :: py_range (a + 1) b.
Proof.
  intros H. unfold py_range. rewrite seqZ_cons by lia.
  f_equal. f_equal; lia.
Qed.

Lemma py_range_app (a b c : Z) :
  a ≤ b → b ≤ c → py_range a c = py_range a b ++ py_range b c.
Proof.
  intros H1 H2. unfold py_range.
  replace (c - a) with ((b - a) + (c - b)) by lia.
  rewrite seqZ_app by lia. do 2 f_equal. lia.
Qed.

Lemma py_range_snoc (a b : Z) : a ≤ b → py_range a (b + 1) = py_range a b ++ [b].
Proof.
  intros H. rewrite (py_range_app a b (b + 1)) by lia.
  rewrite (py_range_cons b (b + 1)) by lia.
  rewrite (py_range_nil (b + 1) (b + 1)) by lia. done.
Qed.

Lemma sumZ_app (l1 l2 : list Z) : sumZ (l1 ++ l2) = sumZ l1 + sumZ l2.
Proof. induction l1 as [|x l1 IH]; simpl; [done|]. rewrite IH. lia. Qed.

Lemma count_nil (lo hi : Z) : hi ≤ lo → count lo hi = 0.
Proof. intros H. unfold dist_count. by rewrite py_range_nil. Qed.

Lemma count_cons (lo hi : Z) :
  lo < hi → count lo hi = diag_at lo + count (lo + 1) hi.
Proof. intros H. unfold dist_count. by rewrite py_range_cons. Qed.

Lemma count_snoc (lo hi : Z) :
  lo ≤ hi → count lo (hi + 1) = count lo hi + diag_at hi.
Proof.
  intros H. unfold dist_count. rewrite py_range_snoc by done.
  rewrite fmap_app, sumZ_app. simpl. lia.
Qed.

Lemma count_app (a b c : Z) :
  a ≤ b → b ≤ c → count a c = count a b + count b c.
Proof.
  intros H1 H2. unfold dist_count. rewrite (py_range_app a b c) by done.
  by rewrite fmap_app, sumZ_app.
Qed.

Lemma foldl_dist_count (l pre : list Z) (acc : Z) :
  foldl (λ acc k, acc + (n - m + 2 - k)) acc l
  = acc + dist_count m n (pre ++ l) (Z.of_nat (length pre))
            (Z.of_nat (length (pre ++ l))).
Proof.
  revert pre acc. induction l as [|k l IH]; intros pre acc.
  - simpl. unfold dist_count. rewrite app_nil_r, py_range_nil by lia. simpl. lia.
  - simpl. specialize (IH (pre ++ [k]) (acc + (n - m + 2 - k))).
    rewrite <- app_assoc in IH. simpl in IH. rewrite IH.
    unfold dist_count.
    rewrite (py_range_cons (Z.of_nat (length pre))) by (rewrite length_app; simpl; lia).
    simpl. rewrite (jit_index_in_range (pre ++ k :: l) (Z.of_nat (length pre)))
      by (rewrite length_app; simpl; lia).
    rewrite Nat2Z.id, list_lookup_middle by done. simpl.
    rewrite length_app. simpl.
    replace (Z.of_nat (length pre + 1)) with (Z.of_nat (length pre) + 1) by lia.
    symmetry. apply Z.add_assoc.
Qed.

(** The first loop of [_get_max_order_idx] sums over every index. *)
Lemma max_n_dist_total :
  foldl (λ acc k, acc + (n - m + 2 - k)) 0 orders = count 0 len.
Proof. rewrite (foldl_dist_count orders [] 0). apply Z.add_0_l. Qed.

Lemma count_nonneg (lo hi : Z) :
  0 ≤ lo → hi ≤ len → Forall (λ k, k ≤ n - m + 2) orders → 0 ≤ count lo hi.
Proof.
  intros Hlo Hhi Hval. unfold dist_count.
  assert (∀ l, Forall (λ i, 0 ≤ i < len) l → 0 ≤ sumZ ((λ idx, diag_at idx) <$> l)) as H.
  { induction l as [|i l IH]; [simpl; lia|]. intros Hl.
    inversion Hl as [|? ? Hi Hl']; subst. specialize (IH Hl').
    rewrite fmap_cons. change (sumZ (?x :: ?l)) with (x + sumZ l).
    destruct (jit_index_is_Some orders i Hi) as [k Hk]. rewrite Hk. simpl default.
    rewrite jit_index_in_range in Hk by done.
    rewrite Forall_forall in Hval. apply list_elem_of_lookup_2 in Hk.
    specialize (Hval k Hk). simpl in Hval. lia. }
  apply H. apply Forall_forall. intros i Hi.
  unfold py_range in Hi. apply elem_of_seqZ in Hi. lia.
Qed.

Lemma ratio_gt_exceeds (a b : Z) (p : float) :
  b ≠ 0 → ratio_gt a b p = Some (exceeds b p a).
Proof.
  intros Hb. unfold ratio_gt, exceeds.
  destruct (Z.eqb_spec b 0); [done|]. done.
Qed.

(** With [percentage >= 1] no fraction of a total below [2^53] exceeds
    it. *)
Lemma exceeds_full (total x : Z) (p : float) :
  F64.leb F64.one p = true → 0 < total < 2 ^ 53 → 0 ≤ x ≤ total →
  exceeds total p x = false.
Proof.
  intros Hp Ht Hx. unfold exceeds, F64.gtb.
  eapply leb_ltb_false; [|exact Hp]. by apply count_ratio_le_one.
Qed.

(** The second loop, from index [idx0] with [acc] already counted: it
    stops right after the first index at which the fraction exceeds the
    percentage, or at the end. *)
Lemma max_order_loop_spec (total : Z) (p : float) (hi : Z) :
  total ≠ 0 → hi ≤ len →
  ∀ (d : nat) (idx0 : Z) (oi : option Z) (acc : Z),
    0 ≤ idx0 → idx0 + Z.of_nat d = hi → (0 < d)%nat →
    ∃ stop,
      max_order_loop m n orders total p (py_range idx0 hi) oi acc
        = Some (Some (stop - 1), acc + count idx0 stop) ∧
      idx0 < stop ≤ hi ∧
      (∀ j, idx0 < j < stop → exceeds total p (acc + count idx0 j) = false) ∧
      (stop < hi → exceeds total p (acc + count idx0 stop) = true).
Proof.
  intros Ht Hhi. induction d as [|d IH]; intros idx0 oi acc H0 Hd Hpos; [lia|].
  rewrite py_range_cons by lia. simpl.
  destruct (jit_index_is_Some orders idx0) as [k Hk]; [lia|].
  rewrite Hk. simpl. rewrite ratio_gt_exceeds by done. simpl.
  assert (Hone : count idx0 (idx0 + 1) = n - m + 2 - k).
  { rewrite count_cons, count_nil by lia. rewrite Hk. simpl. lia. }
  destruct (exceeds total p (acc + (n - m + 2 - k))) eqn:He.
  - exists (idx0 + 1). rewrite Hone. repeat split; try lia.
    + do 3 f_equal. lia.
    + intros _. done.
  - destruct d as [|d'].
    + rewrite py_range_nil by lia. simpl.
      exists (idx0 + 1). rewrite Hone. repeat split; try lia.
      do 3 f_equal. lia.
    + destruct (IH (idx0 + 1) (Some idx0) (acc + (n - m + 2 - k)))
        as (stop & Hrun & Hstop & Hbefore & Hafter); [lia|lia|lia|].
      exists stop. rewrite Hrun.
      assert (Hsplit : ∀ j, idx0 + 1 ≤ j →
                 count idx0 j = (n - m + 2 - k) + count (idx0 + 1) j).
      { intros j Hj. rewrite (count_app idx0 (idx0 + 1) j) by lia. by rewrite Hone. }
      repeat split; try lia.
      * do 2 f_equal. rewrite Hsplit by lia. lia.
      * intros j Hj. destruct (decide (j = idx0 + 1)) as [->|Hne].
        -- by rewrite Hone.
        -- rewrite Hsplit by lia. rewrite Z.add_assoc. apply Hbefore. lia.
      * intros Hlt. rewrite Hsplit by lia. rewrite Z.add_assoc. by apply Hafter.
Qed.

(** What [_get_max_order_idx] returns. *)
Lemma get_max_order_idx_spec (start : Z) (percentage : float) :
  let total := count 0 len in
  0 ≤ start < len → total ≠ 0 →
  ∃ stop n_dist,
    _get_max_order_idx m n orders start percentage = Some (stop, n_dist) ∧
    start < stop ≤ len ∧
    n_dist = count start stop ∧
    (∀ j, start < j < stop → exceeds total percentage (count start j) = false) ∧
    (stop < len → exceeds total percentage n_dist = true) ∧
    (F64.leb F64.one percentage = true → total < 2 ^ 53 →
     Forall (λ k, k ≤ n - m + 2) orders → stop = len).
Proof.
  intros total Hstart Htotal.
  destruct (max_order_loop_spec total percentage len Htotal (Z.le_refl _)
              (Z.to_nat (len - start)) start
              (if 0 <? len then Some (len - 1) else None) 0)
    as (stop & Hrun & Hstop & Hbefore & Hafter); [lia|lia|lia|].
  exists stop, (count start stop).
  unfold _get_max_order_idx. rewrite max_n_dist_total. fold total.
  rewrite Hrun. simpl. repeat split; try lia.
  - do 2 f_equal. lia.
  - intros j Hj. by apply Hbefore.
  - intros Hlt. by apply Hafter.
  - intros Hp Hbig Hval. destruct (decide (stop = len)) as [|Hne]; [done|].
    exfalso. assert (Hlt : stop < len) by lia.
    specialize (Hafter Hlt). simpl in Hafter.
    pose proof (count_nonneg 0 start ltac:(lia) ltac:(lia) Hval).
    pose proof (count_nonneg stop len ltac:(lia) ltac:(lia) Hval).
    pose proof (count_nonneg start stop ltac:(lia) ltac:(lia) Hval).
    assert (total = count 0 start + count start stop + count stop len).
    { unfold total. rewrite (count_app 0 start len), (count_app start stop len) by lia. lia. }
    rewrite exceeds_full in Hafter; [done|done|lia|lia].
Qed.

(** C4, as the code has it. The total is the count over every diagonal of
    [orders] (from index 0, not from [start]). From [start] the function
    accumulates counts, stops right after the first index at which the
    binary64 quotient of the running count by that total exceeds
    [percentage], and returns that exclusive stop index with the count
    accumulated up to it; with [percentage >= 1] (diagonals of
    non-negative length, a total below [2^53]) the stop index is the length
    of [orders]. *)
Theorem get_max_order_idx_rule (start : Z) (percentage : float) :
  let total := count 0 len in
  0 ≤ start < len → total ≠ 0 →
  ∃ stop n_dist,
    _get_max_order_idx m n orders start percentage = Some (stop, n_dist) ∧
    start < stop ≤ len ∧
    n_dist = count start stop ∧
    (∀ j, start < j < stop →
          F64.gtb (F64.div (F64.of_Z (count start j)) (F64.of_Z total))
            percentage = false) ∧
    (stop < len →
     F64.gtb (F64.div (F64.of_Z n_dist) (F64.of_Z total)) percentage = true) ∧
    (F64.leb F64.one percentage = true → total < 2 ^ 53 →
     Forall (λ k, k ≤ n - m + 2) orders → stop = len).
Proof. apply get_max_order_idx_spec. Qed.

Lemma over_share_iff (x total n_split : Z) :
  0 < n_split → over_share x total n_split = true ↔ total < x * n_split.
Proof.
  intros Hn. unfold over_share.
  assert (Hq : (0 < inject_Z n_split)%Q).
  { replace 0%Q with (inject_Z 0) by done. by rewrite <- Zlt_Qlt. }
  destruct (Qlt_le_dec (inject_Z total / inject_Z n_split) (inject_Z x)) as [H|H].
  - split; [intros _|done].
    apply (Qmult_lt_compat_r _ _ _ Hq) in H.
    rewrite (Qmult_comm (_ / _)), Qmult_div_r in H
      by (intros Heq; rewrite Heq in Hq; by apply Qlt_irrefl in Hq).
    rewrite <- inject_Z_mult, <- Zlt_Qlt in H. done.
  - split; [done|]. intros Hlt. exfalso. apply (Qle_not_lt _ _ H).
    apply Qlt_shift_div_r; [done|].
    rewrite <- inject_Z_mult, <- Zlt_Qlt. done.
Qed.

Lemma set_range_in_range (ranges : list (Z * Z)) (i a b : Z) :
  0 ≤ i < Z.of_nat (length ranges) →
  set_range ranges i a b = Some (<[Z.to_nat i := (a, b)]> ranges).
Proof.
  intros Hi. unfold set_range.
  destruct (Z.leb_spec 0 i), (Z.ltb_spec i (Z.of_nat (length ranges))); simpl; try lia; done.
Qed.

Lemma insert_first_zero (rows : list (Z * Z)) (r : Z * Z) (k : nat) :
  <[length rows := r]> (rows ++ replicate (S k) (0, 0))
  = (rows ++ [r]) ++ replicate k (0, 0).
Proof.
  rewrite insert_app_r_alt by lia. rewrite Nat.sub_diag. simpl.
  by rewrite <- app_assoc.
Qed.

Lemma chained_snoc (a b c : Z) (rows : list (Z * Z)) :
  chained a b rows = true → b ≤ c → chained a c (rows ++ [(b, c)]) = true.
Proof.
  revert a. induction rows as [|[x y] rows IH]; intros a Hch Hbc; simpl in *.
  - apply Z.eqb_eq in Hch. subst.
    rewrite Z.eqb_refl. destruct (Z.leb_spec b c); [|lia]. simpl. apply Z.eqb_refl.
  - apply andb_true_iff in Hch as [Hxy Hch]. rewrite Hxy. simpl. by apply IH.
Qed.

Lemma split_loop_spec (start stop total n_split : Z) :
  0 ≤ start → stop ≤ len → 0 < n_split →
  Forall (λ k, k ≤ n - m + 2) orders →
  total = count start stop →
  ∀ (d : nat) (idx : Z) (st : split_state) (rows : list (Z * Z)),
    idx + Z.of_nat d = stop →
    split_inv m n orders start stop total n_split idx st rows →
    ∃ st' rows',
      split_loop m n orders stop total n_split (py_range idx stop) st = Some st' ∧
      split_inv m n orders start stop total n_split stop st' rows'.
Proof.
  intros Hstart Hstop Hn Hval Htotal.
  induction d as [|d IH]; intros idx st rows Hd Hinv.
  - rewrite py_range_nil by lia. simpl. exists st, rows.
    assert (idx = stop) as -> by lia. done.
  - rewrite py_range_cons by lia. simpl.
    destruct Hinv as [Hr Hi Hfree Hb Hch Hrows Hnd Hsh Hbud].
    destruct (jit_index_is_Some orders idx) as [k Hk]; [lia|].
    rewrite Hk. simpl.
    assert (Hnext : count (range_start_idx st) (idx + 1)
                    = split_n_dist st + (n - m + 2 - k)).
    { rewrite count_snoc by lia. rewrite Hk, Hnd. done. }
    pose proof (count_nonneg start (range_start_idx st)
                  ltac:(lia) ltac:(lia) Hval) as Hpre.
    pose proof (count_nonneg (idx + 1) stop ltac:(lia) ltac:(lia) Hval) as Hpost.
    assert (Hall : total = count start (range_start_idx st)
                           + count (range_start_idx st) (idx + 1)
                           + count (idx + 1) stop).
    { rewrite Htotal.
      rewrite (count_app start (range_start_idx st) stop) by lia.
      rewrite (count_app (range_start_idx st) (idx + 1) stop) by lia. lia. }
    destruct (over_share (split_n_dist st + (n - m + 2 - k)) total n_split) eqn:Hov.
    + apply over_share_iff in Hov; [|done]. rewrite <- Hnext in Hov.
      pose proof (count_nonneg (range_start_idx st) (idx + 1)
                    ltac:(lia) ltac:(lia) Hval) as Hseg.
      assert (Hroom : Z.of_nat (length rows) + 1 < n_split).
      { assert ((Z.of_nat (length rows) + 1) * total < total * n_split) by nia.
        assert (0 < total) by nia. nia. }
      rewrite set_range_in_range
        by (rewrite Hr, length_app, length_replicate; lia).
      simpl. rewrite Hi, Nat2Z.id, Hr.
      replace (Z.to_nat n_split - length rows)%nat
        with (S (Z.to_nat n_split - length (rows ++ [(range_start_idx st, idx + 1)])))
        by (rewrite length_app; simpl; lia).
      rewrite insert_first_zero.
      replace (Z.min (idx + 1) stop) with (idx + 1) by lia.
      apply (IH (idx + 1) _ (rows ++ [(range_start_idx st, idx + 1)])); [lia|].
      split; simpl.
      * done.
      * rewrite length_app. simpl. lia.
      * rewrite length_app. simpl. lia.
      * lia.
      * apply chained_snoc; [done|lia].
      * apply Forall_app. split; [done|]. apply Forall_singleton. simpl.
        split; [done|]. replace (idx + 1 - 1) with idx by lia. done.
      * rewrite count_nil; lia.
      * rewrite count_nil by lia. lia.
      * rewrite length_app. simpl.
        rewrite (count_app start (range_start_idx st) (idx + 1)) by lia. nia.
    + assert (Hle : count (range_start_idx st) (idx + 1) * n_split ≤ total).
      { destruct (Z.le_gt_cases (count (range_start_idx st) (idx + 1) * n_split) total)
          as [|Hgt]; [done|].
        apply Z.gt_lt_iff, Z.gt_lt in Hgt.
        rewrite Hnext in Hgt. apply over_share_iff in Hgt; [|done]. congruence. }
      apply (IH (idx + 1) _ rows); [lia|].
      split; simpl; try done; try lia.
Qed.

(** C5, as the code has it. The table has [n_split] rows. The rows cut by
    the loop and the final row follow one another from [start] to the stop
    index of [_get_max_order_idx]; the rows after them keep their initial
    value [(0, 0)]. Each cut row holds more than [total / n_split]
    distances and no more than that without its last diagonal; the final
    row holds at most [total / n_split]. *)
Theorem get_orders_ranges_rule (n_split start : Z) (percentage : float) :
  0 ≤ start < len → count 0 len ≠ 0 → 1 ≤ n_split →
  Forall (λ k, k ≤ n - m + 2) orders →
  ∃ stop total rows last_start ranges,
    _get_max_order_idx m n orders start percentage = Some (stop, total) ∧
    _get_orders_ranges n_split m n orders start percentage = Some ranges ∧
    Z.of_nat (length ranges) = n_split ∧
    ranges = rows ++ (last_start, stop)
               :: replicate (Z.to_nat n_split - length rows - 1) (0, 0) ∧
    Z.of_nat (length rows) < n_split ∧
    chained start stop (rows ++ [(last_start, stop)]) = true ∧
    Forall (λ r, total < count r.1 r.2 * n_split ∧
                 count r.1 (r.2 - 1) * n_split ≤ total) rows ∧
    count last_start stop * n_split ≤ total.
Proof.
  intros Hstart Htotal Hn Hval.
  destruct (get_max_order_idx_spec start percentage Hstart Htotal)
    as (stop & total & Hmax & Hstop & Hcount & _).
  pose proof (count_nonneg start stop ltac:(lia) ltac:(lia) Hval) as Hnonneg.
  destruct (split_loop_spec start stop total n_split ltac:(lia) ltac:(lia)
              ltac:(lia) Hval Hcount (Z.to_nat (stop - start)) start
              (SplitState (replicate (Z.to_nat n_split) (0, 0)) 0 start 0) [])
    as (st & rows & Hrun & Hinv); [lia| |].
  { split; simpl.
    - by rewrite Nat.sub_0_r.
    - done.
    - lia.
    - lia.
    - apply Z.eqb_refl.
    - done.
    - rewrite count_nil; lia.
    - rewrite count_nil by lia. lia.
    - rewrite count_nil by lia. lia. }
  destruct Hinv as [Hr Hi Hfree Hb Hch Hrows Hnd Hsh Hbud].
  exists stop, total, rows, (range_start_idx st).
  eexists. split; [done|].
  unfold _get_orders_ranges. rewrite Hmax. simpl.
  destruct (Z.leb_spec n_split 0); [lia|].
  rewrite Hrun. simpl.
  rewrite set_range_in_range by (rewrite Hr, length_app, length_replicate; lia).
  rewrite Hi, Nat2Z.id, Hr.
  set (rest := (Z.to_nat n_split - length rows - 1)%nat).
  replace (Z.to_nat n_split - length rows)%nat with (S rest) by lia.
  rewrite insert_first_zero, <- app_assoc.
  split; [reflexivity|]. split.
  { rewrite !length_app. simpl. rewrite length_replicate. lia. }
  split; [reflexivity|]. split; [done|].
  split; [apply chained_snoc; [done|lia]|]. done.
Qed.

End PartitionerProps.

Lemma get_max_order_idx_rule_witness :
  ∃ stop n_dist,
    _get_max_order_idx 3 8 [2; 3; 4; 5; 6] 2 F64.one = Some (stop, n_dist) ∧
    stop = 5 ∧ n_dist = dist_count 3 8 [2; 3; 4; 5; 6] 2 stop.
Proof.
  destruct (get_max_order_idx_rule 3 8 [2; 3; 4; 5; 6] 2 F64.one)
    as (stop & n_dist & H1 & H2 & H3 & _ & _ & H4); [simpl; lia|vm_compute; done|].
  exists stop, n_dist. split; [exact H1|]. split; [|exact H3].
  apply H4; [reflexivity|reflexivity|repeat constructor; lia].
Defined.

(** C4 as stated fails: on diagonals of lengths 5, 4, 3, 2, 1 with
    [start = 2] and 30 percent, the code divides by the total 15 over all
    of [orders] and stops at index 4 with 5 distances, where a total over
    [orders[start:]] (6) would stop at index 3 with 3 distances. *)
Lemma get_max_order_idx_total_not_remaining :
  _get_max_order_idx 3 8 [2; 3; 4; 5; 6] 2 F64.d0_3 = Some (4, 5) ∧
  max_order_idx_remaining 3 8 [2; 3; 4; 5; 6] 2 F64.d0_3 = Some (3, 3).
Proof. split; vm_compute; done. Qed.

Lemma get_orders_ranges_rule_witness :
  ∃ ranges, _get_orders_ranges 4 3 8 [2; 3; 4; 5; 6] 2 F64.d0_1 = Some ranges ∧
            Z.of_nat (length ranges) = 4.
Proof.
  destruct (get_orders_ranges_rule 3 8 [2; 3; 4; 5; 6] 4 2 F64.d0_1)
    as (stop & total & rows & last & ranges & _ & H & Hl & _).
  - simpl. lia.
  - vm_compute. done.
  - lia.
  - repeat constructor; lia.
  - exists ranges. done.
Defined.

(** C5 as stated fails. With 4 workers, [start = 2] and 10 percent the
    table is [(2,3); (3,3); (0,0); (0,0)]: the unused rows stay at
    [(0, 0)] and the four rows do not follow one another from 2 to 3. With
    4 workers over diagonals of lengths 8 down to 1 (36 distances, share 9)
    the last worker gets no diagonal: 9 below its share, more than the
    longest diagonal. *)
Lemma get_orders_ranges_not_contiguous :
  _get_orders_ranges 4 3 8 [2; 3; 4; 5; 6] 2 F64.d0_1
    = Some [(2, 3); (3, 3); (0, 0); (0, 0)] ∧
  _get_max_order_idx 3 8 [2; 3; 4; 5; 6] 2 F64.d0_1 = Some (3, 3) ∧
  chained 2 3 [(2, 3); (3, 3); (0, 0); (0, 0)] = false ∧
  _get_orders_ranges 4 4 12 [2; 3; 4; 5; 6; 7; 8; 9] 0 F64.one
    = Some [(0, 2); (2, 4); (4, 8); (8, 8)] ∧
  _get_max_order_idx 4 12 [2; 3; 4; 5; 6; 7; 8; 9] 0 F64.one = Some (8, 36) ∧
  dist_count 4 12 [2; 3; 4; 5; 6; 7; 8; 9] 8 8 = 0 ∧
  Forall (λ k, 12 - 4 + 2 - k ≤ 8) [2; 3; 4; 5; 6; 7; 8; 9] ∧
  8 * 4 < 36 - 0 * 4.
Proof.
  repeat split; try (vm_compute; done).
  repeat constructor; lia.
Qed.

(** ** The diagonal walker *)

Section WalkerProps.
Variable calc : Z → float → float → float → float → float → float.

Lemma for_each_app {A S} (body : A → S → option S) (l1 l2 : list A) (s : S) :
  for_each body (l1 ++ l2) s = for_each body l1 s ≫= for_each body l2.
Proof.
  revert s. induction l1 as [|x l1 IH]; intros s; simpl; [done|].
  destruct (body x s); simpl; [apply IH|done].
Qed.

(** A loop whose body keeps an invariant and never raises under it. *)
Lemma for_each_inv {A S} (Inv : S → Prop) (body : A → S → option S) (l : list A) :
  (∀ x s, x ∈ l → Inv s → ∃ s', body x s = Some s' ∧ Inv s') →
  ∀ s, Inv s → ∃ s', for_each body l s = Some s' ∧ Inv s'.
Proof.
  induction l as [|x l IH]; intros Hbody s Hs; simpl.
  - by exists s.
  - destruct (Hbody x s) as (s1 & -> & H1); [left|done|]. simpl.
    apply IH; [|done]. intros y s2 Hy. apply Hbody. by right.
Qed.

Lemma in_row_spec (l : nat) (x : Z) :
  in_row l x = true ↔ 0 ≤ x < Z.of_nat l.
Proof. unfold in_row. rewrite andb_true_iff, Z.leb_le, Z.ltb_lt. done. Qed.

Lemma shape_row (nt l : nat) (PI : list (list float) * list (list Z)) (t : nat) :
  shape nt l PI → (t < nt)%nat →
  PI.1 !! t = Some (get_row t PI).1 ∧ PI.2 !! t = Some (get_row t PI).2 ∧
  length (get_row t PI).1 = l ∧ length (get_row t PI).2 = l.
Proof.
  intros (H1 & H2 & H3 & H4) Ht. unfold get_row. simpl.
  destruct (lookup_lt_is_Some_2 PI.1 t) as [r1 Hr1]; [lia|].
  destruct (lookup_lt_is_Some_2 PI.2 t) as [r2 Hr2]; [lia|].
  rewrite Hr1, Hr2. simpl. repeat split.
  - rewrite Forall_forall in H3. apply H3. by eapply list_elem_of_lookup_2.
  - rewrite Forall_forall in H4. apply H4. by eapply list_elem_of_lookup_2.
Qed.

Lemma shape_set_row (nt l : nat) (PI : list (list float) * list (list Z))
    (t : nat) (r : list float * list Z) :
  shape nt l PI → length r.1 = l → length r.2 = l → shape nt l (set_row t r PI).
Proof.
  intros (H1 & H2 & H3 & H4) Hr1 Hr2. unfold shape, set_row. simpl.
  rewrite !length_insert. repeat split; try done.
  - apply Forall_insert; done.
  - apply Forall_insert; done.
Qed.

Lemma get_set_row (nt l : nat) (PI : list (list float) * list (list Z))
    (t : nat) (r : list float * list Z) :
  shape nt l PI → (t < nt)%nat → get_row t (set_row t r PI) = r.
Proof.
  intros (H1 & H2 & _) Ht. unfold get_row, set_row. simpl.
  rewrite !list_lookup_insert_eq by lia. simpl. by destruct r.
Qed.

Lemma set_set_row (PI : list (list float) * list (list Z)) (t : nat)
    (r r' : list float * list Z) :
  set_row t r' (set_row t r PI) = set_row t r' PI.
Proof. unfold set_row. simpl. by rewrite !list_insert_insert_eq. Qed.

Lemma set_get_row (nt l : nat) (PI : list (list float) * list (list Z)) (t : nat) :
  shape nt l PI → (t < nt)%nat → set_row t (get_row t PI) PI = PI.
Proof.
  intros Hs Ht. destruct (shape_row nt l PI t Hs Ht) as (H1 & H2 & _).
  unfold set_row. rewrite !list_insert_id by done. by destruct PI.
Qed.

Lemma best_row_length (x : Z) (D : float) (j : Z) (r : list float * list Z) :
  length (best_row x D j r).1 = length r.1 ∧
  length (best_row x D j r).2 = length r.2.
Proof.
  unfold best_row. destruct (_ && _); simpl; [|done].
  by rewrite !length_insert.
Qed.

Lemma get2_shape {A} (a : list (list A)) (t : nat) (row : list A) (x : Z) :
  a !! t = Some row →
  get2 a (Z.of_nat t) x = jit_index row x.
Proof.
  intros Hrow. unfold get2.
  rewrite jit_index_in_range
    by (apply lookup_lt_Some in Hrow; lia).
  rewrite Nat2Z.id, Hrow. done.
Qed.

Lemma set2_shape {A} (a : list (list A)) (t : nat) (row : list A) (x : Z) (v : A) :
  a !! t = Some row → 0 ≤ x < Z.of_nat (length row) →
  set2 a (Z.of_nat t) x v = Some (<[t := <[Z.to_nat x := v]> row]> a).
Proof.
  intros Hrow Hx. unfold set2.
  rewrite jit_index_in_range
    by (apply lookup_lt_Some in Hrow; lia).
  rewrite Nat2Z.id, Hrow. simpl.
  destruct (jit_index_is_Some row x Hx) as [y ->]. done.
Qed.

(** [update_best] on the tables is [best_row] on the worker's row. *)
Lemma update_best_row (nt l : nat) (guard : bool) (t : nat) (x : Z) (D : float)
    (j : Z) (PI : list (list float) * list (list Z)) :
  shape nt l PI → (t < nt)%nat →
  update_best guard (Z.of_nat t) x D j PI =
    if guard then
      if in_row l x then Some (set_row t (best_row x D j (get_row t PI)) PI)
      else None
    else Some PI.
Proof.
  intros Hs Ht. destruct (shape_row nt l PI t Hs Ht) as (H1 & H2 & H3 & H4).
  unfold update_best. destruct guard; [|by destruct PI].
  rewrite (get2_shape _ _ _ _ H1).
  destruct (in_row l x) eqn:Hin.
  - apply in_row_spec in Hin.
    rewrite jit_index_in_range by lia.
    destruct (lookup_lt_is_Some_2 (get_row t PI).1 (Z.to_nat x)) as [p Hp]; [lia|].
    rewrite Hp. simpl. unfold best_row. rewrite Hp. simpl.
    destruct (Z.leb_spec 0 x); [|lia]. simpl.
    destruct (F64.ltb D p).
    + rewrite (set2_shape _ _ _ _ _ H1) by lia. simpl.
      rewrite (set2_shape _ _ _ _ _ H2) by lia. done.
    + rewrite (set_get_row nt l) by done. by destruct PI.
  - unfold jit_index. fold (in_row (length (get_row t PI).1) x).
    rewrite H3, Hin. done.
Qed.

(** One turn of the inner loop, on the worker's row. *)
Lemma diagonal_step_row (nt l t : nat) (T : list float) (m : Z) (μ σ : list float)
    (excl_zone k i : Z) (QT : float) (PI : list (list float) * list (list Z)) :
  shape nt l PI → (t < nt)%nat →
  diagonal_step calc T m μ σ excl_zone (Z.of_nat t) k i (QT, PI) =
    QD ← diagonal_distance calc T m μ σ k i QT;
    if i <? i + k - 1 - excl_zone then
      if in_row l i && in_row l (i + k - 1) then
        Some (QD.1, set_row t (best_row (i + k - 1) QD.2 i
                                 (best_row i QD.2 (i + k - 1) (get_row t PI))) PI)
      else None
    else Some (QD.1, PI).
Proof.
  intros Hs Ht. unfold diagonal_step. simpl.
  destruct (diagonal_distance calc T m μ σ k i QT) as [[QT' D]|]; simpl; [|done].
  rewrite (update_best_row nt l) by done.
  destruct (i <? i + k - 1 - excl_zone).
  - destruct (in_row l i); [|done]. cbn [mbind option_bind andb].
    destruct (shape_row nt l PI t Hs Ht) as (_ & _ & H3 & H4).
    pose proof (best_row_length i D (i + k - 1) (get_row t PI)) as [L1 L2].
    rewrite (update_best_row nt l); [|apply shape_set_row; [done|lia|lia]|done].
    destruct (in_row l (i + k - 1)); [|done]. cbn [mbind option_bind].
    rewrite (get_set_row nt l) by done. by rewrite set_set_row.
  - cbn [mbind option_bind]. rewrite (update_best_row nt l) by done. done.
Qed.

Lemma py_slice_length {A} (a : list A) (i j : Z) :
  0 ≤ i ≤ j → j ≤ Z.of_nat (length a) → length (py_slice a i j) = Z.to_nat (j - i).
Proof.
  intros Hi Hj. unfold py_slice. rewrite length_drop, length_take. lia.
Qed.

(** Under the precondition of the walker every read of [T], [μ] and [σ] at
    row [i] of the diagonal [k] is inside the array. *)
Lemma diagonal_distance_in_bounds (T : list float) (m : Z) (μ σ : list float)
    (k i : Z) (QT : float) :
  let n := Z.of_nat (length T) in
  0 ≤ m → Z.of_nat (length μ) = n - m + 1 → Z.of_nat (length σ) = n - m + 1 →
  1 ≤ k → 0 ≤ i < n - m + 2 - k →
  ∃ QD, diagonal_distance calc T m μ σ k i QT = Some QD.
Proof.
  intros n Hm Hμ Hσ Hk Hi. unfold diagonal_distance.
  destruct (jit_index_is_Some μ i) as [μ_i ->]; [lia|].
  destruct (jit_index_is_Some σ i) as [σ_i ->]; [lia|].
  destruct (jit_index_is_Some μ (i + k - 1)) as [μ_j ->]; [lia|].
  destruct (jit_index_is_Some σ (i + k - 1)) as [σ_j ->]; [lia|].
  destruct (Z.eqb_spec i 0) as [->|Hne].
  - unfold np_dot.
    rewrite !py_slice_length by (fold n; lia).
    destruct (decide _) as [|Hlen]; [simpl; eauto|].
    exfalso. apply Hlen. f_equal. lia.
  - destruct (jit_index_is_Some T (i - 1)) as [a ->]; [fold n; lia|].
    destruct (jit_index_is_Some T (i + k - 2)) as [b ->]; [fold n; lia|].
    destruct (jit_index_is_Some T (i + m - 1)) as [c ->]; [fold n; lia|].
    destruct (jit_index_is_Some T (i + k + m - 2)) as [d ->]; [fold n; lia|].
    simpl. eauto.
Qed.

(** C10. With [excl_zone + 1 <= k <= n - m + 1] and [0 <= i < n - m + 2 - k]
    the indices used at row [i] of the diagonal [k] lie inside the arrays:
    [T] is read between 0 and [i + k + m - 2 <= n - 1], [μ] and [σ] at [i]
    and [i + k - 1] inside [0, n - m], the worker's row of the tables is
    read and written at those same two columns; the turn of the loop, and
    so the walk over any range of such diagonals, runs without an access
    outside an array. *)
Theorem compute_diagonal_in_bounds (nt t : nat) (T : list float) (m : Z)
    (μ σ : list float) (orders : list Z) (a b excl_zone : Z)
    (P : list (list float)) (I : list (list Z)) :
  let n := Z.of_nat (length T) in
  let l := n - m + 1 in
  0 ≤ m → 0 ≤ excl_zone →
  Z.of_nat (length μ) = l → Z.of_nat (length σ) = l →
  shape nt (Z.to_nat l) (P, I) → (t < nt)%nat →
  (∀ idx, a ≤ idx < b →
     ∃ k, jit_index orders idx = Some k ∧ excl_zone + 1 ≤ k ≤ n - m + 1) →
  (∀ k i, excl_zone + 1 ≤ k ≤ n - m + 1 → 0 ≤ i < n - m + 2 - k →
     (0 < i → 0 ≤ i - 1 ∧ 0 ≤ i + k - 2) ∧
     i + m - 1 ≤ i + k + m - 2 ≤ n - 1 ∧
     0 ≤ i ∧ i ≤ i + k - 1 ≤ n - m ∧
     length (py_slice T i (i + m)) = Z.to_nat m ∧
     length (py_slice T (i + k - 1) (i + k - 1 + m)) = Z.to_nat m ∧
     ∀ QT PI, shape nt (Z.to_nat l) PI →
       ∃ st, diagonal_step calc T m μ σ excl_zone (Z.of_nat t) k i (QT, PI)
             = Some st ∧ shape nt (Z.to_nat l) st.2) ∧
  ∃ PI', _compute_diagonal calc T m μ σ orders a b excl_zone (Z.of_nat t) P I
         = Some PI' ∧ shape nt (Z.to_nat l) PI'.
Proof.
  intros n l Hm He Hμ Hσ Hs Ht Hord.
  assert (Hstep : ∀ k i, excl_zone + 1 ≤ k ≤ n - m + 1 → 0 ≤ i < n - m + 2 - k →
            ∀ QT PI, shape nt (Z.to_nat l) PI →
              ∃ st, diagonal_step calc T m μ σ excl_zone (Z.of_nat t) k i (QT, PI)
                    = Some st ∧ shape nt (Z.to_nat l) st.2).
  { intros k i Hk Hi QT PI HPI.
    rewrite (diagonal_step_row nt (Z.to_nat l)) by done.
    destruct (diagonal_distance_in_bounds T m μ σ k i QT) as [QD ->];
      [done|done|done|lia|done|]. simpl.
    destruct (i <? i + k - 1 - excl_zone); [|eauto].
    assert (in_row (Z.to_nat l) i = true) as -> by (apply in_row_spec; lia).
    assert (in_row (Z.to_nat l) (i + k - 1) = true) as ->
      by (apply in_row_spec; lia).
    simpl. eexists. split; [done|]. simpl.
    destruct (shape_row nt (Z.to_nat l) PI t HPI Ht) as (_ & _ & H3 & H4).
    pose proof (best_row_length i QD.2 (i + k - 1) (get_row t PI)) as [L1 L2].
    pose proof (best_row_length (i + k - 1) QD.2 i
                  (best_row i QD.2 (i + k - 1) (get_row t PI))) as [L3 L4].
    apply shape_set_row; [done|lia|lia]. }
  split.
  - intros k i Hk Hi. repeat split; try lia.
    + rewrite py_slice_length by (fold n; lia). f_equal. lia.
    + rewrite py_slice_length by (fold n; lia). f_equal. lia.
    + apply Hstep; done.
  - unfold _compute_diagonal.
    destruct (for_each_inv (λ st, shape nt (Z.to_nat l) st.2)
                (diagonal_walk calc T m μ σ orders excl_zone (Z.of_nat t))
                (py_range a b)) with (s := (F64.nan, (P, I)))
      as (st & Hrun & Hshape); [|done|].
    + intros idx st Hidx Hst. unfold py_range in Hidx.
      apply elem_of_seqZ in Hidx.
      destruct (Hord idx) as (k & Hk & Hkr); [lia|].
      unfold diagonal_walk. rewrite Hk. simpl.
      apply for_each_inv; [|done].
      intros i [QT PI] Hi HPI. unfold py_range in Hi. apply elem_of_seqZ in Hi.
      apply Hstep; [done|fold n; lia|done].
    + rewrite Hrun. simpl. eauto.
Qed.

Lemma apply_cands_app (c1 c2 : list cand) (r : list float * list Z) :
  apply_cands (c1 ++ c2) r = apply_cands c2 (apply_cands c1 r).
Proof. unfold apply_cands. apply foldl_app. Qed.

Lemma apply_cands_length (cs : list cand) (r : list float * list Z) :
  length (apply_cands cs r).1 = length r.1 ∧
  length (apply_cands cs r).2 = length r.2.
Proof.
  revert r. induction cs as [|c cs IH]; intros r; [done|].
  simpl. destruct (IH (best_row c.1.1 c.1.2 c.2 r)) as [H1 H2].
  unfold apply_cands in *. rewrite H1, H2. apply best_row_length.
Qed.

(** The rows of one diagonal, on the worker's row. *)
Lemma diagonal_walk_cands (nt l t : nat) (T : list float) (m : Z)
    (μ σ : list float) (excl_zone k : Z) (rows : list Z) :
  (t < nt)%nat →
  ∀ (QT : float) (PI : list (list float) * list (list Z)),
    shape nt l PI →
    for_each (diagonal_step calc T m μ σ excl_zone (Z.of_nat t) k) rows (QT, PI)
    = r ← diagonal_cands calc T m μ σ excl_zone k l rows QT;
      Some (r.1, set_row t (apply_cands r.2 (get_row t PI)) PI).
Proof.
  intros Ht. induction rows as [|i rows IH]; intros QT PI Hs.
  - simpl. by rewrite (set_get_row nt l).
  - cbn [for_each diagonal_cands].
    rewrite (diagonal_step_row nt l) by done.
    destruct (diagonal_distance calc T m μ σ k i QT) as [[QT' D]|]; [|done].
    cbn [mbind option_bind fst snd].
    destruct (i <? i + k - 1 - excl_zone).
    + destruct (in_row l i && in_row l (i + k - 1)); [|done].
      cbn [mbind option_bind].
      destruct (shape_row nt l PI t Hs Ht) as (_ & _ & H3 & H4).
      pose proof (best_row_length i D (i + k - 1) (get_row t PI)) as [L1 L2].
      pose proof (best_row_length (i + k - 1) D i
                    (best_row i D (i + k - 1) (get_row t PI))) as [L3 L4].
      rewrite IH by (apply shape_set_row; [done|lia|lia]).
      destruct (diagonal_cands calc T m μ σ excl_zone k l rows QT')
        as [[QT'' cs]|]; [|done].
      cbn [mbind option_bind fst snd].
      rewrite (get_set_row nt l), set_set_row by done.
      rewrite apply_cands_app. reflexivity.
    + cbn [mbind option_bind]. rewrite IH by done.
      destruct (diagonal_cands calc T m μ σ excl_zone k l rows QT')
        as [[QT'' cs]|]; reflexivity.
Qed.

Lemma range_walk_cands (nt l t : nat) (T : list float) (m : Z)
    (μ σ : list float) (orders : list Z) (excl_zone : Z) (idxs : list Z) :
  (t < nt)%nat →
  ∀ (QT : float) (PI : list (list float) * list (list Z)),
    shape nt l PI →
    for_each (diagonal_walk calc T m μ σ orders excl_zone (Z.of_nat t)) idxs (QT, PI)
    = r ← range_cands calc T m μ σ orders excl_zone l idxs QT;
      Some (r.1, set_row t (apply_cands r.2 (get_row t PI)) PI).
Proof.
  intros Ht. induction idxs as [|idx idxs IH]; intros QT PI Hs.
  - simpl. by rewrite (set_get_row nt l).
  - cbn [for_each range_cands].
    change (diagonal_walk calc T m μ σ orders excl_zone (Z.of_nat t) idx (QT, PI))
      with (k ← jit_index orders idx;
            for_each (diagonal_step calc T m μ σ excl_zone (Z.of_nat t) k)
              (py_range 0 (Z.of_nat (length T) - m + 2 - k)) (QT, PI)).
    destruct (jit_index orders idx) as [k|]; [|reflexivity].
    cbn [mbind option_bind].
    rewrite (diagonal_walk_cands nt l) by done.
    destruct (diagonal_cands calc T m μ σ excl_zone k l _ QT)
      as [[QT' cs]|]; [|done].
    cbn [mbind option_bind fst snd].
    destruct (shape_row nt l PI t Hs Ht) as (_ & _ & H3 & H4).
    pose proof (apply_cands_length cs (get_row t PI)) as [L1 L2].
    rewrite IH by (apply shape_set_row; [done|lia|lia]).
    destruct (range_cands calc T m μ σ orders excl_zone l idxs QT')
      as [[QT'' cs']|]; [|done].
    cbn [mbind option_bind fst snd].
    rewrite (get_set_row nt l), set_set_row by done.
    by rewrite apply_cands_app.
Qed.

(** *** The candidates do not depend on the value of [QT] on entry *)

Lemma diagonal_cands_QT (T : list float) (m : Z) (μ σ : list float)
    (excl_zone k : Z) (l : nat) (c : Z) (QT QT' : float) :
  (0 < c →
   diagonal_cands calc T m μ σ excl_zone k l (py_range 0 c) QT
   = diagonal_cands calc T m μ σ excl_zone k l (py_range 0 c) QT') ∧
  (c ≤ 0 →
   diagonal_cands calc T m μ σ excl_zone k l (py_range 0 c) QT = Some (QT, [])).
Proof.
  split; intros Hc.
  - rewrite py_range_cons by done. reflexivity.
  - by rewrite py_range_nil.
Qed.

Lemma range_cands_QT (T : list float) (m : Z) (μ σ : list float)
    (orders : list Z) (excl_zone : Z) (l : nat) (idxs : list Z) :
  ∀ QT QT',
    snd <$> range_cands calc T m μ σ orders excl_zone l idxs QT
    = snd <$> range_cands calc T m μ σ orders excl_zone l idxs QT'.
Proof.
  induction idxs as [|idx idxs IH]; intros QT QT'; [done|].
  cbn [range_cands]. destruct (jit_index orders idx) as [k|]; [|done].
  cbn [mbind option_bind].
  set (c := Z.of_nat (length T) - m + 2 - k).
  destruct (diagonal_cands_QT T m μ σ excl_zone k l c QT QT') as [Hpos Hnil].
  destruct (Z.lt_ge_cases 0 c) as [Hc|Hc].
  - by rewrite (Hpos Hc).
  - rewrite (Hnil ltac:(lia)).
    destruct (diagonal_cands_QT T m μ σ excl_zone k l c QT' QT) as [_ Hnil'].
    rewrite (Hnil' ltac:(lia)). cbn [mbind option_bind fst snd].
    specialize (IH QT QT').
    destruct (range_cands calc T m μ σ orders excl_zone l idxs QT) as [[q1 c1]|],
             (range_cands calc T m μ σ orders excl_zone l idxs QT') as [[q2 c2]|];
      simpl in *; congruence.
Qed.

Lemma cands_of_range (T : list float) (m : Z) (μ σ : list float)
    (orders : list Z) (excl_zone : Z) (l : nat) (idxs : list Z) (QT : float) :
  snd <$> range_cands calc T m μ σ orders excl_zone l idxs QT
  = cands_of calc T m μ σ orders excl_zone l idxs.
Proof. apply range_cands_QT. Qed.

Lemma range_cands_app (T : list float) (m : Z) (μ σ : list float)
    (orders : list Z) (excl_zone : Z) (l : nat) (a b : list Z) :
  ∀ QT,
    snd <$> range_cands calc T m μ σ orders excl_zone l (a ++ b) QT
    = c1 ← snd <$> range_cands calc T m μ σ orders excl_zone l a QT;
      c2 ← cands_of calc T m μ σ orders excl_zone l b;
      Some (c1 ++ c2).
Proof.
  induction a as [|idx a IH]; intros QT.
  - simpl. rewrite (cands_of_range _ _ _ _ _ _ _ b QT).
    by destruct (cands_of calc T m μ σ orders excl_zone l b).
  - cbn [app range_cands]. destruct (jit_index orders idx) as [k|]; [|reflexivity].
    cbn [mbind option_bind].
    destruct (diagonal_cands calc T m μ σ excl_zone k l _ QT)
      as [[QT1 cs]|]; [|reflexivity].
    cbn [mbind option_bind fst snd].
    specialize (IH QT1).
    destruct (range_cands calc T m μ σ orders excl_zone l (a ++ b) QT1)
      as [[q1 c1]|],
      (range_cands calc T m μ σ orders excl_zone l a QT1) as [[q2 c2]|];
      cbn [fmap option_fmap option_map mbind option_bind fst snd] in *.
    + destruct (cands_of calc T m μ σ orders excl_zone l b); [|done].
      cbn [mbind option_bind] in *. rewrite <- app_assoc. congruence.
    + done.
    + destruct (cands_of calc T m μ σ orders excl_zone l b); done.
    + done.
Qed.

Lemma cands_of_app (T : list float) (m : Z) (μ σ : list float)
    (orders : list Z) (excl_zone : Z) (l : nat) (a b : list Z) :
  cands_of calc T m μ σ orders excl_zone l (a ++ b)
  = c1 ← cands_of calc T m μ σ orders excl_zone l a;
    c2 ← cands_of calc T m μ σ orders excl_zone l b;
    Some (c1 ++ c2).
Proof. apply range_cands_app. Qed.

(** *** The walk on one column of a row *)

Lemma entry_at_best_row (x : Z) (D : float) (j : Z) (r : list float * list Z)
    (y : nat) :
  length r.1 = length r.2 →
  entry_at (best_row x D j r) y
  = if decide (x = Z.of_nat y) then offer (D, j) <$> entry_at r y
    else entry_at r y.
Proof.
  intros Hlen. unfold best_row, entry_at, offer. simpl.
  destruct (decide (x = Z.of_nat y)) as [->|Hne].
  - rewrite Nat2Z.id. destruct (Z.leb_spec 0 (Z.of_nat y)); [|lia]. simpl.
    destruct (r.1 !! y) as [p|] eqn:Hp; simpl.
    + destruct (lookup_lt_is_Some_2 r.2 y) as [i Hi].
      { rewrite <- Hlen. by eapply lookup_lt_Some. }
      pose proof (lookup_lt_Some _ _ _ Hp) as Hy1.
      pose proof (lookup_lt_Some _ _ _ Hi) as Hy2.
      rewrite Hi. simpl. destruct (F64.ltb D p); simpl.
      * rewrite list_lookup_insert_eq by done. simpl.
        rewrite list_lookup_insert_eq by done. done.
      * by rewrite Hp, Hi.
    + assert (F64.ltb D F64.nan = false) as -> by (by destruct D).
      by rewrite Hp.
  - destruct (_ && _) eqn:Hg; [|done]. simpl.
    apply andb_true_iff in Hg as [Hx _]. apply Z.leb_le in Hx.
    rewrite !list_lookup_insert_ne by lia. done.
Qed.

End WalkerProps.

(** ** The reduction of the worker tables *)

Section ReductionProps.

Lemma offer_notnan (c e : float * Z) :
  F64.isnan e.1 = false → F64.isnan (offer c e).1 = false.
Proof.
  intros He. unfold offer. destruct (F64.ltb c.1 e.1) eqn:Hlt; [|done].
  by eapply ltb_notnan_l.
Qed.

(** Offering [c] to [s] and the outcome to [e] is offering [s], then [c],
    to [e]: the order of the offers is kept. *)
Lemma offer_offer (c s e : float * Z) :
  F64.isnan s.1 = false → offer (offer c s) e = offer c (offer s e).
Proof.
  intros Hs. unfold offer.
  destruct (F64.ltb c.1 s.1) eqn:Hcs, (F64.ltb s.1 e.1) eqn:Hse; simpl;
    rewrite ?Hcs, ?Hse; try done.
  - by rewrite (ltb_trans _ _ _ Hcs Hse).
  - destruct (F64.ltb c.1 e.1) eqn:Hce; [|done].
    destruct (ltb_cotrans c.1 s.1 e.1 Hs Hce); congruence.
Qed.

Lemma offer_all_notnan (cs : list cand) (y : Z) (e : float * Z) :
  F64.isnan e.1 = false → F64.isnan (offer_all cs y e).1 = false.
Proof.
  revert e. induction cs as [|c cs IH]; intros e He; [done|].
  simpl. apply IH. destruct (decide _); [by apply offer_notnan|done].
Qed.

Lemma offer_all_offer (cs : list cand) (y : Z) (s e : float * Z) :
  F64.isnan s.1 = false →
  offer (offer_all cs y s) e = offer_all cs y (offer s e).
Proof.
  revert s e. induction cs as [|c cs IH]; intros s e Hs; [done|].
  simpl. destruct (decide (c.1.1 = y)).
  - rewrite IH by (by apply offer_notnan). by rewrite offer_offer.
  - by apply IH.
Qed.

Lemma offer_inf (l : nat) (e : float * Z) : offer (F64.inf, -1) e = e.
Proof. unfold offer. simpl. by rewrite ltb_inf_r. Qed.

Lemma offer_all_app (c1 c2 : list cand) (y : Z) (e : float * Z) :
  offer_all (c1 ++ c2) y e = offer_all c2 y (offer_all c1 y e).
Proof. unfold offer_all. apply foldl_app. Qed.

Lemma entry_at_apply_cands (cs : list cand) (r : list float * list Z) (y : nat) :
  length r.1 = length r.2 →
  entry_at (apply_cands cs r) y = offer_all cs (Z.of_nat y) <$> entry_at r y.
Proof.
  revert r. induction cs as [|c cs IH]; intros r Hlen.
  - simpl. by destruct (entry_at r y).
  - pose proof (best_row_length c.1.1 c.1.2 c.2 r) as [L1 L2].
    change (apply_cands (c :: cs) r)
      with (apply_cands cs (best_row c.1.1 c.1.2 c.2 r)).
    rewrite IH by lia. rewrite entry_at_best_row by done.
    destruct (entry_at r y) as [e|]; [|by destruct (decide _)].
    destruct c as [[x D] j]. simpl.
    destruct (decide (x = Z.of_nat y)); done.
Qed.

Lemma row_ext (l : nat) (r r' : list float * list Z) :
  length r.1 = l → length r.2 = l → length r'.1 = l → length r'.2 = l →
  (∀ y, (y < l)%nat → entry_at r y = entry_at r' y) → r = r'.
Proof.
  intros H1 H2 H3 H4 Hext. destruct r as [P I], r' as [P' I']. simpl in *.
  assert (∀ y, P !! y = P' !! y ∧ I !! y = I' !! y) as Hy.
  { intros y. destruct (decide (y < l)%nat) as [Hlt|Hge].
    - specialize (Hext y Hlt). unfold entry_at in Hext. simpl in Hext.
      destruct (lookup_lt_is_Some_2 P y) as [p Hp]; [lia|].
      destruct (lookup_lt_is_Some_2 I y) as [i Hi]; [lia|].
      destruct (lookup_lt_is_Some_2 P' y) as [p' Hp']; [lia|].
      destruct (lookup_lt_is_Some_2 I' y) as [i' Hi']; [lia|].
      rewrite Hp, Hi, Hp', Hi' in *. simpl in Hext. split; congruence.
    - rewrite !lookup_ge_None_2 by lia. done. }
  f_equal; apply list_eq; intros y; apply Hy.
Qed.

Lemma entry_at_init_row (l y : nat) :
  (y < l)%nat → entry_at (init_row l) y = Some (F64.inf, -1).
Proof.
  intros Hy. unfold entry_at, init_row. simpl.
  rewrite !lookup_replicate_2 by done. done.
Qed.

Lemma offer_all_other (S : list float * list Z) (idxs : list Z) (y : Z)
    (e : float * Z) :
  y ∉ idxs →
  offer_all ((λ i, (i, default F64.nan (S.1 !! Z.to_nat i),
                    default 0 (S.2 !! Z.to_nat i))) <$> idxs) y e = e.
Proof.
  revert e. induction idxs as [|i idxs IH]; intros e Hy; [done|].
  simpl. apply not_elem_of_cons in Hy as [Hne Hy].
  destruct (decide (i = y)); [congruence|]. by apply IH.
Qed.

(** Offering a whole row column by column offers its entry at [y] to
    column [y]. *)
Lemma offer_all_row_cands (S : list float * list Z) (l y : nat) (s e : float * Z) :
  (y < l)%nat → entry_at S y = Some s →
  offer_all (row_cands S (Z.of_nat l)) (Z.of_nat y) e = offer s e.
Proof.
  intros Hy Hs. unfold row_cands.
  rewrite (py_range_app 0 (Z.of_nat y) (Z.of_nat l)) by lia.
  rewrite (py_range_cons (Z.of_nat y)) by lia.
  rewrite fmap_app, fmap_cons, offer_all_app.
  rewrite (offer_all_other S (py_range 0 (Z.of_nat y)))
    by (unfold py_range; rewrite elem_of_seqZ; lia).
  change (offer_all (?c :: ?cs) ?y ?e)
    with (offer_all cs y (if decide (c.1.1 = y) then offer (c.1.2, c.2) e else e)).
  rewrite (offer_all_other S (py_range (Z.of_nat y + 1) (Z.of_nat l)))
    by (unfold py_range; rewrite elem_of_seqZ; lia).
  simpl. destruct (decide (Z.of_nat y = Z.of_nat y)); [|done].
  unfold entry_at in Hs. rewrite Nat2Z.id.
  destruct (S.1 !! y) as [p|]; [|done]. simpl in Hs.
  destruct (S.2 !! y) as [i|]; [|done]. simpl in Hs.
  by inversion Hs.
Qed.

(** Reducing the row obtained from the initial row by [cs] into a row [R]
    is applying [cs] to [R]. *)
Lemma reduce_absorb (cs : list cand) (R : list float * list Z) (l : nat) :
  length R.1 = l → length R.2 = l →
  apply_cands (row_cands (apply_cands cs (init_row l)) (Z.of_nat l)) R
  = apply_cands cs R.
Proof.
  intros H1 H2.
  pose proof (apply_cands_length cs (init_row l)) as [L1 L2].
  assert (length (init_row l).1 = l ∧ length (init_row l).2 = l) as [L0 L0']
    by (unfold init_row; simpl; by rewrite !length_replicate).
  pose proof (apply_cands_length cs R) as [L3 L4].
  pose proof (apply_cands_length
                (row_cands (apply_cands cs (init_row l)) (Z.of_nat l)) R) as [L5 L6].
  apply (row_ext l); try lia.
  intros y Hy. rewrite !entry_at_apply_cands by lia.
  destruct (entry_at R y) as [e|] eqn:He; [|done]. simpl. f_equal.
  assert (Hs : entry_at (apply_cands cs (init_row l)) y
               = Some (offer_all cs (Z.of_nat y) (F64.inf, -1))).
  { rewrite entry_at_apply_cands by lia. by rewrite entry_at_init_row. }
  rewrite (offer_all_row_cands _ l y _ e Hy Hs).
  rewrite offer_all_offer by done. by rewrite (offer_inf l).
Qed.

End ReductionProps.

(** ** The parallel round *)

Section ScrimpProps.
Variable calc : Z → float → float → float → float → float → float.
Variables (T : list float) (m : Z) (μ σ : list float) (orders : list Z).
Variables (excl_zone : Z) (nt l : nat).

#[local] Abbreviation init := (init_row l).

Lemma get_row_other (PI : list (list float) * list (list Z)) (t t' : nat)
    (r : list float * list Z) :
  t ≠ t' → get_row t' (set_row t r PI) = get_row t' PI.
Proof.
  intros Hne. unfold get_row, set_row. simpl.
  by rewrite !list_lookup_insert_ne.
Qed.

Lemma init_row_length : length init.1 = l ∧ length init.2 = l.
Proof. unfold init_row. simpl. by rewrite !length_replicate. Qed.

Lemma shape_apply (PI : list (list float) * list (list Z)) (t : nat)
    (cs : list cand) (r : list float * list Z) :
  shape nt l PI → length r.1 = l → length r.2 = l →
  shape nt l (set_row t (apply_cands cs r) PI).
Proof.
  intros Hs H1 H2. pose proof (apply_cands_length cs r) as [L1 L2].
  apply shape_set_row; [done|lia|lia].
Qed.

(** [_compute_diagonal] by worker [t]: its candidates, applied to its row. *)
Lemma compute_diagonal_cands (t : nat) (a b : Z)
    (PI : list (list float) * list (list Z)) :
  shape nt l PI → (t < nt)%nat →
  _compute_diagonal calc T m μ σ orders a b excl_zone (Z.of_nat t) PI.1 PI.2
  = cs ← cands_of calc T m μ σ orders excl_zone l (py_range a b);
    Some (set_row t (apply_cands cs (get_row t PI)) PI).
Proof.
  intros Hs Ht. unfold _compute_diagonal.
  replace (PI.1, PI.2) with PI by (by destruct PI).
  rewrite (range_walk_cands calc nt l) by done.
  rewrite <- (cands_of_range calc _ _ _ _ _ _ _ _ F64.nan).
  by destruct (range_cands calc T m μ σ orders excl_zone l (py_range a b) F64.nan)
    as [[QT cs]|].
Qed.

(** The reduction of column [i] of row [t] into row 0. *)
Lemma reduce_step_row (t : nat) (i : Z) (PI : list (list float) * list (list Z)) :
  shape nt l PI → (0 < t < nt)%nat → 0 ≤ i < Z.of_nat l →
  reduce_step (Z.of_nat t) i PI
  = Some (set_row 0
            (best_row i (default F64.nan ((get_row t PI).1 !! Z.to_nat i))
               (default 0 ((get_row t PI).2 !! Z.to_nat i)) (get_row 0 PI)) PI).
Proof.
  intros Hs Ht Hi.
  destruct (shape_row nt l PI 0 Hs ltac:(lia)) as (H1 & H2 & H3 & H4).
  destruct (shape_row nt l PI t Hs ltac:(lia)) as (G1 & G2 & G3 & G4).
  unfold reduce_step. change 0 with (Z.of_nat 0).
  rewrite (get2_shape _ _ _ _ H1), (get2_shape _ _ _ _ G1).
  rewrite !jit_index_in_range by lia.
  destruct (lookup_lt_is_Some_2 (get_row 0 PI).1 (Z.to_nat i)) as [p0 Hp0]; [lia|].
  destruct (lookup_lt_is_Some_2 (get_row t PI).1 (Z.to_nat i)) as [pt Hpt]; [lia|].
  destruct (lookup_lt_is_Some_2 (get_row t PI).2 (Z.to_nat i)) as [it Hit]; [lia|].
  rewrite Hp0, Hpt, Hit. cbn [mbind option_bind from_option id].
  unfold best_row. rewrite Hp0. cbn [from_option id].
  destruct (Z.leb_spec 0 i); [|lia]. cbn [andb].
  unfold F64.gtb. fold (F64.ltb pt p0). destruct (F64.ltb pt p0).
  - rewrite (set2_shape _ _ _ _ _ H1) by lia. cbn [mbind option_bind].
    rewrite (get2_shape _ _ _ _ G2).
    rewrite jit_index_in_range by lia. rewrite Hit. cbn [mbind option_bind].
    rewrite (set2_shape _ _ _ _ _ H2) by lia. done.
  - rewrite (set_get_row nt l) by (done || lia). by destruct PI.
Qed.

Lemma reduce_loop (t : nat) (cols : list Z) :
  (0 < t < nt)%nat → Forall (λ i, 0 ≤ i < Z.of_nat l) cols →
  ∀ PI, shape nt l PI →
    for_each (reduce_step (Z.of_nat t)) cols PI
    = Some (set_row 0
              (apply_cands
                 ((λ i, (i, default F64.nan ((get_row t PI).1 !! Z.to_nat i),
                         default 0 ((get_row t PI).2 !! Z.to_nat i))) <$> cols)
                 (get_row 0 PI)) PI).
Proof.
  intros Ht. induction cols as [|i cols IH]; intros Hcols PI Hs.
  - simpl. rewrite (set_get_row nt l) by (done || lia). done.
  - inversion Hcols as [|? ? Hi Hcols']; subst.
    cbn [for_each]. rewrite reduce_step_row by done. cbn [mbind option_bind].
    destruct (shape_row nt l PI 0 Hs ltac:(lia)) as (_ & _ & H3 & H4).
    set (r' := best_row i _ _ (get_row 0 PI)).
    pose proof (best_row_length i
                  (default F64.nan ((get_row t PI).1 !! Z.to_nat i))
                  (default 0 ((get_row t PI).2 !! Z.to_nat i)) (get_row 0 PI))
      as [L1 L2]. fold r' in L1, L2.
    rewrite IH; [|done|apply shape_set_row; [done|lia|lia]].
    rewrite (get_row_other _ 0 t) by lia.
    rewrite (get_set_row nt l) by (done || lia).
    rewrite set_set_row. done.
Qed.

(** Row [t] is reduced into row 0 as a list of candidates. *)
Lemma reduce_thread (t : nat) (PI : list (list float) * list (list Z)) :
  (0 < t < nt)%nat → shape nt l PI →
  for_each (reduce_step (Z.of_nat t)) (py_range 0 (Z.of_nat l)) PI
  = Some (set_row 0
            (apply_cands (row_cands (get_row t PI) (Z.of_nat l)) (get_row 0 PI))
            PI).
Proof.
  intros Ht Hs. apply reduce_loop; [done| |done].
  apply Forall_forall. intros i Hi. unfold py_range in Hi.
  apply elem_of_seqZ in Hi. lia.
Qed.

Variable ranges : list (Z * Z).

#[local] Abbreviation tables0 :=
  (replicate nt (replicate l F64.inf), replicate nt (replicate l (-1))).
#[local] Abbreviation par_body :=
  (λ (thread_idx : Z) (PI : list (list float) * list (list Z)),
     r ← jit_index ranges thread_idx;
     _compute_diagonal calc T m μ σ orders r.1 r.2 excl_zone thread_idx PI.1 PI.2).
#[local] Abbreviation red_body :=
  (λ (thread_idx : Z) (PI : list (list float) * list (list Z)),
     for_each (reduce_step thread_idx) (py_range 0 (Z.of_nat l)) PI).
#[local] Abbreviation cands_upto :=
  (all_cands calc T m μ σ orders ranges excl_zone l).

Lemma jit_index_nat {A} (a : list A) (t : nat) : jit_index a (Z.of_nat t) = a !! t.
Proof.
  unfold jit_index. destruct (Z.leb_spec 0 (Z.of_nat t)); [|lia].
  destruct (Z.ltb_spec (Z.of_nat t) (Z.of_nat (length a))); simpl.
  - by rewrite Nat2Z.id.
  - symmetry. apply lookup_ge_None_2. lia.
Qed.

Lemma tables0_shape : shape nt l tables0.
Proof.
  unfold shape. simpl. rewrite !length_replicate. repeat split.
  - apply Forall_replicate. by rewrite length_replicate.
  - apply Forall_replicate. by rewrite length_replicate.
Qed.

Lemma tables0_row (t : nat) : (t < nt)%nat → get_row t tables0 = init.
Proof.
  intros Ht. unfold get_row. simpl. by rewrite !lookup_replicate_2.
Qed.

(** After the workers [0 .. j-1] have run, each of their rows holds its
    candidates applied to the initial row; the other rows are untouched. *)
Lemma par_phase (j : nat) :
  (j ≤ nt)%nat →
  match cands_upto j with
  | None => for_each par_body (py_range 0 (Z.of_nat j)) tables0 = None
  | Some csl =>
      ∃ PI, for_each par_body (py_range 0 (Z.of_nat j)) tables0 = Some PI ∧
            shape nt l PI ∧ length csl = j ∧
            (∀ t cs, csl !! t = Some cs → get_row t PI = apply_cands cs init) ∧
            (∀ t, (j ≤ t < nt)%nat → get_row t PI = init)
  end.
Proof.
  induction j as [|j IH]; intros Hj.
  - simpl. exists tables0. split; [done|]. split; [apply tables0_shape|].
    split; [done|]. split; [done|]. intros t Ht. apply tables0_row. lia.
  - specialize (IH ltac:(lia)).
    replace (Z.of_nat (S j)) with (Z.of_nat j + 1) by lia.
    rewrite (py_range_snoc 0 (Z.of_nat j)), for_each_app by lia.
    cbn [all_cands].
    destruct (cands_upto j) as [csl|]; [|by rewrite IH].
    destruct IH as (PI & -> & Hs & Hlen & Hdone & Hrest).
    cbn [mbind option_bind for_each].
    rewrite jit_index_nat. unfold thread_cands.
    destruct (ranges !! j) as [r|]; [|done]. cbn [mbind option_bind].
    rewrite compute_diagonal_cands by (done || lia).
    destruct (cands_of calc T m μ σ orders excl_zone l (py_range r.1 r.2))
      as [cs|]; [|done].
    cbn [mbind option_bind]. eexists. split; [done|].
    pose proof init_row_length as [L1 L2].
    rewrite (Hrest j) by lia.
    split; [by apply shape_apply|]. split; [rewrite length_app; simpl; lia|].
    split.
    + intros t cs' Ht. destruct (decide (t = j)) as [->|Hne].
      * rewrite (get_set_row nt l) by (done || lia).
        rewrite lookup_app_r, Hlen, Nat.sub_diag in Ht by lia.
        simpl in Ht. congruence.
      * rewrite get_row_other by done. apply Hdone.
        apply lookup_lt_Some in Ht as Hlt. rewrite length_app in Hlt. simpl in Hlt.
        rewrite lookup_app_l in Ht by lia. done.
    + intros t Ht. rewrite get_row_other by lia. apply Hrest. lia.
Qed.

(** After the rows [1 .. j-1] have been reduced, row 0 holds the
    candidates of the workers [0 .. j-1], in that order, applied to the
    initial row. *)
Lemma red_phase (csl : list (list cand)) (PI : list (list float) * list (list Z)) :
  shape nt l PI → length csl = nt →
  (∀ t cs, csl !! t = Some cs → get_row t PI = apply_cands cs init) →
  ∀ j, (j < nt)%nat →
    ∃ PI', for_each red_body (py_range 1 (Z.of_nat (S j))) PI = Some PI' ∧
           shape nt l PI' ∧
           get_row 0 PI' = apply_cands (concat (take (S j) csl)) init ∧
           (∀ t, (0 < t < nt)%nat → get_row t PI' = get_row t PI).
Proof.
  intros Hs Hlen Hrows. induction j as [|j IH]; intros Hj.
  - rewrite (py_range_nil 1 (Z.of_nat 1)) by lia.
    exists PI. split; [done|]. split; [done|]. split; [|done].
    destruct (lookup_lt_is_Some_2 csl 0) as [cs0 H0]; [lia|].
    rewrite (take_S_r _ _ _ H0). simpl. rewrite app_nil_r. by apply Hrows.
  - destruct (IH ltac:(lia)) as (PI1 & Hrun & Hs1 & Hrow0 & Hother).
    replace (Z.of_nat (S (S j))) with (Z.of_nat (S j) + 1) by lia.
    rewrite (py_range_snoc 1 (Z.of_nat (S j))), for_each_app by lia.
    rewrite Hrun.
    cbn [mbind option_bind for_each].
    rewrite reduce_thread by (done || lia). cbn [mbind option_bind].
    destruct (lookup_lt_is_Some_2 csl (S j)) as [cs Hcs]; [lia|].
    rewrite Hother, (Hrows _ _ Hcs), Hrow0 by lia.
    pose proof init_row_length as [L1 L2].
    pose proof (apply_cands_length (concat (take (S j) csl)) init) as [L3 L4].
    rewrite reduce_absorb by lia.
    eexists. split; [done|]. split; [apply shape_apply; [done|lia|lia]|].
    split.
    + rewrite (get_set_row nt l) by (done || lia).
      rewrite (take_S_r _ _ _ Hcs), concat_app, apply_cands_app. simpl.
      by rewrite app_nil_r.
    + intros t Ht. rewrite get_row_other by lia. by apply Hother.
Qed.

Lemma visited_snoc (rs : list (Z * Z)) (r : Z * Z) :
  visited (rs ++ [r]) = visited rs ++ py_range r.1 r.2.
Proof.
  unfold visited. rewrite fmap_app, concat_app. simpl. by rewrite app_nil_r.
Qed.

(** The candidates of the workers, one after the other, are those of one
    walk over the order indices they visit. *)
Lemma visited_cands (j : nat) :
  (j ≤ length ranges)%nat →
  cands_of calc T m μ σ orders excl_zone l (visited (take j ranges))
  = csl ← cands_upto j; Some (concat csl).
Proof.
  induction j as [|j IH]; intros Hj; [done|].
  destruct (lookup_lt_is_Some_2 ranges j) as [r Hr]; [lia|].
  rewrite (take_S_r _ _ _ Hr), visited_snoc, cands_of_app, IH by lia.
  cbn [all_cands]. unfold thread_cands. rewrite Hr. cbn [mbind option_bind].
  destruct (cands_upto j) as [csl|]; [|done]. cbn [mbind option_bind].
  destruct (cands_of calc T m μ σ orders excl_zone l (py_range r.1 r.2))
    as [cs|]; [|done].
  cbn [mbind option_bind]. rewrite concat_app. simpl. by rewrite app_nil_r.
Qed.

End ScrimpProps.

Section ReductionCorrect.
Variable calc : Z → float → float → float → float → float → float.

(** [_scrimp]: the candidates along the visited order indices, applied to
    one initial row. *)
Lemma scrimp_as_cands (n_threads : Z) (T : list float) (m : Z) (μ σ : list float)
    (orders : list Z) (ranges : list (Z * Z)) (excl_zone : Z) :
  let l := Z.of_nat (length T) - m + 1 in
  1 ≤ n_threads → Z.of_nat (length ranges) = n_threads → 0 ≤ l →
  _scrimp calc n_threads T m μ σ orders ranges excl_zone
  = cs ← cands_of calc T m μ σ orders excl_zone (Z.to_nat l) (visited ranges);
    let row := apply_cands cs (init_row (Z.to_nat l)) in
    Some (F64.sqrt <$> row.1, row.2).
Proof.
  intros l Hn Hlen Hl. unfold _scrimp. fold l.
  destruct (Z.ltb_spec l 0); [lia|].
  destruct (Z.ltb_spec n_threads 0); [lia|]. cbn [orb].
  set (nt := Z.to_nat n_threads). set (ln := Z.to_nat l).
  replace n_threads with (Z.of_nat nt) by lia.
  assert (Hln : l = Z.of_nat ln) by lia. clearbody ln. clearbody l. subst l.
  pose proof (par_phase calc T m μ σ orders excl_zone nt ln ranges nt
                (Nat.le_refl _)) as Hpar.
  pose proof (visited_cands calc T m μ σ orders excl_zone ln ranges nt
                ltac:(lia)) as Hvis.
  rewrite firstn_all2 in Hvis by lia. rewrite Hvis.
  destruct (all_cands calc T m μ σ orders ranges excl_zone ln nt) as [csl|].
  - destruct Hpar as (PI & -> & Hs & Hcsl & Hrows & _).
    cbn [mbind option_bind].
    destruct (red_phase nt ln csl PI Hs Hcsl Hrows (nt - 1)) as
      (PI' & Hred & Hs' & Hrow0 & _); [lia|].
    replace (Z.of_nat (S (nt - 1))) with (Z.of_nat nt) in Hred by lia.
    rewrite Hred. cbn [mbind option_bind].
    destruct (shape_row nt ln PI' 0 Hs' ltac:(lia)) as (H1 & H2 & _).
    change 0 with (Z.of_nat 0). rewrite !jit_index_nat, H1, H2.
    cbn [mbind option_bind]. rewrite Hrow0.
    replace (S (nt - 1)) with nt by lia. rewrite firstn_all2 by lia. done.
  - by rewrite Hpar.
Qed.

(** C2, for worker ranges given in worker order. When the order indices
    visited by workers 0, 1, 2, ... one after the other (empty ranges
    anywhere) are exactly [lo, lo+1, ..., hi-1], the profile and the indices
    returned by [_scrimp] with [n_threads] workers are those returned with a
    single worker walking [lo, hi): [(sqrt(P_0), I_0)] in both cases. *)
Theorem scrimp_reduction_ordered (n_threads : Z) (T : list float) (m : Z)
    (μ σ : list float) (orders : list Z) (ranges : list (Z * Z))
    (excl_zone lo hi : Z) :
  1 ≤ n_threads → Z.of_nat (length ranges) = n_threads →
  visited ranges = py_range lo hi →
  _scrimp calc n_threads T m μ σ orders ranges excl_zone
  = _scrimp calc 1 T m μ σ orders [(lo, hi)] excl_zone.
Proof.
  intros Hn Hlen Hvis.
  destruct (Z.lt_ge_cases (Z.of_nat (length T) - m + 1) 0) as [Hneg|Hl].
  - unfold _scrimp. destruct (Z.ltb_spec (Z.of_nat (length T) - m + 1) 0); [done|lia].
  - rewrite !scrimp_as_cands by (done || lia).
    rewrite Hvis. unfold visited. simpl. by rewrite app_nil_r.
Qed.

End ReductionCorrect.

(** ** The generator *)

Section GeneratorProps.
Variable calc : Z → float → float → float → float → float → float.
Variable mass : list float → list float → list float → list float → list float.
Variable compute_mean_std : list float → Z → list float * list float.

Lemma py_index_Some {A} (a : list A) (i : Z) (x : A) :
  py_index a i = Some x →
  ∃ k, a !! k = Some x ∧
       ∀ (b : list A) y, length b = length a → py_set b i y = Some (<[k := y]> b).
Proof.
  unfold py_index, py_set. intros H.
  destruct ((0 <=? i) && (i <? Z.of_nat (length a))) eqn:H1.
  - eexists. split; [done|]. intros b y ->. by rewrite H1.
  - destruct ((- Z.of_nat (length a) <=? i) && (i <? 0)) eqn:H2; [|done].
    eexists. split; [done|]. intros b y ->. by rewrite H1, H2.
Qed.

Lemma improves_refl (out : list (float * Z)) : improves out out.
Proof. split; [done|]. eauto. Qed.

Lemma improves_trans (o1 o2 o3 : list (float * Z)) :
  improves o1 o2 → improves o2 o3 → improves o1 o3.
Proof.
  intros [L12 H12] [L23 H23]. split; [congruence|].
  intros y a Ha. destruct (H12 y a Ha) as (b & Hb & Hab).
  destruct (H23 y b Hb) as (c & Hc & Hbc). exists c. split; [done|].
  destruct Hab as [->|Hab], Hbc as [->|Hbc]; eauto.
  right. by eapply ltb_trans.
Qed.

Lemma improves_insert (out : list (float * Z)) (k : nat) (o b : float * Z) :
  out !! k = Some o → F64.ltb b.1 o.1 = true → improves out (<[k := b]> out).
Proof.
  intros Ho Hlt. split; [by rewrite length_insert|].
  intros y a Ha. destruct (decide (y = k)) as [->|Hne].
  - exists b. rewrite list_lookup_insert_eq by (by eapply lookup_lt_Some).
    split; [done|]. right. congruence.
  - exists a. rewrite list_lookup_insert_ne by done. eauto.
Qed.

Lemma improves_clean (out out' : list (float * Z)) :
  improves out out' → clean out → clean out'.
Proof.
  intros [Hlen Himp] Hc. unfold clean in *. rewrite Forall_lookup in *.
  intros y b Hb.
  destruct (lookup_lt_is_Some_2 out y) as [a Ha].
  { rewrite <- Hlen. by eapply lookup_lt_Some. }
  destruct (Himp y a Ha) as (b' & Hb' & Hor).
  assert (b' = b) as -> by congruence.
  destruct Hor as [->|Hlt]; [by eapply Hc|by eapply ltb_notnan_l].
Qed.

Lemma merge_step_improves (P : list float) (I : list Z) (i : Z)
    (out out' : list (float * Z)) :
  merge_step P I i out = Some out' → improves out out'.
Proof.
  unfold merge_step. intros H.
  destruct (py_index out i) as [o|] eqn:Ho; [|done]. simpl in H.
  destruct (py_index P i) as [p|]; [|done]. simpl in H.
  destruct (F64.gtb o.1 p) eqn:Hgt; [|inversion H; apply improves_refl].
  destruct (py_index_Some _ _ _ Ho) as (k & Hk & Hset).
  rewrite Hset in H by done. simpl in H.
  destruct (py_index I i) as [x|]; [|done]. simpl in H.
  rewrite Hset in H by (by rewrite length_insert).
  inversion H. rewrite list_insert_insert_eq.
  by apply (improves_insert out k o (p, x)).
Qed.

Lemma merge_out_improves (count : Z) (P : list float) (I : list Z)
    (out out' : list (float * Z)) :
  merge_out count P I out = Some out' → improves out out'.
Proof.
  unfold merge_out. generalize (py_range 0 count). intros idxs. revert out.
  induction idxs as [|i idxs IH]; intros out H; simpl in H.
  - inversion H. apply improves_refl.
  - destruct (merge_step P I i out) as [out1|] eqn:H1; [|done]. simpl in H.
    eapply improves_trans; [by eapply merge_step_improves|by apply IH].
Qed.

Lemma clean_init (l : nat) : clean (replicate l (F64.inf, -1)).
Proof. apply Forall_replicate. done. Qed.

(** A generator starts with [out] allocated, free of NaN, at round 0. *)
Lemma scrimp_created (n_threads : Z) (orders samples : list Z) (T : list float)
    (m : Z) (percentage : float) (prescrimp : bool) (s : option Z) (h : store)
    (g0 : scrimp_gen) (h0 : store) :
  scrimp calc mass compute_mean_std n_threads orders samples T m percentage
    prescrimp s h = Some (g0, h0) →
  gen_round g0 = 0 ∧ ∃ out, h0 !! gen_out g0 = Some out ∧ clean out.
Proof.
  unfold scrimp. intros H.
  destruct (m <=? 2); [done|].
  destruct (_ <? 0); [done|].
  match type of H with
  | (?pre ≫= _) = _ => destruct pre as [out|] eqn:Hout; [|done]
  end.
  cbn [mbind option_bind] in H.
  destruct (F64.eqb _ F64.zero); [done|].
  destruct (F64.ceil _) as [rounds|]; [|done]. cbn [mbind option_bind] in H.
  inversion H; subst; clear H. simpl. split; [done|].
  exists out. rewrite lookup_insert_eq. split; [done|].
  destruct prescrimp.
  - destruct (_prescrimp _ _ _ _ _ _ _ _) as [PI|]; [|done]. simpl in Hout.
    eapply improves_clean; [by eapply merge_out_improves|apply clean_init].
  - inversion Hout. apply clean_init.
Qed.

(** A round keeps the reference held in [out] and overwrites the array
    behind it with an improved one. *)
Lemma scrimp_round_spec (g g1 : scrimp_gen) (h h1 : store) :
  scrimp_round calc g h = Some (g1, h1) →
  gen_out g1 = gen_out g ∧ gen_rounds g1 = gen_rounds g ∧
  gen_round g1 = gen_round g + 1 ∧
  ∃ out0 out1, h !! gen_out g = Some out0 ∧
               h1 = <[gen_out g := out1]> h ∧ improves out0 out1.
Proof.
  unfold scrimp_round. intros H.
  destruct (_get_orders_ranges _ _ _ _ _ _) as [rs|]; [|done]. simpl in H.
  destruct (_scrimp _ _ _ _ _ _ _ _ _) as [PI|]; [|done]. simpl in H.
  destruct rs as [|r rs]; [done|]. simpl in H.
  destruct (h !! gen_out g) as [out0|] eqn:Hout0; [|done]. simpl in H.
  destruct (merge_out _ _ _ out0) as [out1|] eqn:Hm; [|done]. simpl in H.
  inversion H; subst; clear H. simpl.
  split; [done|]. split; [done|]. split; [done|].
  exists out0, out1. split; [done|]. split; [done|].
  by eapply merge_out_improves.
Qed.

Lemma yields_S (fuel : nat) (g : scrimp_gen) (h : store) (y : loc * store)
    (ys : list (loc * store)) :
  yields calc (S fuel) g h = y :: ys →
  ∃ g1, gen_round g < gen_rounds g ∧
        scrimp_round calc g h = Some (g1, y.2) ∧ y.1 = gen_out g1 ∧
        ys = yields calc fuel g1 y.2.
Proof.
  simpl. unfold scrimp_next.
  destruct (Z.leb_spec (gen_rounds g) (gen_round g)) as [|Hlt]; [done|].
  destruct (scrimp_round calc g h) as [[g1 h1]|]; [|done].
  intros Heq. inversion Heq; subst. exists g1. done.
Qed.

Lemma yields_length (fuel : nat) (g : scrimp_gen) (h : store) :
  (length (yields calc fuel g h) ≤ Z.to_nat (gen_rounds g - gen_round g))%nat.
Proof.
  revert g h. induction fuel as [|fuel IH]; intros g h; [simpl; lia|].
  destruct (yields calc (S fuel) g h) as [|y ys] eqn:Hy; [simpl; lia|].
  apply yields_S in Hy as (g1 & Hlt & Hround & _ & ->).
  apply scrimp_round_spec in Hround as (_ & Hr & Hk & _).
  specialize (IH g1 y.2). simpl. rewrite Hr, Hk in IH. lia.
Qed.

Lemma yields_refs (fuel : nat) (g : scrimp_gen) (h : store) :
  Forall (λ y, y.1 = gen_out g) (yields calc fuel g h).
Proof.
  revert g h. induction fuel as [|fuel IH]; intros g h; [constructor|].
  destruct (yields calc (S fuel) g h) as [|y ys] eqn:Hy; [constructor|].
  apply yields_S in Hy as (g1 & Hlt & Hround & Hy1 & ->).
  apply scrimp_round_spec in Hround as (Ho & _).
  constructor; [congruence|]. rewrite <- Ho. apply IH.
Qed.

(** Two successive items: the same reference, and behind it an array that
    the later round has overwritten with an improved one. *)
Lemma yields_consecutive (fuel : nat) :
  ∀ (g : scrimp_gen) (h : store) (out : list (float * Z)),
    h !! gen_out g = Some out → clean out →
    ∀ r y0 y1,
      yields calc fuel g h !! r = Some y0 →
      yields calc fuel g h !! S r = Some y1 →
      ∃ o0 o1, y0.2 !! gen_out g = Some o0 ∧ clean o0 ∧
               y1.2 = <[gen_out g := o1]> y0.2 ∧ improves o0 o1.
Proof.
  induction fuel as [|fuel IH]; intros g h out Hout Hclean r y0 y1 H0 H1;
    [done|].
  destruct (yields calc (S fuel) g h) as [|y ys] eqn:Hy; [done|].
  apply yields_S in Hy as (g1 & Hlt & Hround & Hy1 & ->).
  apply scrimp_round_spec in Hround
    as (Ho & _ & _ & out0 & out1 & Hout0 & Hh1 & Himp).
  assert (out0 = out) as -> by congruence.
  assert (Hc1 : clean out1) by (by eapply improves_clean).
  assert (Hl1 : y.2 !! gen_out g1 = Some out1)
    by (rewrite Hh1, Ho; apply lookup_insert_eq).
  destruct r as [|r]; simpl in H0, H1.
  - inversion H0; subst y0. destruct fuel as [|fuel]; [done|].
    destruct (yields calc (S fuel) g1 y.2) as [|y' ys'] eqn:Hy'; [done|].
    simpl in H1. inversion H1; subst y'.
    apply yields_S in Hy' as (g2 & _ & Hround2 & _ & _).
    apply scrimp_round_spec in Hround2
      as (_ & _ & _ & o0 & o1 & Ho0 & Hh2 & Himp2).
    assert (o0 = out1) as -> by congruence.
    exists out1, o1. rewrite <- Ho. done.
  - rewrite <- Ho. by eapply (IH g1 y.2 out1).
Qed.

(** C1. Every item yielded after the first holds, at every position, a
    distance less than or equal to the one of the item yielded before it
    (read when that item was yielded): the two snapshots have the same
    length and [P_r[i] <= P_{r-1}[i]] for all [i]. *)
Theorem scrimp_monotonic (n_threads : Z) (orders samples : list Z)
    (T : list float) (m : Z) (percentage : float) (prescrimp : bool)
    (s : option Z) (h : store) (g0 : scrimp_gen) (h0 : store)
    (fuel r : nat) (ref0 ref1 : loc) (s0 s1 : store) :
  scrimp calc mass compute_mean_std n_threads orders samples T m percentage
    prescrimp s h = Some (g0, h0) →
  yields calc fuel g0 h0 !! r = Some (ref0, s0) →
  yields calc fuel g0 h0 !! S r = Some (ref1, s1) →
  length (profile s1 ref1) = length (profile s0 ref0) ∧
  ∀ i p0 p1, profile s0 ref0 !! i = Some p0 → profile s1 ref1 !! i = Some p1 →
             F64.leb p1 p0 = true.
Proof.
  intros Hg H0 H1.
  destruct (scrimp_created _ _ _ _ _ _ _ _ _ _ _ Hg) as (_ & out & Hout & Hclean).
  destruct (yields_consecutive fuel g0 h0 out Hout Hclean r _ _ H0 H1)
    as (o0 & o1 & Ho0 & Hc0 & Hs1 & [Hlen Himp]).
  pose proof (yields_refs fuel g0 h0) as Hrefs. rewrite Forall_lookup in Hrefs.
  pose proof (Hrefs _ _ H0) as R0. pose proof (Hrefs _ _ H1) as R1.
  simpl in *. subst ref0 ref1. unfold profile.
  rewrite Hs1, lookup_insert_eq, Ho0. simpl. rewrite !length_fmap.
  split; [done|]. intros i p0 p1 Hp0 Hp1.
  rewrite list_lookup_fmap in Hp0, Hp1.
  destruct (o0 !! i) as [a|] eqn:Ha; [|done].
  destruct (Himp i a Ha) as (b & Hb & Hor). rewrite Hb in Hp1.
  simpl in Hp0, Hp1. inversion Hp0; inversion Hp1; subst.
  unfold clean in Hc0. rewrite Forall_lookup in Hc0.
  destruct Hor as [->|Hlt]; [apply leb_refl; by eapply Hc0|by apply ltb_leb].
Qed.

(** C9, as the code has it. Every item yielded is the one reference held
    in [out]: the items alias each other, and a round overwrites the array
    behind that reference in place, leaving the rest of the store as it
    was. There is at most one item per round. *)
Theorem scrimp_yields_alias (n_threads : Z) (orders samples : list Z)
    (T : list float) (m : Z) (percentage : float) (prescrimp : bool)
    (s : option Z) (h : store) (g0 : scrimp_gen) (h0 : store) (fuel : nat) :
  scrimp calc mass compute_mean_std n_threads orders samples T m percentage
    prescrimp s h = Some (g0, h0) →
  Forall (λ y, y.1 = gen_out g0) (yields calc fuel g0 h0) ∧
  (length (yields calc fuel g0 h0) ≤ Z.to_nat (gen_rounds g0))%nat ∧
  ∀ r y0 y1,
    yields calc fuel g0 h0 !! r = Some y0 →
    yields calc fuel g0 h0 !! S r = Some y1 →
    ∃ o1, y1.2 = <[y0.1 := o1]> y0.2.
Proof.
  intros Hg.
  destruct (scrimp_created _ _ _ _ _ _ _ _ _ _ _ Hg) as (Hr & out & Hout & Hclean).
  split; [apply yields_refs|]. split.
  - pose proof (yields_length fuel g0 h0). rewrite Hr in *.
    by rewrite Z.sub_0_r in *.
  - intros r y0 y1 H0 H1.
    destruct (yields_consecutive fuel g0 h0 out Hout Hclean r _ _ H0 H1)
      as (o0 & o1 & _ & _ & Hs1 & _).
    pose proof (yields_refs fuel g0 h0) as Hrefs. rewrite Forall_lookup in Hrefs.
    rewrite (Hrefs _ _ H0). eauto.
Qed.

End GeneratorProps.

(** ** PreSCRIMP *)

Section PreScrimpProps.
Variable calc : Z → float → float → float → float → float → float.
Variable mass : list float → list float → list float → list float → list float.

Lemma py_index_is_Some {A} (a : list A) (i : Z) :
  0 ≤ i < Z.of_nat (length a) → ∃ x, py_index a i = Some x.
Proof.
  intros Hi. rewrite py_index_in_range by done.
  apply lookup_lt_is_Some_2. lia.
Qed.

Lemma py_set_in_range {A} (a : list A) (i : Z) (x : A) :
  0 ≤ i < Z.of_nat (length a) → py_set a i x = Some (<[Z.to_nat i := x]> a).
Proof.
  intros Hi. unfold py_set.
  destruct (Z.leb_spec 0 i), (Z.ltb_spec i (Z.of_nat (length a))); simpl; try lia; done.
Qed.

(** An in-range [improve] does not raise and keeps the lengths. *)
Lemma improve_in_range (l x j : Z) (D : float) (PI : list float * list Z) :
  Z.of_nat (length PI.1) = l → Z.of_nat (length PI.2) = l → 0 ≤ x < l →
  ∃ PI', improve x D j PI = Some PI' ∧
         Z.of_nat (length PI'.1) = l ∧ Z.of_nat (length PI'.2) = l.
Proof.
  intros H1 H2 Hx. unfold improve.
  destruct (py_index_is_Some PI.1 x) as [p ->]; [lia|]. simpl.
  destruct (F64.ltb D p); [|eauto].
  rewrite !py_set_in_range by lia. simpl. eexists. split; [done|].
  simpl. by rewrite !length_insert.
Qed.


Lemma elem_of_py_range (a b k : Z) : k ∈ py_range a b ↔ a ≤ k < b.
Proof. unfold py_range. rewrite elem_of_seqZ. lia. Qed.

End PreScrimpProps.

(** ** Self-match exclusion in the diagonal walk *)

Section ExclusionProps.
Variable calc : Z → float → float → float → float → float → float.

Lemma outside_zone_abs (excl_zone x j : Z) :
  outside_zone excl_zone x j = true ↔ excl_zone < Z.abs (j - x).
Proof.
  unfold outside_zone. rewrite orb_true_iff, !Z.ltb_lt. lia.
Qed.

Lemma excl_ok_init (excl_zone : Z) (l : nat) : excl_ok excl_zone (replicate l (-1)).
Proof.
  intros x j Hx Hj. apply lookup_replicate in Hx as [-> _]. done.
Qed.

Lemma excl_ok_best_row (excl_zone x : Z) (D : float) (j : Z)
    (r : list float * list Z) :
  excl_ok excl_zone r.2 → j = -1 ∨ outside_zone excl_zone x j = true →
  excl_ok excl_zone (best_row x D j r).2.
Proof.
  intros Hr Hout. unfold best_row.
  destruct (_ && _) eqn:Hg; [|done]. simpl.
  apply andb_true_iff in Hg as [Hx _]. apply Z.leb_le in Hx.
  intros y j' Hy Hne. destruct (decide (y = Z.to_nat x)) as [->|Hyx].
  - destruct (decide (Z.to_nat x < length r.2)%nat).
    + rewrite list_lookup_insert_eq in Hy by done.
      inversion Hy; subst. rewrite Z2Nat.id by done.
      by destruct Hout.
    + rewrite list_insert_ge in Hy by lia. by apply Hr.
  - rewrite list_lookup_insert_ne in Hy by done. by apply Hr.
Qed.

Lemma excl_ok_apply_cands (excl_zone : Z) (cs : list cand) :
  Forall (λ c : cand, c.2 = -1 ∨ outside_zone excl_zone c.1.1 c.2 = true) cs →
  ∀ r, excl_ok excl_zone r.2 → excl_ok excl_zone (apply_cands cs r).2.
Proof.
  induction 1 as [|c cs Hc Hcs IH]; intros r Hr; [done|].
  simpl. apply IH. by apply excl_ok_best_row.
Qed.

(** The walker only offers pairs that pass its own test. *)
Lemma diagonal_cands_outside (T : list float) (m : Z) (μ σ : list float)
    (excl_zone k : Z) (l : nat) (rows : list Z) :
  ∀ QT r, diagonal_cands calc T m μ σ excl_zone k l rows QT = Some r →
          Forall (λ c : cand, outside_zone excl_zone c.1.1 c.2 = true) r.2.
Proof.
  induction rows as [|i rows IH]; intros QT r H; simpl in H.
  - inversion H. constructor.
  - destruct (diagonal_distance calc T m μ σ k i QT) as [QD|]; [|done].
    simpl in H.
    destruct (i <? i + k - 1 - excl_zone) eqn:Hg.
    + destruct (in_row l i && in_row l (i + k - 1)); [|done]. simpl in H.
      destruct (diagonal_cands calc T m μ σ excl_zone k l rows QD.1)
        as [rest|] eqn:Hrest; [|done].
      simpl in H. inversion H; subst; simpl.
      apply Z.ltb_lt in Hg.
      constructor; [|constructor; [|by eapply IH]]; simpl;
        unfold outside_zone; apply orb_true_iff; rewrite !Z.ltb_lt; lia.
    + simpl in H.
      destruct (diagonal_cands calc T m μ σ excl_zone k l rows QD.1)
        as [rest|] eqn:Hrest; [|done].
      simpl in H. inversion H; subst; simpl. by eapply IH.
Qed.

Lemma range_cands_outside (T : list float) (m : Z) (μ σ : list float)
    (orders : list Z) (excl_zone : Z) (l : nat) (idxs : list Z) :
  ∀ QT r, range_cands calc T m μ σ orders excl_zone l idxs QT = Some r →
          Forall (λ c : cand, outside_zone excl_zone c.1.1 c.2 = true) r.2.
Proof.
  induction idxs as [|idx idxs IH]; intros QT r H; simpl in H.
  - inversion H. constructor.
  - destruct (jit_index orders idx) as [k|]; [|done]. simpl in H.
    destruct (diagonal_cands calc T m μ σ excl_zone k l _ QT) as [r1|] eqn:H1;
      [|done].
    simpl in H.
    destruct (range_cands calc T m μ σ orders excl_zone l idxs r1.1)
      as [r2|] eqn:H2; [|done].
    simpl in H. inversion H; subst; simpl. apply Forall_app. split.
    + by eapply diagonal_cands_outside.
    + by eapply IH.
Qed.

(** A loop keeps what each successful turn of its body keeps. *)
Lemma for_each_preserves {A S} (Inv : S → Prop) (body : A → S → option S)
    (l : list A) :
  (∀ x s s', x ∈ l → Inv s → body x s = Some s' → Inv s') →
  ∀ s s', Inv s → for_each body l s = Some s' → Inv s'.
Proof.
  induction l as [|x l IH]; intros Hbody s s' Hs H; simpl in H.
  - by inversion H; subst.
  - destruct (body x s) as [s1|] eqn:H1; [|done]. simpl in H.
    eapply IH; [|by eapply (Hbody x s s1); [left|..]|done].
    intros y t t' Hy. apply Hbody. by right.
Qed.

(** The indices returned by [_scrimp] satisfy the exclusion, whatever the
    ranges handed to the workers. *)
Lemma scrimp_excl_ok (n_threads : Z) (T : list float) (m : Z) (μ σ : list float)
    (orders : list Z) (ranges : list (Z * Z)) (excl_zone : Z)
    (PI : list float * list Z) :
  _scrimp calc n_threads T m μ σ orders ranges excl_zone = Some PI →
  excl_ok excl_zone PI.2.
Proof.
  unfold _scrimp. set (l := Z.of_nat (length T) - m + 1).
  destruct ((l <? 0) || (n_threads <? 0)) eqn:Hneg; [done|].
  apply orb_false_iff in Hneg as [Hl Hn].
  apply Z.ltb_ge in Hn. apply Z.ltb_ge in Hl.
  set (nt := Z.to_nat n_threads). set (ln := Z.to_nat l).
  set (Inv := λ PI : list (list float) * list (list Z),
         shape nt ln PI ∧ ∀ t, (t < nt)%nat → excl_ok excl_zone (get_row t PI).2).
  intros H.
  match type of H with
  | (?run ≫= _) = _ => destruct run as [PI1|] eqn:Hpar; [|done]
  end.
  cbn [mbind option_bind] in H.
  match type of H with
  | (?run ≫= _) = _ => destruct run as [PI2|] eqn:Hred; [|done]
  end.
  cbn [mbind option_bind] in H.
  assert (Hinv1 : Inv PI1).
  { eapply for_each_preserves; [|shelve|exact Hpar].
    intros ti PI0 PI0' Hti [Hs Hok] Hbody. apply elem_of_py_range in Hti.
    destruct (jit_index ranges ti) as [r|]; [|done]. simpl in Hbody.
    replace ti with (Z.of_nat (Z.to_nat ti)) in Hbody by lia.
    rewrite (compute_diagonal_cands calc T m μ σ orders excl_zone nt ln)
      in Hbody by (done || lia).
    unfold cands_of in Hbody.
    destruct (range_cands calc T m μ σ orders excl_zone ln _ F64.nan)
      as [rc|] eqn:Hrc; [|done].
    simpl in Hbody. inversion Hbody; subst PI0'.
    destruct (shape_row nt ln PI0 (Z.to_nat ti) Hs ltac:(lia)) as (_ & _ & L1 & L2).
    split; [by apply shape_apply|].
    intros t Ht. destruct (decide (t = Z.to_nat ti)) as [->|Hne].
    - rewrite (get_set_row nt ln) by (done || lia).
      apply excl_ok_apply_cands; [|apply Hok; lia].
      eapply Forall_impl; [by eapply range_cands_outside|]. intros c Hc. by right.
    - rewrite get_row_other by done. by apply Hok. }
  Unshelve.
  2:{ split; [apply tables0_shape|]. intros t Ht.
      rewrite tables0_row by done. apply excl_ok_init. }
  assert (Hinv2 : Inv PI2).
  { eapply for_each_preserves; [|exact Hinv1|exact Hred].
    intros ti PI0 PI0' Hti [Hs Hok] Hbody. apply elem_of_py_range in Hti.
    replace ti with (Z.of_nat (Z.to_nat ti)) in Hbody by lia.
    replace l with (Z.of_nat ln) in Hbody by lia.
    rewrite (reduce_thread nt ln) in Hbody by (done || lia).
    inversion Hbody; subst PI0'.
    destruct (shape_row nt ln PI0 0 Hs ltac:(lia)) as (_ & _ & L1 & L2).
    split; [by apply shape_apply|].
    intros t Ht. destruct (decide (t = 0%nat)) as [->|Hne].
    - rewrite (get_set_row nt ln) by (done || lia).
      apply excl_ok_apply_cands; [|apply Hok; lia].
      unfold row_cands. apply Forall_fmap, Forall_forall.
      intros i Hi. apply elem_of_py_range in Hi. simpl.
      destruct (shape_row nt ln PI0 (Z.to_nat ti) Hs ltac:(lia))
        as (_ & _ & _ & L4).
      destruct (lookup_lt_is_Some_2 (get_row (Z.to_nat ti) PI0).2 (Z.to_nat i))
        as [j Hj]; [lia|].
      change (default [] (PI0.2 !! Z.to_nat ti))
        with (get_row (Z.to_nat ti) PI0).2.
      rewrite Hj. simpl.
      destruct (decide (j = -1)) as [->|Hj1]; [by left|]. right.
      replace i with (Z.of_nat (Z.to_nat i)) at 1 by lia.
      eapply (Hok (Z.to_nat ti)); [lia|done|done].
    - rewrite get_row_other by done. by apply Hok. }
  destruct Hinv2 as [Hs2 Hok2].
  destruct (jit_index PI2.1 0) as [P0|]; [|done].
  cbn [mbind option_bind] in H.
  destruct (jit_index PI2.2 0) as [I0|] eqn:HI0; [|done].
  cbn [mbind option_bind] in H. inversion H; subst PI. simpl.
  change 0 with (Z.of_nat 0) in HI0. rewrite jit_index_nat in HI0.
  assert (0 < nt)%nat as Hnt by (apply lookup_lt_Some in HI0; destruct Hs2 as (_ & <- & _); done).
  specialize (Hok2 0%nat Hnt). unfold get_row in Hok2. simpl in Hok2.
  by rewrite HI0 in Hok2.
Qed.

Lemma py_index_nonneg {A} (a : list A) (i : Z) (x : A) :
  0 ≤ i → py_index a i = Some x →
  a !! Z.to_nat i = Some x ∧ i < Z.of_nat (length a).
Proof.
  intros Hi. unfold py_index.
  destruct (Z.leb_spec 0 i); [|lia].
  destruct (Z.ltb_spec i (Z.of_nat (length a))); simpl; [done|].
  destruct (Z.ltb_spec i 0); [lia|]. by rewrite andb_false_r.
Qed.

Lemma merge_step_excl (excl_zone : Z) (P : list float) (I : list Z) (i : Z)
    (out out' : list (float * Z)) :
  0 ≤ i → excl_ok excl_zone I → excl_ok excl_zone (snd <$> out) →
  merge_step P I i out = Some out' → excl_ok excl_zone (snd <$> out').
Proof.
  intros Hi HI Hout. unfold merge_step. intros H.
  destruct (py_index out i) as [o|] eqn:Ho; [|done]. simpl in H.
  destruct (py_index P i) as [p|]; [|done]. simpl in H.
  destruct (F64.gtb o.1 p); [|by inversion H; subst].
  apply py_index_nonneg in Ho as [Ho Hlt]; [|done].
  rewrite py_set_in_range in H by lia. simpl in H.
  destruct (py_index I i) as [x|] eqn:Hx; [|done]. simpl in H.
  apply py_index_nonneg in Hx as [Hx _]; [|done].
  rewrite py_set_in_range in H by (rewrite length_insert; lia).
  inversion H; subst out'. rewrite list_insert_insert_eq, list_fmap_insert.
  simpl. intros y j Hy Hj.
  destruct (decide (y = Z.to_nat i)) as [->|Hne].
  - rewrite list_lookup_insert_eq in Hy by (rewrite length_fmap; lia).
    inversion Hy; subst. by eapply HI.
  - rewrite list_lookup_insert_ne in Hy by done. by eapply Hout.
Qed.

Lemma merge_out_excl (excl_zone count : Z) (P : list float) (I : list Z)
    (out out' : list (float * Z)) :
  excl_ok excl_zone I → excl_ok excl_zone (snd <$> out) →
  merge_out count P I out = Some out' → excl_ok excl_zone (snd <$> out').
Proof.
  intros HI Hout H. unfold merge_out in H.
  eapply (for_each_preserves (λ o, excl_ok excl_zone (snd <$> o)));
    [|exact Hout|exact H].
  intros i o o' Hi Ho Hstep. apply elem_of_py_range in Hi.
  eapply merge_step_excl; [|exact HI|exact Ho|exact Hstep]. lia.
Qed.

(** A round keeps the exclusion on the array behind [out]. *)
Lemma scrimp_round_excl (g g1 : scrimp_gen) (h h1 : store) (out : list (float * Z)) :
  h !! gen_out g = Some out → excl_ok (gen_excl_zone g) (snd <$> out) →
  scrimp_round calc g h = Some (g1, h1) →
  gen_excl_zone g1 = gen_excl_zone g ∧
  ∃ out1, h1 !! gen_out g1 = Some out1 ∧
          excl_ok (gen_excl_zone g) (snd <$> out1).
Proof.
  intros Hout Hok. unfold scrimp_round. intros H.
  destruct (_get_orders_ranges _ _ _ _ _ _) as [rs|]; [|done]. simpl in H.
  destruct (_scrimp _ _ _ _ _ _ _ _ _) as [PI|] eqn:Hscr; [|done]. simpl in H.
  destruct rs as [|r rs]; [done|]. simpl in H.
  rewrite Hout in H. simpl in H.
  destruct (merge_out _ _ _ out) as [out1|] eqn:Hm; [|done]. simpl in H.
  inversion H; subst; clear H. simpl. split; [done|].
  exists out1. rewrite lookup_insert_eq. split; [done|].
  eapply merge_out_excl; [|exact Hok|exact Hm].
  by eapply scrimp_excl_ok.
Qed.

Lemma yields_excl (fuel : nat) :
  ∀ (g : scrimp_gen) (h : store) (out : list (float * Z)),
    h !! gen_out g = Some out → excl_ok (gen_excl_zone g) (snd <$> out) →
    Forall (λ y, excl_ok (gen_excl_zone g) (indices y.2 y.1))
      (yields calc fuel g h).
Proof.
  induction fuel as [|fuel IH]; intros g h out Hout Hok; [constructor|].
  destruct (yields calc (S fuel) g h) as [|y ys] eqn:Hy; [constructor|].
  apply yields_S in Hy as (g1 & Hlt & Hround & Hy1 & ->).
  destruct (scrimp_round_excl g g1 h y.2 out Hout Hok Hround)
    as (He & out1 & Hout1 & Hok1).
  constructor.
  - unfold indices. rewrite Hy1, Hout1. done.
  - rewrite <- He. eapply IH; [exact Hout1|]. by rewrite He.
Qed.

(** Without PreSCRIMP every item yielded by [scrimp] satisfies the
    self-match exclusion for [e = ceil(m / 4)]. *)
Lemma scrimp_exclusion_walk (mass : list float → list float → list float →
                               list float → list float)
    (compute_mean_std : list float → Z → list float * list float)
    (n_threads : Z) (orders samples : list Z) (T : list float) (m : Z)
    (percentage : float) (s : option Z) (h : store) (g0 : scrimp_gen) (h0 : store)
    (fuel : nat) :
  scrimp calc mass compute_mean_std n_threads orders samples T m percentage
    false s h = Some (g0, h0) →
  Forall (λ y, ∀ x j, indices y.2 y.1 !! x = Some j → j ≠ -1 →
                      excl_zone_of m < Z.abs (j - Z.of_nat x))
    (yields calc fuel g0 h0).
Proof.
  unfold scrimp. intros H.
  destruct (m <=? 2); [done|].
  destruct (_ <? 0); [done|]. cbn [mbind option_bind] in H.
  destruct (F64.eqb _ F64.zero); [done|].
  destruct (F64.ceil _) as [rounds|]; [|done]. cbn [mbind option_bind] in H.
  inversion H; subst; clear H.
  match goal with
  | |- Forall _ (yields calc fuel ?g ?h) =>
      pose proof (yields_excl fuel g h _ (lookup_insert_eq _ _ _)) as Hy
  end.
  simpl in Hy. eapply Forall_impl; [apply Hy|].
  - rewrite fmap_replicate. apply excl_ok_init.
  - intros y Hok x j Hx Hj. apply outside_zone_abs. by apply Hok.
Qed.

End ExclusionProps.

(** ** PreSCRIMP: the scan, the extension and the self-match exclusion *)

Section PreScrimpExclusion.
Variable calc : Z → float → float → float → float → float → float.
Variable mass : list float → list float → list float → list float → list float.

Lemma improve_excl (excl_zone x j : Z) (D : float) (PI PI' : list float * list Z) :
  0 ≤ x → excl_ok excl_zone PI.2 →
  (∀ p, PI.1 !! Z.to_nat x = Some p → F64.ltb D p = true →
        j = -1 ∨ outside_zone excl_zone x j = true) →
  improve x D j PI = Some PI' →
  excl_ok excl_zone PI'.2 ∧ length PI'.1 = length PI.1 ∧
  length PI'.2 = length PI.2.
Proof.
  intros Hx Hok Hout. unfold improve. intros H.
  destruct (py_index PI.1 x) as [p|] eqn:Hp; [|done]. simpl in H.
  apply py_index_nonneg in Hp as [Hp Hlt]; [|done].
  destruct (F64.ltb D p) eqn:Hlt'; [|by inversion H; subst].
  rewrite (py_set_in_range PI.1 x D) in H by lia. simpl in H.
  destruct (py_set PI.2 x j) as [I'|] eqn:HI; [|done]. simpl in H.
  inversion H; subst PI'. simpl. rewrite length_insert.
  unfold py_set in HI. destruct (Z.leb_spec 0 x); [|lia].
  destruct (Z.ltb_spec x (Z.of_nat (length PI.2))); simpl in HI.
  - inversion HI; subst I'. rewrite length_insert. split; [|done].
    intros y j' Hy Hj'. destruct (decide (y = Z.to_nat x)) as [->|Hne].
    + rewrite list_lookup_insert_eq in Hy by lia. inversion Hy; subst.
      rewrite Z2Nat.id by done. by destruct (Hout p Hp Hlt').
    + rewrite list_lookup_insert_ne in Hy by done. by eapply Hok.
  - destruct (Z.ltb_spec x 0); [lia|]. by rewrite andb_false_r in HI.
Qed.

Lemma argmin_from_range (v : list float) :
  ∀ best_idx best i, 0 ≤ best_idx < i →
    0 ≤ argmin_from best_idx best i v < i + Z.of_nat (length v).
Proof.
  induction v as [|x v IH]; intros best_idx best i Hb; simpl; [lia|].
  destruct (F64.isnan best); [lia|].
  destruct (F64.isnan x || F64.ltb x best).
  - specialize (IH i x (i + 1)). lia.
  - specialize (IH best_idx best (i + 1)). lia.
Qed.

Lemma np_argmin_range (v : list float) (a : Z) :
  np_argmin v = Some a → 0 ≤ a < Z.of_nat (length v).
Proof.
  destruct v as [|x v]; [done|]. simpl. intros H. inversion H; subst.
  pose proof (argmin_from_range v 0 x 1). lia.
Qed.

Lemma mask_zone_lookup (D : list float) (zs ze : Z) (y : nat) (d : float) :
  mask_zone D zs ze !! y = Some d →
  (zs ≤ Z.of_nat y < ze → d = F64.inf) ∧ length (mask_zone D zs ze) = length D.
Proof.
  unfold mask_zone. rewrite list_lookup_imap, length_imap. intros H.
  split; [|done]. intros Hy.
  destruct (D !! y) as [x|]; [|done]. simpl in H.
  destruct (Z.leb_spec zs (Z.of_nat y)); [|lia].
  destruct (Z.ltb_spec (Z.of_nat y) ze); [|lia].
  simpl in H. by inversion H.
Qed.

(** From a pair outside the exclusion zone, the extension keeps the
    exclusion. *)
Lemma extend_excl (T : list float) (m : Z) (μ σ : list float)
    (s excl_zone l i j : Z) (PI PI' : list float * list Z) :
  0 ≤ i → 0 ≤ j → outside_zone excl_zone i j = true →
  excl_ok excl_zone PI.2 →
  extend calc T m μ σ s l i j PI = Some PI' → excl_ok excl_zone PI'.2.
Proof.
  intros Hi Hj Hout Hok. unfold extend. intros H.
  assert (Hzone : ∀ d, outside_zone excl_zone (i + d) (j + d) = true
                       ∧ outside_zone excl_zone (j + d) (i + d) = true).
  { intros d. unfold outside_zone in *.
    apply orb_true_iff in Hout. rewrite !orb_true_iff, !Z.ltb_lt in *. lia. }
  destruct (py_index PI.1 i); [|done]. cbn [mbind option_bind] in H.
  destruct (py_index σ i); [|done]. cbn [mbind option_bind] in H.
  destruct (py_index σ j); [|done]. cbn [mbind option_bind] in H.
  destruct (py_index μ i); [|done]. cbn [mbind option_bind] in H.
  destruct (py_index μ j); [|done]. cbn [mbind option_bind] in H.
  match type of H with
  | (?run ≫= _) = _ => destruct run as [st|] eqn:Hfwd; [|done]
  end.
  cbn [mbind option_bind] in H.
  match type of H with
  | (?run ≫= _) = _ => destruct run as [st'|] eqn:Hbwd; [|done]
  end.
  cbn [mbind option_bind] in H. inversion H; subst PI'.
  set (Inv := λ st : float * (list float * list Z), excl_ok excl_zone st.2.2).
  assert (Hst : Inv st).
  { eapply (for_each_preserves Inv); [|shelve|exact Hfwd].
    intros k s0 s1 Hk Hs0 Hstep. apply elem_of_py_range in Hk.
    unfold forward_step in Hstep.
    repeat match type of Hstep with
           | (py_index ?a ?b ≫= _) = _ =>
               destruct (py_index a b); [|done];
               cbn [mbind option_bind] in Hstep
           end.
    match type of Hstep with
    | (?run ≫= _) = _ => destruct run as [PI1|] eqn:H1; [|done]
    end.
    cbn [mbind option_bind] in Hstep.
    match type of Hstep with
    | (?run ≫= _) = _ => destruct run as [PI2|] eqn:H2; [|done]
    end.
    cbn [mbind option_bind] in Hstep. inversion Hstep; subst s1.
    apply improve_excl with (excl_zone := excl_zone) in H1 as (Hok1 & _);
      [|lia|done|intros; right; apply Hzone].
    apply improve_excl with (excl_zone := excl_zone) in H2 as (Hok2 & _);
      [|lia|done|intros; right; apply Hzone].
    done. }
  Unshelve. 2:{ done. }
  eapply (for_each_preserves Inv); [|shelve|exact Hbwd].
  intros k s0 s1 Hk Hs0 Hstep. apply elem_of_py_range in Hk.
  unfold backward_step in Hstep.
  repeat match type of Hstep with
         | (py_index ?a ?b ≫= _) = _ =>
             destruct (py_index a b); [|done];
             cbn [mbind option_bind] in Hstep
         end.
  match type of Hstep with
  | (?run ≫= _) = _ => destruct run as [PI1|] eqn:H1; [|done]
  end.
  cbn [mbind option_bind] in Hstep.
  match type of Hstep with
  | (?run ≫= _) = _ => destruct run as [PI2|] eqn:H2; [|done]
  end.
  cbn [mbind option_bind] in Hstep. inversion Hstep; subst s1.
  apply improve_excl with (excl_zone := excl_zone) in H1 as (Hok1 & _);
    [|lia|done|intros; right; apply (Hzone (- k))].
  apply improve_excl with (excl_zone := excl_zone) in H2 as (Hok2 & _);
    [|lia|done|intros; right; apply (Hzone (- k))].
  done.
  Unshelve. exact Hst.
Qed.








(** The scan of a sampled row keeps the exclusion; the match it leaves for
    the row, when there is one, is a window outside the exclusion zone;
    a row left without a match ([I[i] = -1]) has [P[i] = +inf]. *)
Lemma scan_excl (T : list float) (m : Z) (μ σ : list float)
    (excl_zone l i : Z) (PI PI' : list float * list Z) :
  0 ≤ excl_zone → 0 ≤ i < l →
  Z.of_nat (length PI.1) = l → Z.of_nat (length PI.2) = l →
  Z.of_nat (length (mass (py_slice T i (i + m)) T μ σ)) = l →
  scan mass T m μ σ excl_zone l i PI = Some PI' →
  (excl_ok excl_zone PI.2 → excl_ok excl_zone PI'.2) ∧
  Z.of_nat (length PI'.1) = l ∧ Z.of_nat (length PI'.2) = l ∧
  (∀ j, py_index PI'.2 i = Some j → j ≠ -1 →
        0 ≤ j < l ∧ outside_zone excl_zone i j = true) ∧
  (py_index PI'.2 i = Some (-1) → py_index PI'.1 i = Some F64.inf).
Proof.
  intros He Hi HP HI Hmass. unfold scan.
  set (D := mask_zone _ _ _). intros H.
  assert (HD : Z.of_nat (length D) = l).
  { unfold D, mask_zone. by rewrite length_imap, length_fmap. }
  assert (Hmask : ∀ y d, 0 ≤ y → py_index D y = Some d → d ≠ F64.inf →
                         y < l ∧ outside_zone excl_zone i y = true).
  { intros y d Hy Hd Hne. apply py_index_nonneg in Hd as [Hd Hlt]; [|done].
    apply mask_zone_lookup in Hd as [Hin _]. split; [lia|].
    rewrite Z2Nat.id in Hin by done.
    unfold outside_zone. apply orb_true_iff. rewrite !Z.ltb_lt.
    destruct (decide (Z.max 0 (i - excl_zone) ≤ y
                      < Z.min l (i + excl_zone) + 1)) as [Hz|Hz];
      [by specialize (Hin Hz)|]. lia. }
  destruct (np_argmin D) as [a|] eqn:Ha; [|done]. cbn [mbind option_bind] in H.
  apply np_argmin_range in Ha.
  rewrite (py_set_in_range PI.2 i a) in H by lia. cbn [mbind option_bind] in H.
  rewrite (py_index_in_range (<[Z.to_nat i := a]> PI.2) i) in H
    by (rewrite length_insert; lia).
  rewrite list_lookup_insert_eq in H by lia. cbn [mbind option_bind] in H.
  destruct (py_index D a) as [d|] eqn:Hd; [|done]. cbn [mbind option_bind] in H.
  rewrite (py_set_in_range PI.1 i d) in H by lia. cbn [mbind option_bind] in H.
  rewrite (py_index_in_range (<[Z.to_nat i := d]> PI.1) i) in H
    by (rewrite length_insert; lia).
  rewrite list_lookup_insert_eq in H by lia. cbn [mbind option_bind] in H.
  set (I1 := if F64.eqb d F64.inf then <[Z.to_nat i := -1]> (<[Z.to_nat i := a]> PI.2)
             else <[Z.to_nat i := a]> PI.2).
  assert (HI1 : (if F64.eqb d F64.inf
                 then py_set (<[Z.to_nat i := a]> PI.2) i (-1)
                 else Some (<[Z.to_nat i := a]> PI.2)) = Some I1).
  { unfold I1. destruct (F64.eqb d F64.inf); [|done].
    rewrite py_set_in_range by (rewrite length_insert; lia). done. }
  rewrite HI1 in H. cbn [mbind option_bind] in H.
  assert (HlI1 : Z.of_nat (length I1) = l).
  { unfold I1. destruct (F64.eqb d F64.inf); rewrite !length_insert; lia. }
  assert (Hbest : ∀ j, I1 !! Z.to_nat i = Some j → j ≠ -1 →
                       0 ≤ j < l ∧ outside_zone excl_zone i j = true).
  { intros j Hj Hne. unfold I1 in Hj. destruct (F64.eqb d F64.inf) eqn:Hinf.
    - rewrite list_lookup_insert_eq in Hj by (rewrite length_insert; lia).
      congruence.
    - rewrite list_lookup_insert_eq in Hj by lia. inversion Hj; subst j.
      destruct (Hmask a d) as [? ?]; [lia|done| |split; [lia|done]].
      intros ->. done. }
  assert (Hnone : I1 !! Z.to_nat i = Some (-1) → d = F64.inf).
  { intros Hj. unfold I1 in Hj. destruct (F64.eqb d F64.inf) eqn:Hinf.
    - by apply eqb_inf.
    - rewrite list_lookup_insert_eq in Hj by lia. inversion Hj. lia. }
  assert (Hok1 : excl_ok excl_zone PI.2 → excl_ok excl_zone I1).
  { intros Hok y j Hy Hne. destruct (decide (y = Z.to_nat i)) as [->|Hyi].
    - rewrite Z2Nat.id by lia. by apply Hbest.
    - apply Hok; [|done]. unfold I1 in Hy.
      destruct (F64.eqb d F64.inf);
        rewrite !list_lookup_insert_ne in Hy by done; done. }
  set (Inv := λ S : list float * list Z,
         (excl_ok excl_zone PI.2 → excl_ok excl_zone S.2) ∧
         Z.of_nat (length S.1) = l ∧
         Z.of_nat (length S.2) = l ∧ S.2 !! Z.to_nat i = I1 !! Z.to_nat i ∧
         S.1 !! Z.to_nat i = Some d).
  assert (Hfinal : Inv PI').
  { eapply (for_each_preserves Inv); [|shelve|exact H].
    intros j S S' Hj (Sok & SP & SI & Si & Sd) Hbody.
    apply elem_of_py_range in Hj.
    destruct (py_index D j) as [dj|] eqn:Hdj; [|done].
    cbn [mbind option_bind] in Hbody.
    assert (Himp : ∀ p, S.1 !! Z.to_nat j = Some p → F64.ltb dj p = true →
                        dj ≠ F64.inf).
    { intros p _ Hlt ->. by rewrite ltb_inf_r in Hlt. }
    destruct (improve_in_range l j i dj S) as (S1 & HS1 & SP' & SI');
      [done|done|lia|].
    assert (S1 = S') as -> by congruence.
    split.
    { intros Hok.
      destruct (improve_excl excl_zone j i dj S S') as (Sok' & _);
        [lia|by apply Sok| |done|done].
      intros p Hp Hlt. right.
      destruct (Hmask j dj) as [_ Hz]; [lia|done|by eapply Himp|].
      unfold outside_zone in *. by rewrite orb_comm. }
    split; [lia|]. split; [lia|].
    rewrite <- Si, <- Sd. unfold improve in Hbody.
    destruct (py_index S.1 j) as [p|] eqn:Hp; [|done].
    cbn [mbind option_bind] in Hbody.
    destruct (F64.ltb dj p) eqn:Hlt; [|by inversion Hbody; subst].
    rewrite !py_set_in_range in Hbody by lia.
    cbn [mbind option_bind] in Hbody. inversion Hbody; subst S'. simpl.
    destruct (decide (j = i)) as [->|Hji];
      [|by rewrite !list_lookup_insert_ne by lia].
    exfalso. apply py_index_nonneg in Hdj as [Hdj _]; [|lia].
    apply mask_zone_lookup in Hdj as [Hin _].
    rewrite Z2Nat.id in Hin by lia.
    rewrite Hin in Hlt by lia. by rewrite ltb_inf_r in Hlt. }
  Unshelve.
  2:{ split; [done|]. simpl. rewrite length_insert.
      split; [done|]. split; [done|]. split; [done|].
      apply list_lookup_insert_eq. lia. }
  destruct Hfinal as (Hok' & HP' & HI' & Hi' & Hd').
  split; [done|]. split; [done|]. split; [done|]. split.
  - intros j Hj Hne. rewrite py_index_in_range in Hj by lia.
    rewrite Hi' in Hj. by apply Hbest.
  - intros Hj. rewrite py_index_in_range in Hj by lia.
    rewrite py_index_in_range by lia. rewrite Hd'. f_equal.
    apply Hnone. by rewrite <- Hi'.
Qed.


Lemma py_set_length {A} (a a' : list A) (i : Z) (x : A) :
  py_set a i x = Some a' → length a' = length a.
Proof.
  unfold py_set. destruct (_ && _); [|destruct (_ && _); [|done]];
    intros H; inversion H; by rewrite length_insert.
Qed.

Lemma improve_length (x j : Z) (D : float) (PI PI' : list float * list Z) :
  improve x D j PI = Some PI' →
  length PI'.1 = length PI.1 ∧ length PI'.2 = length PI.2.
Proof.
  unfold improve. intros H.
  destruct (py_index PI.1 x) as [p|]; [|done]. cbn [mbind option_bind] in H.
  destruct (F64.ltb D p); [|by inversion H].
  destruct (py_set PI.1 x D) as [P|] eqn:HP; [|done].
  cbn [mbind option_bind] in H.
  destruct (py_set PI.2 x j) as [I|] eqn:HI; [|done].
  cbn [mbind option_bind] in H. inversion H; subst PI'. simpl.
  split; by eapply py_set_length.
Qed.

(** A distance that is [+inf] or NaN improves nothing. *)
Lemma improve_no_less (x j : Z) (D : float) (PI PI' : list float * list Z) :
  D = F64.inf ∨ D = F64.nan → improve x D j PI = Some PI' → PI' = PI.
Proof.
  intros HD. unfold improve. intros H.
  destruct (py_index PI.1 x) as [p|]; [|done]. cbn [mbind option_bind] in H.
  assert (F64.ltb D p = false) as Hlt
    by (destruct HD as [-> | ->]; [apply ltb_inf_r|apply ltb_nan_l]).
  rewrite Hlt in H. congruence.
Qed.

Lemma extend_lengths (T : list float) (m : Z) (μ σ : list float)
    (s l i j : Z) (PI PI' : list float * list Z) :
  extend calc T m μ σ s l i j PI = Some PI' →
  length PI'.1 = length PI.1 ∧ length PI'.2 = length PI.2.
Proof.
  unfold extend. intros H.
  destruct (py_index PI.1 i); [|done]. cbn [mbind option_bind] in H.
  destruct (py_index σ i); [|done]. cbn [mbind option_bind] in H.
  destruct (py_index σ j); [|done]. cbn [mbind option_bind] in H.
  destruct (py_index μ i); [|done]. cbn [mbind option_bind] in H.
  destruct (py_index μ j); [|done]. cbn [mbind option_bind] in H.
  match type of H with
  | (?run ≫= _) = _ => destruct run as [st|] eqn:Hfwd; [|done]
  end.
  cbn [mbind option_bind] in H.
  match type of H with
  | (?run ≫= _) = _ => destruct run as [st'|] eqn:Hbwd; [|done]
  end.
  cbn [mbind option_bind] in H. inversion H; subst PI'.
  set (Inv := λ st : float * (list float * list Z),
         length st.2.1 = length PI.1 ∧ length st.2.2 = length PI.2).
  assert (Hst : Inv st).
  { eapply (for_each_preserves Inv); [|shelve|exact Hfwd].
    intros k s0 s1 Hk [L1 L2] Hstep. unfold forward_step in Hstep.
    repeat match type of Hstep with
           | (py_index ?a ?b ≫= _) = _ =>
               destruct (py_index a b); [|done];
               cbn [mbind option_bind] in Hstep
           end.
    match type of Hstep with
    | (?run ≫= _) = _ => destruct run as [PI1|] eqn:H1; [|done]
    end.
    cbn [mbind option_bind] in Hstep.
    match type of Hstep with
    | (?run ≫= _) = _ => destruct run as [PI2|] eqn:H2; [|done]
    end.
    cbn [mbind option_bind] in Hstep. inversion Hstep; subst s1.
    apply improve_length in H1 as [? ?]. apply improve_length in H2 as [? ?].
    split; simpl; congruence. }
  Unshelve. 2:{ done. }
  eapply (for_each_preserves Inv); [|shelve|exact Hbwd].
  intros k s0 s1 Hk [L1 L2] Hstep. unfold backward_step in Hstep.
  repeat match type of Hstep with
         | (py_index ?a ?b ≫= _) = _ =>
             destruct (py_index a b); [|done];
             cbn [mbind option_bind] in Hstep
         end.
  match type of Hstep with
  | (?run ≫= _) = _ => destruct run as [PI1|] eqn:H1; [|done]
  end.
  cbn [mbind option_bind] in Hstep.
  match type of Hstep with
  | (?run ≫= _) = _ => destruct run as [PI2|] eqn:H2; [|done]
  end.
  cbn [mbind option_bind] in Hstep. inversion Hstep; subst s1.
  apply improve_length in H1 as [? ?]. apply improve_length in H2 as [? ?].
  split; simpl; congruence.
  Unshelve. exact Hst.
Qed.

Lemma sub_not_finite (a b : float) :
  F64.isfinite a = false → F64.isfinite (F64.sub a b) = false.
Proof. destruct a as [|[]| |], b as [|[]| |]; done. Qed.

Lemma add_not_finite (a b : float) :
  F64.isfinite a = false → F64.isfinite (F64.add a b) = false.
Proof. destruct a as [|[]| |], b as [|[]| |]; done. Qed.

Lemma mul_not_finite (a b : float) :
  F64.isfinite a = false → F64.isfinite (F64.mul a b) = false.
Proof. destruct a as [|[]| |], b as [|[]| |[]]; done. Qed.

Lemma sub_inf_not_finite (a : float) :
  F64.isfinite (F64.sub a F64.inf) = false.
Proof. destruct a as [|[]| |]; done. Qed.

(** The seed rebuilt from an infinite distance is not finite. *)
Lemma seed_QT_not_finite (m : Z) (σ_i σ_j μ_i μ_j : float) :
  F64.isfinite (seed_QT m F64.inf σ_i σ_j μ_i μ_j) = false.
Proof.
  unfold seed_QT. apply add_not_finite, mul_not_finite.
  change (F64.div F64.inf two) with F64.inf. apply sub_inf_not_finite.
Qed.

Section NoMatch.

(** The squared distance of a dot product that is not finite is [+inf] or
    NaN. *)
Hypothesis calc_not_finite : ∀ m QT μ_Q σ_Q M_T Σ_T,
  F64.isfinite QT = false →
  calc m QT μ_Q σ_Q M_T Σ_T = F64.inf ∨ calc m QT μ_Q σ_Q M_T Σ_T = F64.nan.

(** From a row left without a match ([j = -1], [P[i] = +inf]) the
    extension writes nothing. *)
Lemma extend_nomatch (T : list float) (m : Z) (μ σ : list float)
    (s l i : Z) (PI PI' : list float * list Z) :
  0 ≤ i → py_index PI.1 i = Some F64.inf →
  extend calc T m μ σ s l i (-1) PI = Some PI' → PI' = PI.
Proof.
  intros Hi HP. unfold extend. rewrite HP. cbn [mbind option_bind]. intros H.
  destruct (py_index σ i) as [σ_i|]; [|done]. cbn [mbind option_bind] in H.
  destruct (py_index σ (-1)) as [σ_j|]; [|done]. cbn [mbind option_bind] in H.
  destruct (py_index μ i) as [μ_i|]; [|done]. cbn [mbind option_bind] in H.
  destruct (py_index μ (-1)) as [μ_j|]; [|done]. cbn [mbind option_bind] in H.
  match type of H with
  | (?run ≫= _) = _ => destruct run as [st|] eqn:Hfwd; [|done]
  end.
  cbn [mbind option_bind] in H.
  rewrite (py_range_nil 1) in H by lia. cbn [for_each mbind option_bind] in H.
  inversion H; subst PI'.
  set (Inv := λ st : float * (list float * list Z),
         F64.isfinite st.1 = false ∧ st.2 = PI).
  assert (Hst : Inv st); [|by destruct Hst].
  eapply (for_each_preserves Inv); [|shelve|exact Hfwd].
  intros k s0 s1 Hk [Hfin Htab] Hstep. unfold forward_step in Hstep.
  repeat match type of Hstep with
         | (py_index ?a ?b ≫= _) = _ =>
             destruct (py_index a b); [|done];
             cbn [mbind option_bind] in Hstep
         end.
  match type of Hstep with
  | (?run ≫= _) = _ => destruct run as [PI1|] eqn:H1; [|done]
  end.
  cbn [mbind option_bind] in Hstep.
  match type of Hstep with
  | (?run ≫= _) = _ => destruct run as [PI2|] eqn:H2; [|done]
  end.
  cbn [mbind option_bind] in Hstep. inversion Hstep; subst s1.
  assert (Hq : F64.isfinite (F64.add (F64.sub s0.1 (F64.mul f f0)) (F64.mul f1 f2))
               = false) by (by apply add_not_finite, sub_not_finite).
  apply improve_no_less in H1; [|by apply calc_not_finite].
  subst PI1. apply improve_no_less in H2; [|by apply calc_not_finite].
  subst PI2. done.
  Unshelve. split; [apply seed_QT_not_finite|done].
Qed.

(** A sampled row leaves the exclusion intact, whether its scan found a
    match or not. *)
Lemma prescrimp_sample_excl (T : list float) (m : Z) (μ σ : list float)
    (s excl_zone l i : Z) (PI PI' : list float * list Z) :
  0 ≤ excl_zone → 0 ≤ i < l →
  Z.of_nat (length PI.1) = l → Z.of_nat (length PI.2) = l →
  Z.of_nat (length (mass (py_slice T i (i + m)) T μ σ)) = l →
  excl_ok excl_zone PI.2 →
  prescrimp_sample calc mass T m μ σ s excl_zone l i PI = Some PI' →
  excl_ok excl_zone PI'.2 ∧
  Z.of_nat (length PI'.1) = l ∧ Z.of_nat (length PI'.2) = l.
Proof.
  intros He Hi HP HI Hmass Hok. unfold prescrimp_sample. intros H.
  destruct (scan mass T m μ σ excl_zone l i PI) as [PI1|] eqn:Hscan; [|done].
  cbn [mbind option_bind] in H.
  destruct (scan_excl T m μ σ excl_zone l i PI PI1 He Hi HP HI Hmass Hscan)
    as (Hok1 & L1 & L2 & Hbest & Hnone).
  specialize (Hok1 Hok).
  destruct (py_index PI1.2 i) as [j|] eqn:Hj; [|done].
  cbn [mbind option_bind] in H.
  destruct (decide (j = -1)) as [->|Hne].
  - apply extend_nomatch in H; [by subst PI'|lia|by apply Hnone].
  - destruct (Hbest j eq_refl Hne) as [Hjr Hout].
    pose proof (extend_lengths _ _ _ _ _ _ _ _ _ _ H) as [L3 L4].
    split; [|lia].
    eapply extend_excl; [| |exact Hout|exact Hok1|exact H]; lia.
Qed.

End NoMatch.



Section Contract.

Hypothesis calc_not_finite : ∀ m QT μ_Q σ_Q M_T Σ_T,
  F64.isfinite QT = false →
  calc m QT μ_Q σ_Q M_T Σ_T = F64.inf ∨ calc m QT μ_Q σ_Q M_T Σ_T = F64.nan.

Hypothesis mass_length : ∀ Q T μ σ,
  (length Q ≤ length T)%nat →
  length (mass Q T μ σ) = (length T - length Q + 1)%nat.

Lemma elem_of_py_range_step (b s x : Z) :
  x ∈ py_range_step b s → 0 ≤ x < b.
Proof.
  unfold py_range_step. destruct (Z.ltb_spec 0 s) as [Hs|]; [|by intros ?%elem_of_nil].
  intros (q & -> & Hq%elem_of_py_range)%list_elem_of_fmap.
  assert (s * ((b + s - 1) / s) ≤ b + s - 1) by (apply Z.mul_div_le; lia).
  nia.
Qed.

(** PreSCRIMP returns indices that satisfy the exclusion. *)
Lemma prescrimp_excl (samples : list Z) (T : list float) (m : Z)
    (μ σ : list float) (s : option Z) (PI : list float * list Z) :
  0 ≤ m →
  Forall (λ i, 0 ≤ i < Z.of_nat (length T) - m + 1) samples →
  _prescrimp calc mass samples T m μ σ s = Some PI →
  excl_ok (excl_zone_of m) PI.2.
Proof.
  intros Hm Hsamples. unfold _prescrimp.
  set (l := Z.of_nat (length T) - m + 1) in *.
  destruct (Z.ltb_spec l 0) as [|Hl]; [done|].
  destruct (_ =? 0); [done|]. intros H.
  match type of H with
  | (?run ≫= _) = _ => destruct run as [PI1|] eqn:Hrun; [|done]
  end.
  cbn [mbind option_bind] in H. inversion H; subst PI. simpl.
  assert (He : 0 ≤ excl_zone_of m)
    by (unfold excl_zone_of; apply Z.div_pos; lia).
  set (Inv := λ S : list float * list Z,
         excl_ok (excl_zone_of m) S.2 ∧
         Z.of_nat (length S.1) = l ∧ Z.of_nat (length S.2) = l).
  assert (Hfinal : Inv PI1); [|by destruct Hfinal].
  eapply (for_each_preserves Inv); [|shelve|exact Hrun].
  intros i S S' Hi (Sok & SP & SI) Hbody.
  rewrite Forall_forall in Hsamples. specialize (Hsamples i Hi).
  eapply prescrimp_sample_excl; [exact calc_not_finite|done|done|done|done| |done|done].
  assert (Hq : length (py_slice T i (i + m)) = Z.to_nat m)
    by (rewrite py_slice_length by (fold l in Hsamples; lia); f_equal; lia).
  rewrite mass_length by lia. rewrite Hq. unfold l. lia.
  Unshelve.
  split; [apply excl_ok_init|]. simpl. rewrite !length_replicate. lia.
Qed.

End Contract.

End PreScrimpExclusion.

Section SelfMatchExclusion.
Variable calc : Z → float → float → float → float → float → float.
Variable mass : list float → list float → list float → list float → list float.
Variable compute_mean_std : list float → Z → list float * list float.

(** C3. Every item yielded by [scrimp] satisfies the self-match exclusion
    for [e = ceil(m / 4)]: an index other than -1 lies more than [e] away
    from its position. Without PreSCRIMP this holds for any distance
    function. With PreSCRIMP, [samples] being a permutation of
    [range(0, l, s)], it holds for a distance function that gives [+inf] or
    NaN to a dot product that is not finite and a whole-series distance of
    one entry per window: the scan masks the exclusion zone, the extension
    from a best pair keeps its lag, and the extension from a row left
    without a match starts from a seed that is not finite and writes
    nothing. *)
Theorem scrimp_self_match_exclusion (n_threads : Z) (orders samples : list Z)
    (T : list float) (m : Z) (percentage : float) (prescrimp : bool)
    (s : option Z) (h : store) (g0 : scrimp_gen) (h0 : store) (fuel : nat) :
  (prescrimp = true →
   (∀ m QT μ_Q σ_Q M_T Σ_T, F64.isfinite QT = false →
      calc m QT μ_Q σ_Q M_T Σ_T = F64.inf ∨
      calc m QT μ_Q σ_Q M_T Σ_T = F64.nan) ∧
   (∀ Q T μ σ, (length Q ≤ length T)%nat →
      length (mass Q T μ σ) = (length T - length Q + 1)%nat) ∧
   samples ≡ₚ py_range_step (Z.of_nat (length T) - m + 1)
                (default (excl_zone_of m) s)) →
  scrimp calc mass compute_mean_std n_threads orders samples T m percentage
    prescrimp s h = Some (g0, h0) →
  Forall (λ y, ∀ x j, indices y.2 y.1 !! x = Some j → j ≠ -1 →
                      excl_zone_of m < Z.abs (j - Z.of_nat x))
    (yields calc fuel g0 h0).
Proof.
  intros Hpre H. destruct prescrimp; [|by eapply scrimp_exclusion_walk].
  destruct (Hpre eq_refl) as (Hcalc & Hmass & Hperm). clear Hpre.
  unfold scrimp in H.
  destruct (Z.leb_spec m 2) as [|Hm]; [done|].
  destruct (_ <? 0); [done|].
  match type of H with
  | (?pre ≫= _) = _ => destruct pre as [out|] eqn:Hout; [|done]
  end.
  cbn [mbind option_bind] in H.
  destruct (F64.eqb _ F64.zero); [done|].
  destruct (F64.ceil _) as [rounds|]; [|done]. cbn [mbind option_bind] in H.
  inversion H; subst; clear H.
  match type of Hout with
  | (?pre ≫= _) = _ => destruct pre as [PI|] eqn:HPI; [|done]
  end.
  cbn [mbind option_bind] in Hout.
  apply prescrimp_excl in HPI; [|done|done|lia|].
  2:{ rewrite !length_fmap. apply Forall_forall. intros i Hi.
      rewrite Hperm in Hi. by apply elem_of_py_range_step in Hi. }
  apply merge_out_excl with (excl_zone := excl_zone_of m) in Hout;
    [|done|rewrite fmap_replicate; apply excl_ok_init].
  match goal with
  | |- Forall _ (yields calc fuel ?g ?h) =>
      pose proof (yields_excl calc fuel g h _ (lookup_insert_eq _ _ _)) as Hy
  end.
  simpl in Hy. eapply Forall_impl; [by apply Hy|].
  intros y Hok x j Hx Hj. apply outside_zone_abs. by apply Hok.
Qed.

End SelfMatchExclusion.

(** The reference distance gives [+inf] or NaN to a dot product that is
    not finite. *)
Lemma Ref_calc_not_finite (m : Z) (QT μ_Q σ_Q M_T Σ_T : float) :
  F64.isfinite QT = false →
  Ref._calculate_squared_distance m QT μ_Q σ_Q M_T Σ_T = F64.inf ∨
  Ref._calculate_squared_distance m QT μ_Q σ_Q M_T Σ_T = F64.nan.
Proof.
  intros HQ. unfold Ref._calculate_squared_distance.
  destruct (_ || _); [by left|]. destruct (_ || _); [by left|].
  set (a := F64.mul (F64.mul (F64.of_Z m) μ_Q) M_T).
  set (b := F64.mul (F64.mul (F64.of_Z m) σ_Q) Σ_T).
  set (c := F64.mul two (F64.of_Z m)).
  assert (H1 : F64.isfinite (F64.sub QT a) = false) by (by apply sub_not_finite).
  assert (H2 : F64.isfinite (F64.div (F64.sub QT a) b) = false).
  { destruct (F64.sub QT a) as [|[]| |], b as [|[]| |[]]; done. }
  assert (H3 : F64.isfinite (F64.sub Ref.one (F64.div (F64.sub QT a) b)) = false).
  { destruct (F64.div (F64.sub QT a) b) as [|[]| |]; done. }
  assert (H4 : F64.isfinite
                 (F64.mul c (F64.sub Ref.one (F64.div (F64.sub QT a) b))) = false).
  { destruct c as [|[]| |[]],
      (F64.sub Ref.one (F64.div (F64.sub QT a) b)) as [|[]| |]; done. }
  destruct (F64.mul c _) as [|[]| |]; try done; [by left|by left|by right].
Qed.

Lemma Ref_mass_length (Q T μ σ : list float) :
  (length Q ≤ length T)%nat →
  length (Ref.mass Q T μ σ) = (length T - length Q + 1)%nat.
Proof.
  intros H. unfold Ref.mass. rewrite length_fmap.
  unfold py_range. rewrite length_seqZ. lia.
Qed.


(** ** Examples *)

Section ExampleRuns.
Import Examples.

Lemma scrimp_monotonic_witness :
  length (profile item1.2 item1.1) = length (profile item0.2 item0.1) ∧
  ∀ i p0 p1, profile item0.2 item0.1 !! i = Some p0 →
             profile item1.2 item1.1 !! i = Some p1 → F64.leb p1 p0 = true.
Proof.
  apply (scrimp_monotonic Ref._calculate_squared_distance Ref.mass
           Ref.compute_mean_std 2 [4; 3; 10; 6; 2; 9; 5; 8; 7; 11] [] T_mixed 3
           F64.d0_5 false None ∅ g_mixed h_mixed 2 0);
    vm_compute; reflexivity.
Defined.

Lemma scrimp_yields_alias_witness :
  Forall (λ y, y.1 = gen_out g_mixed) items_mixed ∧
  (length items_mixed ≤ Z.to_nat (gen_rounds g_mixed))%nat.
Proof.
  destruct (scrimp_yields_alias Ref._calculate_squared_distance Ref.mass
              Ref.compute_mean_std 2 [4; 3; 10; 6; 2; 9; 5; 8; 7; 11] []
              T_mixed 3 F64.d0_5 false None ∅ g_mixed h_mixed 2)
    as (H1 & H2 & _); [vm_compute; reflexivity|].
  split; [exact H1|exact H2].
Defined.

(** C9 as stated fails: the two items of this run are the same reference,
    and the profile read through it at position 2 after the second round is
    not the one it showed when the first item was yielded. *)
Lemma scrimp_yields_not_independent :
  length items_mixed = 2%nat ∧ item0.1 = item1.1 ∧
  profile item1.2 item0.1 !! 2%nat ≠ profile item0.2 item0.1 !! 2%nat.
Proof. split; [|split]; vm_compute; congruence. Qed.

Lemma scrimp_reduction_ordered_witness :
  _scrimp Ref._calculate_squared_distance 2 T_repeat 3 μ_repeat σ_repeat
    [7; 4] [(0, 1); (1, 2)] 1
  = _scrimp Ref._calculate_squared_distance 1 T_repeat 3 μ_repeat σ_repeat
      [7; 4] [(0, 2)] 1.
Proof.
  apply scrimp_reduction_ordered; [lia|reflexivity|reflexivity].
Defined.

(** C2 as stated fails for ranges handed to the workers out of order.
    Windows 0, 3 and 6 of the series are equal; with the diagonals 7 and 4
    split as worker 0 on [1, 2) and worker 1 on [0, 1), the reduction keeps
    for position 0 the match 3 found by worker 0, where a single worker
    walking [0, 2) keeps the match 6 it finds first: the distances are the
    same, the indices are not. *)
Lemma scrimp_reduction_out_of_order :
  visited [(1, 2); (0, 1)] = [1; 0] ∧
  snd <$> _scrimp Ref._calculate_squared_distance 2 T_repeat 3 μ_repeat σ_repeat
            [7; 4] [(1, 2); (0, 1)] 1 = Some [3; 4; 5; 0; 1; 2; 3] ∧
  snd <$> _scrimp Ref._calculate_squared_distance 1 T_repeat 3 μ_repeat σ_repeat
            [7; 4] [(0, 2)] 1 = Some [6; 4; 5; 0; 1; 2; 0] ∧
  fst <$> _scrimp Ref._calculate_squared_distance 2 T_repeat 3 μ_repeat σ_repeat
            [7; 4] [(1, 2); (0, 1)] 1
  = fst <$> _scrimp Ref._calculate_squared_distance 1 T_repeat 3 μ_repeat
              σ_repeat [7; 4] [(0, 2)] 1.
Proof. repeat split; vm_compute; reflexivity. Qed.

Lemma compute_diagonal_in_bounds_witness :
  ∃ PI', _compute_diagonal Ref._calculate_squared_distance T_repeat 3
           μ_repeat σ_repeat [7; 4] 0 2 1 (Z.of_nat 1)
           (replicate 2 (replicate 7 F64.inf)) (replicate 2 (replicate 7 (-1)))
         = Some PI' ∧ shape 2 7 PI'.
Proof.
  apply (compute_diagonal_in_bounds Ref._calculate_squared_distance 2 1
           T_repeat 3 μ_repeat σ_repeat [7; 4] 0 2 1).
  - lia.
  - lia.
  - reflexivity.
  - reflexivity.
  - repeat split; repeat constructor.
  - lia.
  - intros idx Hidx.
    assert (idx = 0 ∨ idx = 1) as [->| ->] by lia;
      eexists; (split; [reflexivity|simpl; lia]).
Defined.

Lemma scrimp_self_match_exclusion_witness :
  length items_plateau = 2%nat ∧
  Forall (λ y, ∀ x j, indices y.2 y.1 !! x = Some j → j ≠ -1 →
                      excl_zone_of 3 < Z.abs (j - Z.of_nat x)) items_plateau.
Proof.
  split; [vm_compute; reflexivity|].
  apply (scrimp_self_match_exclusion Ref._calculate_squared_distance Ref.mass
           Ref.compute_mean_std 2 [4; 3; 10; 6; 2; 9; 5; 8; 7; 11] [6; 0; 9; 3]
           T_plateau 3 F64.d0_5 true (Some 3) ∅).
  - intros _. split; [apply Ref_calc_not_finite|].
    split; [apply Ref_mass_length|].
    apply (bool_decide_unpack _). vm_compute. exact I.
  - vm_compute. reflexivity.
Defined.


End ExampleRuns.
